(** * A shallow embedding of the word-count hash table (assignment_1)

    [HashTable] follows src/assignment_1/src/HashTable.cpp and
    [TextProcessor] follows src/assignment_1/src/TextProcessor.cpp, function
    by function and under the names of the source. [std::hash] and the MD5
    functions of OpenSSL are parameters of the functions that call them;
    [MD5] gives the digest of RFC 1321 for the examples.

    Conventions of the embedding.
    - A C++ [int] is a [Z]; where the source can leave the 32-bit range
      ([size + 2000], [elements_count++], [count + 1], [word_count++])
      the check is written out.
    - A [std::vector] is a [list]; indexing outside the vector is undefined
      behaviour in the source and [Undefined] here.
    - A [char] is an [ascii]; a [std::string] is a [string]; the contents of
      a file are a [list ascii], and the files that a function opens by
      name are a [files].
    - A function that may throw returns an [outcome].

    The file has the embedding first, then the vocabulary of the
    statements, then the proofs: the properties C1 to C10 of the
    specification, and further properties X1 to X29 of the code. The
    functions that download the book, look at directories and take the
    time ([download_book], [write_data], [directory_exists],
    [create_directory], [PerformanceTimer], and [main], which calls them)
    are not modelled. *)

From Stdlib Require Import ZArith NArith List Ascii String Bool Lia.
From stdpp Require Import base tactics list.

Local Open Scope Z_scope.

(** ** Exceptions and undefined behaviour *)

Inductive exception : Type :=
| overflow_error
| invalid_argument
| runtime_error
| length_error.

Inductive outcome (A : Type) : Type :=
| Ok (a : A)
| Throw (e : exception)
| Undefined.

Arguments Ok {A} a.
Arguments Throw {A} e.
Arguments Undefined {A}.

Definition bind {A B : Type} (m : outcome A) (k : A -> outcome B) : outcome B :=
  match m with
  | Ok a => k a
  | Throw e => Throw e
  | Undefined => Undefined
  end.

Notation "x <- m ;; k" := (bind m (fun x => k))
  (at level 100, m at next level, right associativity).

(** ** Machine integers *)

Definition INT_MAX : Z := 2147483647.
Definition INT_MIN : Z := -2147483648.

(** Conversion of a value to [size_t] (64 bits, unsigned). *)
Definition to_size_t (z : Z) : Z := z mod 2 ^ 64.

(** Conversion of a value to [int] (32 bits, two's complement). *)
Definition to_int (z : Z) : Z := (z + 2 ^ 31) mod 2 ^ 32 - 2 ^ 31.

(** ** Vectors *)

(** [v[i]] read. *)
Definition vec_get {A : Type} (v : list A) (i : Z) : outcome A :=
  if i <? 0 then Undefined
  else match v !! Z.to_nat i with
       | Some x => Ok x
       | None => Undefined
       end.

(** [v[i] = x]. *)
Definition vec_set {A : Type} (v : list A) (i : Z) (x : A) : outcome (list A) :=
  if i <? 0 then Undefined
  else if (Z.to_nat i <? length v)%nat then Ok (<[Z.to_nat i := x]> v)
  else Undefined.

(** [std::vector<T> v(n, x)]: a negative [int] converts to a [size_t] above
    [max_size()] and the constructor throws. *)
Definition vec_make {A : Type} (n : Z) (x : A) : outcome (list A) :=
  if n <? 0 then Throw length_error else Ok (replicate (Z.to_nat n) x).

(** [v.resize(n)], new elements value-initialised to [x]. *)
Definition vec_resize {A : Type} (n : Z) (x : A) (v : list A) : outcome (list A) :=
  if n <? 0 then Throw length_error else Ok (resize (Z.to_nat n) x v).

(** ** Binary streams *)

(** Four bytes of an [int], least significant first (the byte order of the
    machines the program is built for). *)
Definition byte_of (z : Z) : ascii := ascii_of_N (Z.to_N (z mod 256)).

Definition encode_int (z : Z) : list ascii :=
  [byte_of z; byte_of (z / 256); byte_of (z / 65536); byte_of (z / 16777216)].

Definition decode_int (bs : list ascii) : Z :=
  to_int (fold_right (fun b acc => Z.of_N (N_of_ascii b) + 256 * acc) 0 bs).

(** [file.read(p, n)]: the characters extracted (stored at [p]), the rest of
    the stream, and whether the stream is still good, which it is exactly
    when all [n] characters were there. *)
Definition stream_read (n : Z) (s : list ascii) : list ascii * list ascii * bool :=
  (take (Z.to_nat n) s, drop (Z.to_nat n) s, Z.to_nat n <=? length s)%nat.

(** [file.read(reinterpret_cast<char*>(&x), sizeof(x))] for an [int] that
    already holds [old]: a short read overwrites the leading bytes only. *)
Definition read_int_into (old : Z) (s : list ascii) : Z * list ascii * bool :=
  let '(got, rest, good) := stream_read 4 s in
  (decode_int (got ++ drop (length got) (encode_int old)), rest, good).

(** ** Files *)

(** The files that the program works on: the bytes of every file that can
    be opened for reading, by path, and the paths that can be opened for
    writing. *)
Record files : Type := mk_files {
  file_at : string -> option (list ascii);
  writable : string -> bool
}.

(** [std::ofstream file(path); file << data; file.close()] on a path that
    can be opened for writing. *)
Definition write_file (fs : files) (path : string) (data : list ascii) : files :=
  mk_files (fun p => if String.eqb p path then Some data else file_at fs p)
    (writable fs).

(** * HashTable.cpp *)

Module HashTable.

(** The members of the class. [occupied] is a [std::vector<char>] in which
    only 0 and 1 are ever stored ([false], [true], [1] and
    [is_occupied == 1]), so it is a list of [bool]. *)
Record t : Type := mk {
  table : list (string * Z);
  occupied : list bool;
  first_index : Z;
  last_index : Z;
  size : Z;
  elements_count : Z
}.

(** [HashTable::HashTable(int size)] *)
Definition new (size : Z) : outcome t :=
  tbl <- vec_make size (EmptyString, 0) ;;
  occ <- vec_make size false ;;
  Ok (mk tbl occ (-1) (-1) size 0).

Section WithHash.

(** [std::hash<std::string>]: the standard fixes only that it is a function
    to [size_t]. *)
Variable hash_fn : string -> N.

(** [HashTable::hash]. The remainder is taken in [size_t]; a zero
    [table_size] is a division by zero. *)
Definition hash (key : string) (table_size : Z) : outcome Z :=
  if to_size_t table_size =? 0 then Undefined
  else Ok (to_int (to_size_t (Z.of_N (hash_fn key)) mod to_size_t table_size)).

(** [HashTable::linear_probe]. The [while] loop comes back to
    [original_index] after [table_size] steps at the latest, so
    [table_size] rounds of fuel are never used up on an index in range. *)
Fixpoint linear_probe_loop (fuel : nat) (original_index index table_size : Z)
    (table_occupied : list bool) : outcome Z :=
  c <- vec_get table_occupied index ;;
  if c : bool then
    match fuel with
    | O => Undefined
    | S fuel' =>
        let index := Z.rem (index + 1) table_size in
        if index =? original_index then Throw overflow_error
        else linear_probe_loop fuel' original_index index table_size table_occupied
    end
  else Ok index.

Definition linear_probe (index table_size : Z) (table_occupied : list bool)
    : outcome Z :=
  linear_probe_loop (Z.to_nat table_size) index index table_size table_occupied.

(** The rehash loop of [HashTable::resize]; the state is
    [(new_table, new_occupied, new_first_index, new_last_index)]. *)
Fixpoint resize_loop (fuel : nat) (ht : t) (new_size i : Z)
    (st : list (string * Z) * list bool * Z * Z)
    : outcome (list (string * Z) * list bool * Z * Z) :=
  match fuel with
  | O => Ok st
  | S fuel' =>
      let '(new_table, new_occupied, new_first_index, new_last_index) := st in
      o <- vec_get (occupied ht) i ;;
      if o : bool then
        e <- vec_get (table ht) i ;;
        new_index <- hash (fst e) new_size ;;
        new_index <- linear_probe new_index new_size new_occupied ;;
        new_table <- vec_set new_table new_index e ;;
        new_occupied <- vec_set new_occupied new_index true ;;
        let new_first_index :=
          if i =? first_index ht then new_index else new_first_index in
        resize_loop fuel' ht new_size (i + 1)
          (new_table, new_occupied, new_first_index, new_index)
      else resize_loop fuel' ht new_size (i + 1) st
  end.

(** [HashTable::resize] *)
Definition resize (ht : t) : outcome t :=
  if INT_MAX - 2000 <? size ht then Undefined (* signed overflow *)
  else
    let new_size := size ht + 2000 in
    new_table <- vec_make new_size (EmptyString, 0) ;;
    new_occupied <- vec_make new_size false ;;
    st <- resize_loop (Z.to_nat (size ht)) ht new_size 0
            (new_table, new_occupied, -1, -1) ;;
    let '(new_table, new_occupied, new_first_index, new_last_index) := st in
    Ok (mk new_table new_occupied new_first_index new_last_index new_size
          (elements_count ht)).

(** The probing loop of [HashTable::insert]. *)
Fixpoint insert_loop (fuel : nat) (ht : t) (index : Z) (key : string) (value : Z)
    : outcome t :=
  match fuel with
  | O => Throw overflow_error
  | S fuel' =>
      o <- vec_get (occupied ht) index ;;
      if o : bool then
        e <- vec_get (table ht) index ;;
        if String.eqb (fst e) key then
          tbl <- vec_set (table ht) index (fst e, value) ;;
          Ok (mk tbl (occupied ht) (first_index ht) (last_index ht) (size ht)
                (elements_count ht))
        else insert_loop fuel' ht (Z.rem (index + 1) (size ht)) key value
      else
        tbl <- vec_set (table ht) index (key, value) ;;
        occ <- vec_set (occupied ht) index true ;;
        if elements_count ht =? INT_MAX then Undefined (* signed overflow *)
        else
          Ok (mk tbl occ
                (if first_index ht =? -1 then index else first_index ht)
                index (size ht) (elements_count ht + 1))
  end.

(** [HashTable::insert] *)
Definition insert (ht : t) (key : string) (value : Z) : outcome t :=
  ht <- (if elements_count ht =? size ht then resize ht else Ok ht) ;;
  index <- hash key (size ht) ;;
  insert_loop (Z.to_nat (size ht)) ht index key value.

(** The probing loop of [HashTable::remove]. *)
Fixpoint remove_loop (fuel : nat) (ht : t) (index : Z) (key : string) : outcome t :=
  match fuel with
  | O => Throw invalid_argument
  | S fuel' =>
      o <- vec_get (occupied ht) index ;;
      e <- (if o : bool then vec_get (table ht) index else Ok (EmptyString, 0)) ;;
      if o && String.eqb (fst e) key then
        occ <- vec_set (occupied ht) index false ;;
        tbl <- vec_set (table ht) index (EmptyString, 0) ;;
        if elements_count ht =? INT_MIN then Undefined (* signed overflow *)
        else
          Ok (mk tbl occ
                (if index =? first_index ht then -1 else first_index ht)
                (if index =? last_index ht then -1 else last_index ht)
                (size ht) (elements_count ht - 1))
      else remove_loop fuel' ht (Z.rem (index + 1) (size ht)) key
  end.

(** [HashTable::remove] *)
Definition remove (ht : t) (key : string) : outcome t :=
  index <- hash key (size ht) ;;
  remove_loop (Z.to_nat (size ht)) ht index key.

(** The probing loop of [HashTable::get]. *)
Fixpoint get_loop (fuel : nat) (ht : t) (index : Z) (key : string) : outcome Z :=
  match fuel with
  | O => Throw invalid_argument
  | S fuel' =>
      o <- vec_get (occupied ht) index ;;
      e <- (if o : bool then vec_get (table ht) index else Ok (EmptyString, 0)) ;;
      if o && String.eqb (fst e) key then Ok (snd e)
      else get_loop fuel' ht (Z.rem (index + 1) (size ht)) key
  end.

(** [HashTable::get] *)
Definition get (ht : t) (key : string) : outcome Z :=
  index <- hash key (size ht) ;;
  get_loop (Z.to_nat (size ht)) ht index key.

End WithHash.

(** [HashTable::get_stats] *)
Definition get_stats (ht : t) : Z * Z :=
  (fold_left (fun count (slot : bool) => if slot then count + 1 else count)
     (occupied ht) 0,
   size ht).

(** [HashTable::get_last] *)
Definition get_last (ht : t) : outcome (string * Z) :=
  if last_index ht =? -1 then Throw runtime_error
  else vec_get (table ht) (last_index ht).

(** [HashTable::get_first] *)
Definition get_first (ht : t) : outcome (string * Z) :=
  if first_index ht =? -1 then Throw runtime_error
  else vec_get (table ht) (first_index ht).

(** The slot loop of [HashTable::save_to_file]: the bytes written for the
    slots [i], [i+1], ... *)
Fixpoint save_loop (fuel : nat) (ht : t) (i : Z) : outcome (list ascii) :=
  match fuel with
  | O => Ok []
  | S fuel' =>
      e <- vec_get (table ht) i ;;
      o <- vec_get (occupied ht) i ;;
      let key_size := to_int (Z.of_nat (String.length (fst e))) in
      rest <- save_loop fuel' ht (i + 1) ;;
      Ok (encode_int key_size
            ++ take (Z.to_nat key_size) (list_ascii_of_string (fst e))
            ++ encode_int (snd e)
            ++ [if o : bool then byte_of 1 else byte_of 0]
            ++ rest)
  end.

(** [HashTable::save_to_file]; [opened] tells whether the output file could
    be opened, the result is what is written to it. *)
Definition save_to_file (ht : t) (opened : bool) : outcome (list ascii) :=
  if opened then
    slots <- save_loop (Z.to_nat (size ht)) ht 0 ;;
    Ok (encode_int (size ht) ++ encode_int (elements_count ht)
          ++ encode_int (first_index ht) ++ encode_int (last_index ht) ++ slots)
  else Throw runtime_error.

(** The slot loop of [HashTable::load_from_file]; a [break] ends the loop
    with the vectors as they are. *)
Fixpoint load_loop (fuel : nat) (i : Z) (file : list ascii)
    (tbl : list (string * Z)) (occ : list bool)
    : outcome (list (string * Z) * list bool) :=
  match fuel with
  | O => Ok (tbl, occ)
  | S fuel' =>
      let '(got, file, good) := stream_read 4 file in
      if negb good then Ok (tbl, occ)
      else
        let key_size := decode_int got in
        if (key_size <? 0) || (1000 <? key_size) then Ok (tbl, occ)
        else
          let '(key, file, good) := stream_read key_size file in
          if negb good then Ok (tbl, occ)
          else
            let '(got, file, good) := stream_read 4 file in
            if negb good then Ok (tbl, occ)
            else
              let value := decode_int got in
              let '(got, file, good) := stream_read 1 file in
              if negb good then Ok (tbl, occ)
              else
                let is_occupied := List.hd Ascii.zero got in
                occ <- vec_set occ i (Ascii.eqb is_occupied (byte_of 1)) ;;
                tbl <- vec_set tbl i (string_of_list_ascii key, value) ;;
                load_loop fuel' (i + 1) file tbl occ
  end.

(** [HashTable::load_from_file]; [file] is [None] when the file cannot be
    opened. The members are assigned as they are read, so the table is
    returned also when the result is [false]. *)
Definition load_from_file (ht : t) (file : option (list ascii)) : outcome (bool * t) :=
  match file with
  | None => Ok (false, ht)
  | Some file =>
      let '(size', file, good) := read_int_into (size ht) file in
      let ht := mk (table ht) (occupied ht) (first_index ht) (last_index ht)
                  size' (elements_count ht) in
      if negb good then Ok (false, ht)
      else
      let '(count', file, good) := read_int_into (elements_count ht) file in
      let ht := mk (table ht) (occupied ht) (first_index ht) (last_index ht)
                  (size ht) count' in
      if negb good then Ok (false, ht)
      else
      let '(first', file, good) := read_int_into (first_index ht) file in
      let ht := mk (table ht) (occupied ht) first' (last_index ht)
                  (size ht) (elements_count ht) in
      if negb good then Ok (false, ht)
      else
      let '(last', file, good) := read_int_into (last_index ht) file in
      let ht := mk (table ht) (occupied ht) (first_index ht) last'
                  (size ht) (elements_count ht) in
      if negb good then Ok (false, ht)
      else
        tbl <- vec_resize (size ht) (EmptyString, 0) (table ht) ;;
        occ <- vec_resize (size ht) false (occupied ht) ;;
        slots <- load_loop (Z.to_nat (size ht)) 0 file tbl occ ;;
        Ok (true, mk (fst slots) (snd slots) (first_index ht) (last_index ht)
                    (size ht) (elements_count ht))
  end.

End HashTable.

(** * TextProcessor.cpp *)

Module TextProcessor.

Definition in_range (lo hi : N) (c : ascii) : bool :=
  let n := N_of_ascii c in (lo <=? n)%N && (n <=? hi)%N.

(** The character class [a-zA-Z0-9] of the regular expression. *)
Definition is_alnum (c : ascii) : bool :=
  in_range 97 122 c || in_range 65 90 c || in_range 48 57 c.

(** [isspace] in the "C" locale, which [operator>>] skips and stops at. *)
Definition is_space (c : ascii) : bool :=
  in_range 9 13 c || in_range 32 32 c.

(** [::tolower] in the "C" locale. *)
Definition tolower (c : ascii) : ascii :=
  if in_range 65 90 c then ascii_of_N (N_of_ascii c + 32) else c.

Fixpoint transform (f : ascii -> ascii) (s : string) : string :=
  match s with
  | EmptyString => EmptyString
  | String c s' => String (f c) (transform f s')
  end.

(** [regex_replace(text, "[^a-zA-Z0-9]+", " ")]: [in_run] tells that the
    previous character belonged to a match already replaced. *)
Fixpoint clean_text_from (in_run : bool) (text : string) : string :=
  match text with
  | EmptyString => EmptyString
  | String c rest =>
      if is_alnum c then String c (clean_text_from false rest)
      else if in_run then clean_text_from true rest
      else String " " (clean_text_from true rest)
  end.

(** [TextProcessor::clean_text] *)
Definition clean_text (text : string) : string := clean_text_from false text.

(** The words that repeated [stream >> word] extracts; [word] is the word
    being read. *)
Fixpoint extract_from (word : string) (stream : string) : list string :=
  match stream with
  | EmptyString => if String.eqb word EmptyString then [] else [word]
  | String c rest =>
      if is_space c then
        if String.eqb word EmptyString then extract_from EmptyString rest
        else word :: extract_from EmptyString rest
      else extract_from (word ++ String c EmptyString) rest
  end.

Definition extract (stream : string) : list string :=
  extract_from EmptyString stream.

Section WithHash.

Variable hash_fn : string -> N.

(** The [try]/[catch] of [extract_words]. *)
Definition count_word (hash_table : HashTable.t) (processed_word : string)
    : outcome HashTable.t :=
  match (count <- HashTable.get hash_fn hash_table processed_word ;;
         if count =? INT_MAX then Undefined (* signed overflow *)
         else HashTable.insert hash_fn hash_table processed_word (count + 1)) with
  | Throw invalid_argument => HashTable.insert hash_fn hash_table processed_word 1
  | r => r
  end.

(** The inner [while (ss >> processed_word)] loop. *)
Definition process_word (hash_table : HashTable.t) (word : string)
    : outcome HashTable.t :=
  let cleaned_word := clean_text word in
  fold_left
    (fun acc processed_word =>
       hash_table <- acc ;;
       let processed_word := transform tolower processed_word in
       if String.eqb processed_word EmptyString then Ok hash_table
       else count_word hash_table processed_word)
    (extract cleaned_word) (Ok hash_table).

(** [TextProcessor::extract_words]; [file] is [None] when the file cannot
    be opened. The state of the outer [while (file >> word)] loop is
    [word_count] and the table; [word_count] is only printed at the end. *)
Definition extract_words (file : option string) (hash_table : HashTable.t)
    : outcome HashTable.t :=
  match file with
  | None => Ok hash_table
  | Some text =>
      state <- fold_left
        (fun acc word =>
           state <- acc ;;
           let word_count := fst state in
           if word_count =? INT_MAX then Undefined (* signed overflow *)
           else
             let word_count := word_count + 1 in
             hash_table <- process_word (snd state) word ;;
             Ok (word_count, hash_table))
        (extract text) (Ok (0, hash_table)) ;;
      Ok (snd state)
  end.

End WithHash.

Section WithMD5.

(** OpenSSL's MD5 interface. *)
Variable MD5_CTX : Type.
Variable MD5_Init : MD5_CTX.
Variable MD5_Update : MD5_CTX -> list ascii -> MD5_CTX.
Variable MD5_Final : MD5_CTX -> list ascii.

Definition MD5_DIGEST_LENGTH : nat := 16.

(** [while (file.read(buffer, sizeof(buffer))) MD5_Update(..., file.gcount())] *)
Fixpoint read_loop (fuel : nat) (file : list ascii) (md5_ctx : MD5_CTX) : MD5_CTX :=
  match fuel with
  | O => md5_ctx
  | S fuel' =>
      let '(buffer, file, good) := stream_read 4096 file in
      if good then
        let gcount := length buffer in
        read_loop fuel' file (MD5_Update md5_ctx (take gcount buffer))
      else md5_ctx
  end.

Definition hex_digit (n : N) : ascii :=
  if (n <? 10)%N then ascii_of_N (48 + n) else ascii_of_N (87 + n).

(** [stream << hex << static_cast<int>(byte)]: no width, no fill. *)
Definition hex (byte : ascii) : string :=
  let n := N_of_ascii byte in
  if (n <? 16)%N then String (hex_digit n) EmptyString
  else String (hex_digit (n / 16)) (String (hex_digit (n mod 16)) EmptyString).

(** [TextProcessor::compute_md5]; [file] is [None] when the file cannot be
    opened. *)
Definition compute_md5 (file : option (list ascii)) : outcome string :=
  match file with
  | None => Throw runtime_error
  | Some file =>
      let md5_ctx := read_loop (S (length file)) file MD5_Init in
      let result := MD5_Final md5_ctx in
      Ok (fold_left (fun md5_string i => md5_string ++ hex (nth i result Ascii.zero))
            (seq 0 MD5_DIGEST_LENGTH) EmptyString)%string
  end.

End WithMD5.

Section WithFiles.

Variable hash_fn : string -> N.
Variable MD5_CTX : Type.
Variable MD5_Init : MD5_CTX.
Variable MD5_Update : MD5_CTX -> list ascii -> MD5_CTX.
Variable MD5_Final : MD5_CTX -> list ascii.

(** [existing_checksum >> saved_checksum] on the file at [hash_file], when
    it can be opened; the string stays empty otherwise. *)
Definition read_saved_checksum (fs : files) (hash_file : string) : string :=
  match file_at fs hash_file with
  | Some existing_checksum =>
      List.hd EmptyString (extract (string_of_list_ascii existing_checksum))
  | None => EmptyString
  end.

(** [TextProcessor::process_file]: the files it leaves, and the table it
    leaves in [hash_table] or the exception that leaves the function.
    [&&] calls [load_from_file] only when the checksums are equal, and the
    members that a failed load has assigned stay assigned. *)
Definition process_file (fs : files) (hash_table : HashTable.t)
    (file_path hash_file : string) : files * outcome HashTable.t :=
  match compute_md5 MD5_CTX MD5_Init MD5_Update MD5_Final (file_at fs file_path) with
  | Ok checksum =>
      let saved_checksum := read_saved_checksum fs hash_file in
      match (if String.eqb saved_checksum checksum
             then HashTable.load_from_file hash_table (file_at fs "hash_table.dat")
             else Ok (false, hash_table)) with
      | Ok (true, hash_table) => (fs, Ok hash_table)
      | Ok (false, hash_table) =>
          match extract_words hash_fn
                  (option_map string_of_list_ascii (file_at fs file_path))
                  hash_table with
          | Ok hash_table =>
              let fs :=
                if writable fs hash_file
                then write_file fs hash_file (list_ascii_of_string checksum)
                else fs in
              match HashTable.save_to_file hash_table
                      (writable fs "hash_table.dat") with
              | Ok data => (write_file fs "hash_table.dat" data, Ok hash_table)
              | Throw e => (fs, Throw e)
              | Undefined => (fs, Undefined)
              end
          | Throw e => (fs, Throw e)
          | Undefined => (fs, Undefined)
          end
      | Throw e => (fs, Throw e)
      | Undefined => (fs, Undefined)
      end
  | Throw e => (fs, Throw e)
  | Undefined => (fs, Undefined)
  end.

End WithFiles.

End TextProcessor.

(** * MD5 (RFC 1321)

    The digest that OpenSSL's [MD5_Init], [MD5_Update] and [MD5_Final]
    compute; a context is modelled by the bytes it was given. *)

Module MD5.

Definition word (z : Z) : Z := z mod 2 ^ 32.

Definition rotate_left (x c : Z) : Z :=
  word (Z.lor (Z.shiftl x c) (Z.shiftr x (32 - c))).

Definition complement (x : Z) : Z := Z.lxor x 4294967295.

Definition K : list Z :=
  [3614090360; 3905402710; 606105819; 3250441966;
   4118548399; 1200080426; 2821735955; 4249261313;
   1770035416; 2336552879; 4294925233; 2304563134;
   1804603682; 4254626195; 2792965006; 1236535329;
   4129170786; 3225465664; 643717713; 3921069994;
   3593408605; 38016083; 3634488961; 3889429448;
   568446438; 3275163606; 4107603335; 1163531501;
   2850285829; 4243563512; 1735328473; 2368359562;
   4294588738; 2272392833; 1839030562; 4259657740;
   2763975236; 1272893353; 4139469664; 3200236656;
   681279174; 3936430074; 3572445317; 76029189;
   3654602809; 3873151461; 530742520; 3299628645;
   4096336452; 1126891415; 2878612391; 4237533241;
   1700485571; 2399980690; 4293915773; 2240044497;
   1873313359; 4264355552; 2734768916; 1309151649;
   4149444226; 3174756917; 718787259; 3951481745].

Definition shifts : list Z :=
  [7; 12; 17; 22; 7; 12; 17; 22; 7; 12; 17; 22; 7; 12; 17; 22;
   5; 9; 14; 20; 5; 9; 14; 20; 5; 9; 14; 20; 5; 9; 14; 20;
   4; 11; 16; 23; 4; 11; 16; 23; 4; 11; 16; 23; 4; 11; 16; 23;
   6; 10; 15; 21; 6; 10; 15; 21; 6; 10; 15; 21; 6; 10; 15; 21].

Definition state : Type := Z * Z * Z * Z.

Definition initial : state := (1732584193, 4023233417, 2562383102, 271733878).

Definition step (M : list Z) (st : state) (i : nat) : state :=
  let '(a, b, c, d) := st in
  let '(f, g) :=
    if (i <? 16)%nat then
      (Z.lor (Z.land b c) (Z.land (complement b) d), i)
    else if (i <? 32)%nat then
      (Z.lor (Z.land d b) (Z.land (complement d) c), ((5 * i + 1) mod 16)%nat)
    else if (i <? 48)%nat then
      (Z.lxor (Z.lxor b c) d, ((3 * i + 5) mod 16)%nat)
    else
      (Z.lxor c (Z.lor b (complement d)), ((7 * i) mod 16)%nat) in
  let f := word (f + a + nth i K 0 + nth g M 0) in
  (d, word (b + rotate_left f (nth i shifts 0)), b, c).

Definition process_block (h : state) (M : list Z) : state :=
  let '(a0, b0, c0, d0) := h in
  let '(a, b, c, d) := fold_left (step M) (seq 0 64) h in
  (word (a0 + a), word (b0 + b), word (c0 + c), word (d0 + d)).

Definition byte (c : ascii) : Z := Z.of_N (N_of_ascii c).

Fixpoint words (bytes : list ascii) : list Z :=
  match bytes with
  | b0 :: b1 :: b2 :: b3 :: rest =>
      (byte b0 + 256 * (byte b1 + 256 * (byte b2 + 256 * byte b3))) :: words rest
  | _ => []
  end.

Fixpoint process (blocks : nat) (h : state) (ws : list Z) : state :=
  match blocks with
  | O => h
  | S blocks' => process blocks' (process_block h (take 16 ws)) (drop 16 ws)
  end.

Definition bytes_of (width : nat) (z : Z) : list ascii :=
  map (fun k => ascii_of_N (Z.to_N ((z / 256 ^ Z.of_nat k) mod 256))) (seq 0 width).

Definition pad (message : list ascii) : list ascii :=
  let len := Z.of_nat (length message) in
  message ++ [ascii_of_N 128]
    ++ repeat Ascii.zero (Z.to_nat ((55 - len) mod 64))
    ++ bytes_of 8 ((8 * len) mod 2 ^ 64).

Definition digest (message : list ascii) : list ascii :=
  let padded := pad message in
  let '(a, b, c, d) := process (length padded / 64) initial (words padded) in
  bytes_of 4 a ++ bytes_of 4 b ++ bytes_of 4 c ++ bytes_of 4 d.

End MD5.

(** [compute_md5] linked against this MD5: a context is the bytes given so
    far. *)
Definition checksum (file : option (list ascii)) : outcome string :=
  TextProcessor.compute_md5 (list ascii) [] (fun ctx data => ctx ++ data)
    MD5.digest file.

(** The checksum as specified: the digest of the whole file, every byte as
    two hexadecimal digits. *)
Definition hex2 (byte : ascii) : string :=
  let n := N_of_ascii byte in
  String (TextProcessor.hex_digit (n / 16))
    (String (TextProcessor.hex_digit (n mod 16)) EmptyString).

Definition digest_in_hex (file : list ascii) : string :=
  fold_right (fun byte s => (hex2 byte ++ s)%string) EmptyString (MD5.digest file).

(** * Specification vocabulary *)

(** ** Slots *)

(** Whether slot [i] is occupied; the key and the value stored there. *)
Definition occ_in (occ : list bool) (i : Z) : bool :=
  match occ !! Z.to_nat i with Some b => b | None => false end.

Definition entry_in (tbl : list (string * Z)) (i : Z) : string * Z :=
  match tbl !! Z.to_nat i with Some e => e | None => (EmptyString, 0) end.

Definition occ_at (ht : HashTable.t) (i : Z) : bool :=
  occ_in (HashTable.occupied ht) i.

Definition entry_at (ht : HashTable.t) (i : Z) : string * Z :=
  entry_in (HashTable.table ht) i.

(** Slot [i] is occupied and holds [key]. *)
Definition holds_key (ht : HashTable.t) (key : string) (i : Z) : bool :=
  occ_at ht i && String.eqb (fst (entry_at ht i)) key.

(** Slot [i] is free, or holds [key]: where the loop of [insert] stops. *)
Definition free_or_key (ht : HashTable.t) (key : string) (i : Z) : bool :=
  negb (occ_at ht i) || String.eqb (fst (entry_at ht i)) key.

(** Slot [i] of [n] is occupied and holds [key] with [value]. *)
Definition holds_in (tbl : list (string * Z)) (occ : list bool) (n i : Z)
    (key : string) (value : Z) : Prop :=
  0 <= i < n /\ occ_in occ i = true /\ entry_in tbl i = (key, value).

Definition holds (ht : HashTable.t) (i : Z) (key : string) (value : Z) : Prop :=
  holds_in (HashTable.table ht) (HashTable.occupied ht) (HashTable.size ht)
    i key value.

(** ** Probe paths *)

(** The home index of [key] in a table of [n] slots. *)
Definition home (hash_fn : string -> N) (key : string) (n : Z) : Z :=
  (Z.of_N (hash_fn key) mod 2 ^ 64) mod n.

(** The [d]-th slot on the probe path of [key]. *)
Definition probe (hash_fn : string -> N) (key : string) (n d : Z) : Z :=
  (home hash_fn key n + d) mod n.

(** The first index among [index], [index+1], ... (modulo [n], at most
    [fuel] of them) that passes [test]. *)
Fixpoint first_probe (test : Z -> bool) (fuel : nat) (index n : Z) : option Z :=
  match fuel with
  | O => None
  | S fuel' =>
      if test index then Some index
      else first_probe test fuel' ((index + 1) mod n) n
  end.

(** The probe from the home index of [key] comes to slot [j] before it
    comes to a free slot. *)
Definition reaches (hash_fn : string -> N) (occ : list bool) (n : Z)
    (key : string) (j : Z) : Prop :=
  first_probe (fun i => negb (occ_in occ i) || (i =? j)) (Z.to_nat n)
    (home hash_fn key n) n = Some j.

(** The lookup with the stopping rule "an empty slot ends the search with
    KeyNotFound", to compare [HashTable.get] with. *)
Fixpoint get_stopping_at_empty (fuel : nat) (ht : HashTable.t) (index : Z)
    (key : string) : outcome Z :=
  match fuel with
  | O => Throw invalid_argument
  | S fuel' =>
      if occ_at ht index then
        if String.eqb (fst (entry_at ht index)) key then Ok (snd (entry_at ht index))
        else get_stopping_at_empty fuel' ht ((index + 1) mod HashTable.size ht) key
      else Throw invalid_argument
  end.

(** ** The tables that the operations return *)

(** The table after [remove] found its key in slot [r]. *)
Definition clear_slot (ht : HashTable.t) (r : Z) : HashTable.t :=
  HashTable.mk
    (<[Z.to_nat r := (EmptyString, 0)]> (HashTable.table ht))
    (<[Z.to_nat r := false]> (HashTable.occupied ht))
    (if r =? HashTable.first_index ht then -1 else HashTable.first_index ht)
    (if r =? HashTable.last_index ht then -1 else HashTable.last_index ht)
    (HashTable.size ht) (HashTable.elements_count ht - 1).

(** The table after [insert] found its key in slot [r]. *)
Definition update_slot (ht : HashTable.t) (r : Z) (value : Z) : HashTable.t :=
  HashTable.mk
    (<[Z.to_nat r := (fst (entry_at ht r), value)]> (HashTable.table ht))
    (HashTable.occupied ht) (HashTable.first_index ht) (HashTable.last_index ht)
    (HashTable.size ht) (HashTable.elements_count ht).

(** The table after [insert] put a new entry in the free slot [r]. *)
Definition place_slot (ht : HashTable.t) (r : Z) (key : string) (value : Z)
    : HashTable.t :=
  HashTable.mk
    (<[Z.to_nat r := (key, value)]> (HashTable.table ht))
    (<[Z.to_nat r := true]> (HashTable.occupied ht))
    (if HashTable.first_index ht =? -1 then r else HashTable.first_index ht)
    r (HashTable.size ht) (HashTable.elements_count ht + 1).

(** ** The data model *)

(** The values of an [int]. *)
Definition int_range (z : Z) : Prop := - 2 ^ 31 <= z <= INT_MAX.

(** The vectors have the length that [size] says, which is a positive [int]. *)
Record wf (ht : HashTable.t) : Prop := {
  wf_size : 0 < HashTable.size ht <= INT_MAX;
  wf_table : Z.of_nat (length (HashTable.table ht)) = HashTable.size ht;
  wf_occupied : Z.of_nat (length (HashTable.occupied ht)) = HashTable.size ht
}.

(** The number of occupied slots. *)
Definition occupied_count (occ : list bool) : Z :=
  Z.of_nat (length (filter (fun b => b = true) occ)).

(** No two occupied slots hold the same key. *)
Definition no_duplicates_in (tbl : list (string * Z)) (occ : list bool) (n : Z)
    : Prop :=
  forall i j k v w, holds_in tbl occ n i k v -> holds_in tbl occ n j k w -> i = j.

Definition no_duplicate_keys (ht : HashTable.t) : Prop :=
  no_duplicates_in (HashTable.table ht) (HashTable.occupied ht) (HashTable.size ht).

(** Every key is reached by its probe. *)
Definition chained_in (hash_fn : string -> N) (tbl : list (string * Z))
    (occ : list bool) (n : Z) : Prop :=
  forall j k v, holds_in tbl occ n j k v -> reaches hash_fn occ n k j.

Definition chained (hash_fn : string -> N) (ht : HashTable.t) : Prop :=
  chained_in hash_fn (HashTable.table ht) (HashTable.occupied ht) (HashTable.size ht).

(** The part of the data model that every operation keeps: the vectors
    have [size] elements, [elements_count] counts the occupied slots, the
    two tracked indices are slots or -1, and the values are [int]s. *)
Record counted (ht : HashTable.t) : Prop := {
  ct_wf : wf ht;
  ct_count : HashTable.elements_count ht = occupied_count (HashTable.occupied ht);
  ct_first : -1 <= HashTable.first_index ht < HashTable.size ht;
  ct_last : -1 <= HashTable.last_index ht < HashTable.size ht;
  ct_values : Forall (fun e : string * Z => int_range (snd e)) (HashTable.table ht)
}.

(** The data model of a table that is searched by probing: moreover no key
    is stored twice and every key is reached by its probe. *)
Record probed (hash_fn : string -> N) (ht : HashTable.t) : Prop := {
  pr_counted : counted ht;
  pr_no_duplicates : no_duplicate_keys ht;
  pr_chained : chained hash_fn ht
}.

(** The table of capacity 0. *)
Definition zero_table : HashTable.t := HashTable.mk [] [] (-1) (-1) 0 0.

(** The tables that the operations build: those of the data model, and the
    table of capacity 0. *)
Definition sound (ht : HashTable.t) : Prop := counted ht \/ ht = zero_table.

(** The state of the rehash loop when the old slots below [i] are done. *)
Record rehash_state (hash_fn : string -> N) (ht : HashTable.t) (i : Z)
    (nt : list (string * Z)) (no : list bool) (nf nl : Z) : Prop := {
  rh_table : Z.of_nat (length nt) = HashTable.size ht + 2000;
  rh_occupied : Z.of_nat (length no) = HashTable.size ht + 2000;
  rh_count :
    occupied_count no = occupied_count (take (Z.to_nat i) (HashTable.occupied ht));
  rh_first : -1 <= nf < HashTable.size ht + 2000;
  rh_last : -1 <= nl < HashTable.size ht + 2000;
  rh_entries : forall k v,
    (exists j, holds_in nt no (HashTable.size ht + 2000) j k v) <->
    (exists i', 0 <= i' < i /\ holds ht i' k v);
  rh_forall : forall P : string * Z -> Prop,
    P (EmptyString, 0) -> Forall P (HashTable.table ht) -> Forall P nt;
  rh_chained :
    no_duplicate_keys ht ->
    no_duplicates_in nt no (HashTable.size ht + 2000) /\
    chained_in hash_fn nt no (HashTable.size ht + 2000)
}.

(** ** The file format *)

(** One slot of the file: key length, key, value, occupancy byte. *)
Definition encode_slot (e : string * Z) (o : bool) : list ascii :=
  encode_int (Z.of_nat (String.length (fst e)))
    ++ list_ascii_of_string (fst e)
    ++ encode_int (snd e)
    ++ [if o then byte_of 1 else byte_of 0].

(** The slots of a file, one after the other. *)
Fixpoint encode_slots (tbl : list (string * Z)) (occ : list bool) : list ascii :=
  match tbl, occ with
  | e :: tbl', o :: occ' => encode_slot e o ++ encode_slots tbl' occ'
  | _, _ => []
  end.

(** Reading one slot from the front of [file]: nothing when the key length
    is outside 0..1000 or the file ends before the end of the slot. *)
Definition parse_slot (file : list ascii)
    : option ((string * Z) * bool * list ascii) :=
  if (length file <? 4)%nat then None
  else
    let key_length := decode_int (take 4 file) in
    let body := drop 4 file in
    if (key_length <? 0) || (1000 <? key_length) then None
    else if (length body <? Z.to_nat key_length + 5)%nat then None
    else
      let key := take (Z.to_nat key_length) body in
      let value := decode_int (take 4 (drop (Z.to_nat key_length) body)) in
      let flag := List.hd Ascii.zero (drop (Z.to_nat key_length + 4) body) in
      Some ((string_of_list_ascii key, value), Ascii.eqb flag (byte_of 1),
            drop (Z.to_nat key_length + 5) body).

(** The slots that can be read from the front of [file], [n] at most. *)
Fixpoint parse_slots (n : nat) (file : list ascii) : list ((string * Z) * bool) :=
  match n with
  | O => []
  | S n' =>
      match parse_slot file with
      | None => []
      | Some (e, o, rest) => (e, o) :: parse_slots n' rest
      end
  end.

(** [old] with the elements from index [k] on replaced by [new], as far as
    [new] goes. *)
Definition overwrite {A : Type} (k : nat) (new old : list A) : list A :=
  take k old ++ new ++ drop (k + length new) old.

(** The [int] at byte offset [k] of a file. *)
Definition header_field (k : nat) (file : list ascii) : Z :=
  decode_int (take 4 (drop k file)).

(** The table that [load_from_file] leaves when the header of [file] could
    be read: the members of the header, and the vectors of [ht], resized,
    with the slots that could be read from the file written over their
    first elements. *)
Definition loaded (ht : HashTable.t) (file : list ascii) : HashTable.t :=
  let capacity := header_field 0 file in
  let slots := parse_slots (Z.to_nat capacity) (drop 16 file) in
  HashTable.mk
    (overwrite 0 (map fst slots)
       (resize (Z.to_nat capacity) (EmptyString, 0) (HashTable.table ht)))
    (overwrite 0 (map snd slots)
       (resize (Z.to_nat capacity) false (HashTable.occupied ht)))
    (header_field 8 file) (header_field 12 file) capacity (header_field 4 file).

(** Every key has at most 1000 characters. *)
Definition short_keys (ht : HashTable.t) : Prop :=
  Forall (fun e : string * Z => (String.length (fst e) <= 1000)%nat)
    (HashTable.table ht).

(** What [save_to_file] and [load_from_file] need to give the table back:
    [int] members, [int] values and keys that pass the length test. *)
Record storable (ht : HashTable.t) : Prop := {
  st_wf : wf ht;
  st_count : int_range (HashTable.elements_count ht);
  st_first : int_range (HashTable.first_index ht);
  st_last : int_range (HashTable.last_index ht);
  st_keys : short_keys ht;
  st_values : Forall (fun e : string * Z => int_range (snd e)) (HashTable.table ht)
}.

(** ** Sequences of operations *)

(** [insert] for each entry in turn. *)
Fixpoint insert_all (hash_fn : string -> N) (ht : HashTable.t)
    (entries : list (string * Z)) : outcome HashTable.t :=
  match entries with
  | [] => Ok ht
  | e :: rest =>
      ht' <- HashTable.insert hash_fn ht (fst e) (snd e) ;;
      insert_all hash_fn ht' rest
  end.

(** The value that the last entry for [key] in [entries] gives it, [found]
    when there is none. *)
Fixpoint last_value (entries : list (string * Z)) (key : string)
    (found : option Z) : option Z :=
  match entries with
  | [] => found
  | e :: rest =>
      last_value rest key (if String.eqb key (fst e) then Some (snd e) else found)
  end.

(** The tables that the public operations build from an empty table. A
    table is loaded from a file that [save_to_file] wrote for a table that
    was built before; [loadable] tells which tables may be saved for
    loading. *)
Inductive reachable (hash_fn : string -> N) (loadable : HashTable.t -> Prop)
    : HashTable.t -> Prop :=
| reach_new n ht :
    0 <= n <= INT_MAX -> HashTable.new n = Ok ht ->
    reachable hash_fn loadable ht
| reach_insert ht key value ht' :
    reachable hash_fn loadable ht -> int_range value ->
    HashTable.insert hash_fn ht key value = Ok ht' ->
    reachable hash_fn loadable ht'
| reach_remove ht key ht' :
    reachable hash_fn loadable ht ->
    HashTable.remove hash_fn ht key = Ok ht' ->
    reachable hash_fn loadable ht'
| reach_growth ht ht' :
    reachable hash_fn loadable ht ->
    HashTable.resize hash_fn ht = Ok ht' ->
    reachable hash_fn loadable ht'
| reach_load ht saved file result ht' :
    reachable hash_fn loadable ht ->
    reachable hash_fn loadable saved -> loadable saved ->
    HashTable.save_to_file saved true = Ok file ->
    HashTable.load_from_file ht (Some file) = Ok (result, ht') ->
    reachable hash_fn loadable ht'.

(** ** Tracked entries *)

(** Where the rehash loop has put the entry of [first_index] and the entry
    of the highest occupied slot, when the old slots below [i] are done. *)
Record rehash_tracking (ht : HashTable.t) (i : Z) (nt : list (string * Z))
    (no : list bool) (nf nl : Z) : Prop := {
  tr_first : 0 <= HashTable.first_index ht < i ->
    occ_at ht (HashTable.first_index ht) = true ->
    0 <= nf < HashTable.size ht + 2000 /\ occ_in no nf = true /\
    entry_in nt nf = entry_at ht (HashTable.first_index ht);
  tr_no_first :
    ~ (0 <= HashTable.first_index ht < i /\
       occ_at ht (HashTable.first_index ht) = true) -> nf = -1;
  tr_last : forall j, 0 <= j < i -> occ_at ht j = true ->
    (forall j', j < j' < i -> occ_at ht j' = false) ->
    0 <= nl < HashTable.size ht + 2000 /\ occ_in no nl = true /\
    entry_in nt nl = entry_at ht j;
  tr_no_last : (forall j, 0 <= j < i -> occ_at ht j = false) -> nl = -1
}.

(** The tracked indices are -1 or the indices of occupied slots. *)
Definition tracked (ht : HashTable.t) : Prop :=
  (HashTable.first_index ht = -1 \/
   0 <= HashTable.first_index ht < HashTable.size ht /\
   occ_at ht (HashTable.first_index ht) = true) /\
  (HashTable.last_index ht = -1 \/
   0 <= HashTable.last_index ht < HashTable.size ht /\
   occ_at ht (HashTable.last_index ht) = true).

(** The key of the entry that [first_index] points at. *)
Definition first_key (ht : HashTable.t) (key : string) : Prop :=
  0 <= HashTable.first_index ht < HashTable.size ht /\
  occ_at ht (HashTable.first_index ht) = true /\
  fst (entry_at ht (HashTable.first_index ht)) = key.

(** ** Words *)

(** The maximal runs of letters and digits of [text], in order; [word] is
    the run being read. *)
Fixpoint runs_from (word text : string) : list string :=
  match text with
  | EmptyString => if String.eqb word EmptyString then [] else [word]
  | String c rest =>
      if TextProcessor.is_alnum c then runs_from (word ++ String c EmptyString) rest
      else if String.eqb word EmptyString then runs_from EmptyString rest
      else word :: runs_from EmptyString rest
  end.

Definition alnum_runs (text : string) : list string := runs_from EmptyString text.

(** The words of [text] as [extract_words] counts them. *)
Definition counted_words (text : string) : list string :=
  map (TextProcessor.transform TextProcessor.tolower) (alnum_runs text).

(** How often [word] is among [words]. *)
Definition occurrences (word : string) (words : list string) : Z :=
  Z.of_nat (length (List.filter (String.eqb word) words)).

(** What [get] answers for a word that was counted [c] times. *)
Definition counted_answer (c : Z) : outcome Z :=
  if c =? 0 then Throw invalid_argument else Ok c.

(** Whether [c] is a lower-case letter or a digit. *)
Definition is_lower_alnum (c : ascii) : bool :=
  TextProcessor.in_range 97 122 c || TextProcessor.in_range 48 57 c.

(** Whether [c] is one of 0..9, a..f. *)
Definition is_hex_digit (c : ascii) : bool :=
  TextProcessor.in_range 48 57 c || TextProcessor.in_range 97 102 c.

(** ** Sample data *)

(** A hash function that is easy to follow by hand: the length of the key. *)
Definition length_hash (key : string) : N := N.of_nat (String.length key).

(** A key of 1001 characters. *)
Definition long_key : string := string_of_list_ascii (repeat "x"%char 1001).

(** An empty table of two slots. *)
Definition empty2 : HashTable.t :=
  HashTable.mk (replicate 2 (EmptyString, 0)) (replicate 2 false) (-1) (-1) 2 0.

(** An empty table of four slots. *)
Definition empty4 : HashTable.t :=
  HashTable.mk (replicate 4 (EmptyString, 0)) (replicate 4 false) (-1) (-1) 4 0.

(** The empty table of [main]. *)
Definition empty5000 : HashTable.t :=
  HashTable.mk (replicate (Z.to_nat 5000) (EmptyString, 0))
    (replicate (Z.to_nat 5000) false) (-1) (-1) 5000 0.

(** Four slots, "a" in slot 1. *)
Definition a_table : HashTable.t :=
  HashTable.mk
    [(EmptyString, 0); ("a"%string, 1); (EmptyString, 0); (EmptyString, 0)]
    [false; true; false; false] 1 1 4 1.

(** Four slots, "a" and "b" in slots 1 and 2. *)
Definition ab_table : HashTable.t :=
  HashTable.mk
    [(EmptyString, 0); ("a"%string, 1); ("b"%string, 2); (EmptyString, 0)]
    [false; true; true; false] 1 2 4 2.

(** Four slots, "a" and "b" in slots 1 and 2, after ("a",1), ("b",2), ("a",5). *)
Definition ab5_table : HashTable.t :=
  HashTable.mk
    [(EmptyString, 0); ("a"%string, 5); ("b"%string, 2); (EmptyString, 0)]
    [false; true; true; false] 1 2 4 2.

(** Four slots; "a" and "b" both have home index 1, "a" was removed again. *)
Definition gap_script : outcome HashTable.t :=
  ht <- HashTable.new 4 ;;
  ht <- HashTable.insert length_hash ht "a" 1 ;;
  ht <- HashTable.insert length_hash ht "b" 2 ;;
  HashTable.remove length_hash ht "a".

Definition gap_table : HashTable.t :=
  HashTable.mk
    [(EmptyString, 0); (EmptyString, 0); ("b"%string, 2); (EmptyString, 0)]
    [false; false; true; false] (-1) 2 4 1.





(** Two slots, both taken. *)
Definition full_script : outcome HashTable.t :=
  ht <- HashTable.new 2 ;;
  ht <- HashTable.insert length_hash ht "a" 1 ;;
  HashTable.insert length_hash ht "b" 2.

Definition full_table : HashTable.t :=
  HashTable.mk [("b"%string, 2); ("a"%string, 1)] [true; true] 1 0 2 2.

(** Four slots, the long key in slot 1, its home. *)
Definition long_key_table : HashTable.t :=
  HashTable.mk
    [(EmptyString, 0); (long_key, 1); (EmptyString, 0); (EmptyString, 0)]
    [false; true; false; false] 1 1 4 1.

(** What loading the file of [long_key_table] into [empty4] leaves. *)
Definition truncated_table : HashTable.t :=
  HashTable.mk (replicate 4 (EmptyString, 0)) (replicate 4 false) 1 1 4 1.

(** A header that announces -1 slots. *)
Definition negative_capacity_file : list ascii :=
  encode_int (-1) ++ encode_int 0 ++ encode_int (-1) ++ encode_int (-1).

(** The text of the scenario, as the bytes of a file. *)
Definition hello_text : list ascii := list_ascii_of_string "Hello, World! hello".

(** The text at "book.txt" and no other file; every path can be written. *)
Definition hello_files : files :=
  mk_files (fun p => if String.eqb p "book.txt" then Some hello_text else None)
    (fun _ => true).

(** The text, the checksum that [compute_md5] gives it, and a table file
    of four bytes that announce 5000 slots. *)
Definition cut_files : files :=
  mk_files
    (fun p =>
       if String.eqb p "book.txt" then Some hello_text
       else if String.eqb p "book.md5"
       then Some (list_ascii_of_string "d41d8cd98f0b24e980998ecf8427e")
       else if String.eqb p "hash_table.dat" then Some (encode_int 5000)
       else None)
    (fun _ => true).

(** A file with a whole header for two slots and the first slot only. *)
Definition one_slot_file : list ascii :=
  encode_int 2 ++ encode_int 1 ++ encode_int 0 ++ encode_int 0
    ++ encode_slot ("a"%string, 1) true.

(** * Basic facts *)

Ltac concrete_wf := split; [unfold INT_MAX; simpl; lia|reflexivity|reflexivity].

Ltac slot_cases i H :=
  assert (i = 0 \/ i = 1 \/ i = 2 \/ i = 3) as H by (simpl in *; lia);
  destruct H as [->|[->|[->| ->]]].

Ltac concrete := vm_compute; intuition (discriminate || congruence).

Lemma to_int_small z : - 2 ^ 31 <= z < 2 ^ 31 -> to_int z = z.
Proof.
  intros H. unfold to_int. rewrite Z.mod_small; lia.
Qed.

Lemma rem_succ i n : 0 <= i -> 0 < n -> Z.rem (i + 1) n = (i + 1) mod n.
Proof. intros. apply Z.rem_mod_nonneg; lia. Qed.

Lemma vec_get_in_range {A} (v : list A) i :
  0 <= i < Z.of_nat (length v) ->
  exists x, v !! Z.to_nat i = Some x /\ vec_get v i = Ok x.
Proof.
  intros H. unfold vec_get.
  destruct (Z.ltb_spec i 0); [lia|].
  destruct (lookup_lt_is_Some_2 v (Z.to_nat i)) as [x Hx]; [lia|].
  exists x. by rewrite Hx.
Qed.

Lemma vec_set_in_range {A} (v : list A) i x :
  0 <= i < Z.of_nat (length v) ->
  vec_set v i x = Ok (<[Z.to_nat i := x]> v).
Proof.
  intros H. unfold vec_set.
  destruct (Z.ltb_spec i 0); [lia|].
  destruct (Nat.ltb_spec (Z.to_nat i) (length v)); [done|lia].
Qed.

(** * Probe sequences *)

Lemma first_probe_test test fuel index n r :
  first_probe test fuel index n = Some r -> test r = true.
Proof.
  revert index. induction fuel as [|fuel IH]; intros index; simpl; [done|].
  destruct (test index) eqn:E; [congruence|eauto].
Qed.

Lemma first_probe_range test fuel index n r :
  0 < n -> 0 <= index < n ->
  first_probe test fuel index n = Some r -> 0 <= r < n.
Proof.
  intros Hn. revert index. induction fuel as [|fuel IH]; intros index Hi; simpl; [done|].
  destruct (test index); [intros [= <-]; done|].
  apply IH. apply Z.mod_pos_bound; lia.
Qed.

Lemma probe_step index d n :
  0 < n -> ((index + 1) mod n + d) mod n = (index + (d + 1)) mod n.
Proof.
  intros. rewrite Z.add_mod_idemp_l by lia. f_equal. lia.
Qed.

Lemma first_probe_None test fuel index n :
  0 < n -> 0 <= index < n ->
  first_probe test fuel index n = None ->
  forall d, 0 <= d < Z.of_nat fuel -> test ((index + d) mod n) = false.
Proof.
  intros Hn. revert index. induction fuel as [|fuel IH]; intros index Hi; simpl.
  - intros _ d Hd. lia.
  - destruct (test index) eqn:E; [done|]. intros H d Hd.
    destruct (Z.eq_dec d 0) as [->|Hd0].
    + rewrite Z.add_0_r, Z.mod_small by lia. done.
    + replace d with ((d - 1) + 1) by lia. rewrite <- probe_step by lia.
      apply IH; [apply Z.mod_pos_bound; lia|done|lia].
Qed.

Lemma first_probe_Some test fuel index n r :
  0 < n -> 0 <= index < n ->
  first_probe test fuel index n = Some r ->
  exists d, 0 <= d < Z.of_nat fuel /\ r = (index + d) mod n /\
    forall d', 0 <= d' < d -> test ((index + d') mod n) = false.
Proof.
  intros Hn. revert index. induction fuel as [|fuel IH]; intros index Hi; simpl; [done|].
  destruct (test index) eqn:E.
  - intros [= <-]. exists 0. split; [lia|]. split.
    + rewrite Z.add_0_r, Z.mod_small; lia.
    + intros; lia.
  - intros H. apply IH in H as (d & Hd & -> & Hbefore); [|apply Z.mod_pos_bound; lia].
    exists (d + 1). split; [lia|]. split; [apply probe_step; lia|].
    intros d' Hd'. destruct (Z.eq_dec d' 0) as [->|Hd0].
    + rewrite Z.add_0_r, Z.mod_small by lia. done.
    + replace d' with ((d' - 1) + 1) by lia. rewrite <- probe_step by lia.
      apply Hbefore. lia.
Qed.

Lemma first_probe_intro test fuel index n d :
  0 < n -> 0 <= index < n -> 0 <= d < Z.of_nat fuel ->
  test ((index + d) mod n) = true ->
  (forall d', 0 <= d' < d -> test ((index + d') mod n) = false) ->
  first_probe test fuel index n = Some ((index + d) mod n).
Proof.
  intros Hn Hi Hd Ht Hbefore.
  destruct (first_probe test fuel index n) as [r|] eqn:E.
  - pose proof (first_probe_test _ _ _ _ _ E) as Hr.
    apply first_probe_Some in E as (e & He & -> & Hbefore'); [|done..].
    destruct (Z.lt_trichotomy d e) as [Hlt|[->|Hgt]]; [|done|].
    + rewrite Hbefore' in Ht by lia. done.
    + rewrite Hbefore in Hr by lia. done.
  - pose proof (first_probe_None test fuel index n Hn Hi E d Hd). congruence.
Qed.

(** [n] probes visit every slot. *)
Lemma probe_covers index i n :
  0 <= index < n -> 0 <= i < n ->
  exists d, 0 <= d < n /\ (index + d) mod n = i.
Proof.
  intros Hi Hj. exists ((i - index) mod n). split.
  - apply Z.mod_pos_bound. lia.
  - rewrite Z.add_mod_idemp_r by lia.
    replace (index + (i - index)) with i by lia. apply Z.mod_small. lia.
Qed.

Lemma first_probe_complete test index i n :
  0 <= index < n -> 0 <= i < n -> test i = true ->
  exists r, first_probe test (Z.to_nat n) index n = Some r.
Proof.
  intros Hi Hj Ht.
  destruct (first_probe test (Z.to_nat n) index n) as [r|] eqn:E; [eauto|].
  destruct (probe_covers index i n) as (d & Hd & Heq); [done..|].
  pose proof (first_probe_None test _ index n ltac:(lia) Hi E d ltac:(lia)) as H.
  rewrite Heq in H. congruence.
Qed.

(** The result of a probe does not change when the test changes only at
    slots that pass it and are not the result. *)
Lemma first_probe_stable test test' fuel index n r :
  first_probe test fuel index n = Some r ->
  (forall i, test i = false \/ i = r -> test' i = test i) ->
  first_probe test' fuel index n = Some r.
Proof.
  intros H Hagree. revert index H.
  induction fuel as [|fuel IH]; intros index; simpl; [done|].
  destruct (test index) eqn:E.
  - intros [= <-]. rewrite Hagree, E by auto. done.
  - intros H. rewrite Hagree, E by auto. eauto.
Qed.

Lemma first_probe_stable_in_range test test' fuel index n r :
  0 < n -> 0 <= index < n ->
  first_probe test fuel index n = Some r ->
  (forall i, 0 <= i < n -> test i = false \/ i = r -> test' i = test i) ->
  first_probe test' fuel index n = Some r.
Proof.
  intros Hn Hi H Hagree. revert index Hi H.
  induction fuel as [|fuel IH]; intros index Hi; simpl; [done|].
  destruct (test index) eqn:E.
  - intros [= <-]. rewrite Hagree, E by auto. done.
  - intros H. rewrite Hagree, E by auto. apply IH; [|done].
    apply Z.mod_pos_bound. lia.
Qed.

Lemma first_probe_ext test test' fuel index n :
  0 < n -> 0 <= index < n ->
  (forall i, 0 <= i < n -> test' i = test i) ->
  first_probe test' fuel index n = first_probe test fuel index n.
Proof.
  intros Hn Hi Hagree. revert index Hi.
  induction fuel as [|fuel IH]; intros index Hi; simpl; [done|].
  rewrite Hagree by done. destruct (test index); [done|].
  apply IH. apply Z.mod_pos_bound; lia.
Qed.

(** A test passed by exactly one slot finds that slot. *)
Lemma first_probe_unique test index i n :
  0 <= index < n -> 0 <= i < n -> test i = true ->
  (forall j, 0 <= j < n -> test j = true -> j = i) ->
  first_probe test (Z.to_nat n) index n = Some i.
Proof.
  intros Hi Hj Ht Huniq.
  destruct (first_probe_complete test index i n) as [r Hr]; [done..|].
  rewrite Hr. f_equal. apply Huniq.
  - eapply first_probe_range; [| |exact Hr]; lia.
  - eapply first_probe_test; eauto.
Qed.

(** * Slots *)

Section Slots.

Variable ht : HashTable.t.
Hypothesis Hwf : wf ht.

Lemma vec_get_occupied i :
  0 <= i < HashTable.size ht ->
  vec_get (HashTable.occupied ht) i = Ok (occ_at ht i).
Proof.
  intros Hi. destruct (vec_get_in_range (HashTable.occupied ht) i) as (x & Hx & ->).
  - rewrite (wf_occupied ht Hwf). done.
  - unfold occ_at, occ_in. by rewrite Hx.
Qed.

Lemma vec_get_table i :
  0 <= i < HashTable.size ht ->
  vec_get (HashTable.table ht) i = Ok (entry_at ht i).
Proof.
  intros Hi. destruct (vec_get_in_range (HashTable.table ht) i) as (x & Hx & ->).
  - rewrite (wf_table ht Hwf). done.
  - unfold entry_at, entry_in. by rewrite Hx.
Qed.

Lemma vec_set_table i x :
  0 <= i < HashTable.size ht ->
  vec_set (HashTable.table ht) i x = Ok (<[Z.to_nat i := x]> (HashTable.table ht)).
Proof. intros. apply vec_set_in_range. rewrite (wf_table ht Hwf). done. Qed.

Lemma vec_set_occupied i x :
  0 <= i < HashTable.size ht ->
  vec_set (HashTable.occupied ht) i x = Ok (<[Z.to_nat i := x]> (HashTable.occupied ht)).
Proof. intros. apply vec_set_in_range. rewrite (wf_occupied ht Hwf). done. Qed.

Lemma holds_key_true key i :
  0 <= i < HashTable.size ht ->
  holds_key ht key i = true <-> exists v, holds ht i key v.
Proof.
  intros Hi. unfold holds_key, holds, holds_in. rewrite andb_true_iff, String.eqb_eq. split.
  - intros [Ho Hk]. exists (snd (entry_at ht i)). repeat split; try lia; [done|].
    rewrite <- Hk. fold (entry_at ht i). by destruct (entry_at ht i).
  - intros (v & _ & Ho & He). fold (occ_at ht i) in Ho. fold (entry_at ht i) in He.
    rewrite He. done.
Qed.

(** [get] returns the value of the first slot on the probe path that holds
    the key, and throws when the probes are used up. *)
Lemma get_loop_first fuel index key :
  0 <= index < HashTable.size ht ->
  HashTable.get_loop fuel ht index key =
    match first_probe (holds_key ht key) fuel index (HashTable.size ht) with
    | Some r => Ok (snd (entry_at ht r))
    | None => Throw invalid_argument
    end.
Proof.
  pose proof (wf_size ht Hwf) as Hn.
  revert index. induction fuel as [|fuel IH]; intros index Hi; simpl; [done|].
  rewrite vec_get_occupied by done. simpl.
  unfold holds_key at 1. destruct (occ_at ht index) eqn:Ho; simpl.
  - rewrite vec_get_table by done. simpl.
    destruct (String.eqb _ key); [done|].
    rewrite rem_succ by lia. apply IH. apply Z.mod_pos_bound; lia.
  - rewrite rem_succ by lia. apply IH. apply Z.mod_pos_bound; lia.
Qed.

Lemma remove_loop_first fuel index key :
  0 <= index < HashTable.size ht ->
  HashTable.remove_loop fuel ht index key =
    match first_probe (holds_key ht key) fuel index (HashTable.size ht) with
    | Some r =>
        if HashTable.elements_count ht =? INT_MIN then Undefined
        else Ok (clear_slot ht r)
    | None => Throw invalid_argument
    end.
Proof.
  pose proof (wf_size ht Hwf) as Hn.
  revert index. induction fuel as [|fuel IH]; intros index Hi; simpl; [done|].
  rewrite vec_get_occupied by done. simpl.
  unfold holds_key at 1. destruct (occ_at ht index) eqn:Ho; simpl.
  - rewrite vec_get_table by done. simpl.
    destruct (String.eqb _ key).
    + rewrite vec_set_occupied, vec_set_table by done. done.
    + rewrite rem_succ by lia. apply IH. apply Z.mod_pos_bound; lia.
  - rewrite rem_succ by lia. apply IH. apply Z.mod_pos_bound; lia.
Qed.

Lemma insert_loop_first fuel index key value :
  0 <= index < HashTable.size ht ->
  HashTable.insert_loop fuel ht index key value =
    match first_probe (free_or_key ht key) fuel index (HashTable.size ht) with
    | Some r =>
        if occ_at ht r then Ok (update_slot ht r value)
        else if HashTable.elements_count ht =? INT_MAX then Undefined
        else Ok (place_slot ht r key value)
    | None => Throw overflow_error
    end.
Proof.
  pose proof (wf_size ht Hwf) as Hn.
  revert index. induction fuel as [|fuel IH]; intros index Hi; simpl; [done|].
  rewrite vec_get_occupied by done. simpl.
  unfold free_or_key at 1. destruct (occ_at ht index) eqn:Ho; simpl.
  - rewrite vec_get_table by done. simpl.
    destruct (String.eqb _ key).
    + rewrite vec_set_table by done. simpl. rewrite Ho. done.
    + rewrite rem_succ by lia. apply IH. apply Z.mod_pos_bound; lia.
  - rewrite vec_set_table, vec_set_occupied by done. simpl. rewrite Ho. done.
Qed.

End Slots.

(** * [linear_probe] *)

Lemma probe_not_back index d n :
  0 <= index < n -> 0 < d < n -> (index + d) mod n <> index.
Proof.
  intros Hi Hd. destruct (Z_lt_dec (index + d) n).
  - rewrite Z.mod_small; lia.
  - replace (index + d) with (index + d - n + 1 * n) by lia.
    rewrite Z.mod_add, Z.mod_small; lia.
Qed.

Lemma linear_probe_loop_first fuel original_index d n occ :
  0 <= original_index < n -> Z.of_nat (length occ) = n ->
  0 <= d -> d + Z.of_nat fuel = n -> (0 < fuel)%nat ->
  HashTable.linear_probe_loop fuel original_index ((original_index + d) mod n) n occ =
    match first_probe (fun i => negb (occ_in occ i)) fuel
            ((original_index + d) mod n) n with
    | Some r => Ok r
    | None => Throw overflow_error
    end.
Proof.
  intros Ho Hlen. revert d. induction fuel as [|fuel IH]; intros d Hd Hfuel Hpos; [lia|].
  assert (0 <= (original_index + d) mod n < n) as Hi by (apply Z.mod_pos_bound; lia).
  simpl. destruct (vec_get_in_range occ ((original_index + d) mod n)) as (c & Hc & ->); [lia|].
  simpl. unfold occ_in at 1. rewrite Hc. destruct c; simpl; [|done].
  rewrite rem_succ by lia. rewrite Z.add_mod_idemp_l by lia.
  replace (original_index + d + 1) with (original_index + (d + 1)) by lia.
  destruct (Z.eq_dec (d + 1) n) as [Hlast|Hmore].
  - rewrite Hlast. replace (original_index + n) with (original_index + 1 * n) by lia.
    rewrite Z.mod_add, Z.mod_small, Z.eqb_refl by lia.
    destruct fuel; [done|lia].
  - destruct (Z.eqb_spec ((original_index + (d + 1)) mod n) original_index) as [Heq|_].
    + exfalso. revert Heq. apply probe_not_back; lia.
    + apply IH; lia.
Qed.

Lemma linear_probe_first index n occ :
  0 <= index < n -> Z.of_nat (length occ) = n ->
  HashTable.linear_probe index n occ =
    match first_probe (fun i => negb (occ_in occ i)) (Z.to_nat n) index n with
    | Some r => Ok r
    | None => Throw overflow_error
    end.
Proof.
  intros Hi Hlen. unfold HashTable.linear_probe.
  pose proof (linear_probe_loop_first (Z.to_nat n) index 0 n occ) as H.
  rewrite Z.add_0_r, Z.mod_small in H by lia. apply H; lia.
Qed.

(** * The operations as probes *)

Section Theory.

Variable hash_fn : string -> N.

Lemma hash_home key n :
  0 < n <= INT_MAX -> HashTable.hash hash_fn key n = Ok (home hash_fn key n).
Proof.
  unfold INT_MAX. intros Hn. unfold HashTable.hash, home, to_size_t.
  rewrite (Z.mod_small n) by lia.
  destruct (Z.eqb_spec n 0); [lia|].
  f_equal. apply to_int_small.
  pose proof (Z.mod_pos_bound (Z.of_N (hash_fn key) mod 2 ^ 64) n). lia.
Qed.

Lemma home_range key n : 0 < n -> 0 <= home hash_fn key n < n.
Proof. intros. apply Z.mod_pos_bound. lia. Qed.

Lemma get_first ht key :
  wf ht ->
  HashTable.get hash_fn ht key =
    match first_probe (holds_key ht key) (Z.to_nat (HashTable.size ht))
            (home hash_fn key (HashTable.size ht)) (HashTable.size ht) with
    | Some r => Ok (snd (entry_at ht r))
    | None => Throw invalid_argument
    end.
Proof.
  intros Hwf. pose proof (wf_size ht Hwf). unfold HashTable.get.
  rewrite hash_home by done. simpl.
  apply get_loop_first; [done|]. apply home_range. lia.
Qed.

Lemma remove_first ht key :
  wf ht ->
  HashTable.remove hash_fn ht key =
    match first_probe (holds_key ht key) (Z.to_nat (HashTable.size ht))
            (home hash_fn key (HashTable.size ht)) (HashTable.size ht) with
    | Some r =>
        if HashTable.elements_count ht =? INT_MIN then Undefined
        else Ok (clear_slot ht r)
    | None => Throw invalid_argument
    end.
Proof.
  intros Hwf. pose proof (wf_size ht Hwf). unfold HashTable.remove.
  rewrite hash_home by done. simpl.
  apply remove_loop_first; [done|]. apply home_range. lia.
Qed.

(** [insert] on a table that is not full. *)
Lemma insert_first ht key value :
  wf ht -> HashTable.elements_count ht <> HashTable.size ht ->
  HashTable.insert hash_fn ht key value =
    match first_probe (free_or_key ht key) (Z.to_nat (HashTable.size ht))
            (home hash_fn key (HashTable.size ht)) (HashTable.size ht) with
    | Some r =>
        if occ_at ht r then Ok (update_slot ht r value)
        else if HashTable.elements_count ht =? INT_MAX then Undefined
        else Ok (place_slot ht r key value)
    | None => Throw overflow_error
    end.
Proof.
  intros Hwf Hfull. pose proof (wf_size ht Hwf). unfold HashTable.insert.
  destruct (Z.eqb_spec (HashTable.elements_count ht) (HashTable.size ht)); [done|].
  simpl. rewrite hash_home by done. simpl.
  apply insert_loop_first; [done|]. apply home_range. lia.
Qed.

(** [insert] on a full table goes on in the table that [resize] returns. *)
Lemma insert_full ht key value :
  HashTable.elements_count ht = HashTable.size ht ->
  HashTable.insert hash_fn ht key value =
    (ht' <- HashTable.resize hash_fn ht ;;
     index <- HashTable.hash hash_fn key (HashTable.size ht') ;;
     HashTable.insert_loop (Z.to_nat (HashTable.size ht')) ht' index key value).
Proof.
  intros Hfull. unfold HashTable.insert. rewrite Hfull, Z.eqb_refl. done.
Qed.

(** * Lookup and removal *)

Lemma probe_range key n d : 0 < n -> 0 <= probe hash_fn key n d < n.
Proof. intros. apply Z.mod_pos_bound. lia. Qed.

Lemma holds_holds_key ht i key v : holds ht i key v -> holds_key ht key i = true.
Proof.
  intros (_ & Ho & He). unfold holds_key, occ_at, entry_at. rewrite Ho, He. simpl.
  apply String.eqb_refl.
Qed.

Lemma holds_entry ht i key v : holds ht i key v -> snd (entry_at ht i) = v.
Proof. intros (_ & _ & He). unfold entry_at. by rewrite He. Qed.

Lemma holds_fun ht i key v w : holds ht i key v -> holds ht i key w -> v = w.
Proof. intros (_ & _ & H1) (_ & _ & H2). congruence. Qed.

(** C4, as amended. [get] probes from the home index of the key, skips the
    empty slots on its way, and succeeds with the stored value exactly when
    one of the [size] probed slots is occupied by the key (the first such
    slot gives the value); it throws KeyNotFound exactly when all [size]
    probes are used up without a match; it does nothing else. *)
Theorem get_skips_empty_slots ht key :
  wf ht ->
  (forall v, HashTable.get hash_fn ht key = Ok v <->
     exists d, 0 <= d < HashTable.size ht /\
       holds ht (probe hash_fn key (HashTable.size ht) d) key v /\
       forall d', 0 <= d' < d ->
         holds_key ht key (probe hash_fn key (HashTable.size ht) d') = false) /\
  (HashTable.get hash_fn ht key = Throw invalid_argument <->
     forall d, 0 <= d < HashTable.size ht ->
       holds_key ht key (probe hash_fn key (HashTable.size ht) d) = false) /\
  ((exists v, HashTable.get hash_fn ht key = Ok v) \/
   HashTable.get hash_fn ht key = Throw invalid_argument).
Proof.
  intros Hwf. pose proof (wf_size ht Hwf) as Hn.
  pose proof (home_range key (HashTable.size ht) ltac:(lia)) as Hh.
  rewrite get_first by done. unfold probe.
  destruct (first_probe _ _ _ _) as [r|] eqn:E.
  - pose proof (first_probe_test _ _ _ _ _ E) as Hr.
    pose proof (first_probe_Some _ _ _ _ _ (proj1 Hn) Hh E) as (d & Hd & -> & Hbefore).
    apply holds_key_true in Hr as [v0 Hv0]; [|first [done|apply Z.mod_pos_bound; lia]..].
    rewrite (holds_entry _ _ _ _ Hv0).
    split; [|split; [|eauto]].
    + intros v. split.
      * intros [= <-]. exists d. split; [lia|]. done.
      * intros (e & He & Hv & Hbefore').
        rewrite (first_probe_intro _ _ _ _ e) in E; [|lia|done|lia| |done].
        -- injection E as E. rewrite E in Hv. f_equal. eapply holds_fun; eauto.
        -- eapply holds_holds_key; eauto.
    + split; [done|]. intros Hnone. specialize (Hnone d ltac:(lia)).
      assert (holds_key ht key ((home hash_fn key (HashTable.size ht) + d)
                mod HashTable.size ht) = true) as Ht.
      { eapply holds_holds_key; eauto. }
      congruence.
  - pose proof (first_probe_None _ _ _ _ (proj1 Hn) Hh E) as Hnone.
    split; [|split; [|auto]].
    + intros v. split; [done|]. intros (d & Hd & Hv & _).
      specialize (Hnone d ltac:(lia)).
      assert (holds_key ht key ((home hash_fn key (HashTable.size ht) + d)
                mod HashTable.size ht) = true) as Ht.
      { eapply holds_holds_key; eauto. }
      congruence.
    + split; [|done]. intros _ d Hd. apply Hnone. lia.
Qed.

Lemma first_probe_holder ht key j v :
  wf ht -> holds ht j key v -> (forall i w, holds ht i key w -> i = j) ->
  first_probe (holds_key ht key) (Z.to_nat (HashTable.size ht))
    (home hash_fn key (HashTable.size ht)) (HashTable.size ht) = Some j.
Proof.
  intros Hwf Hj Huniq. pose proof (wf_size ht Hwf) as Hn.
  apply first_probe_unique.
  - apply home_range. lia.
  - apply Hj.
  - eapply holds_holds_key; eauto.
  - intros i Hi Ht. apply holds_key_true in Ht as [w Hw]; eauto.
Qed.



(** * Insertion of a key that is present *)

(** C6, as amended. In a table that is not full, when [key] occupies slot
    [j] and every slot on the probe path before [j] is occupied by another
    key, [insert] overwrites the value of slot [j] and nothing else: the
    slot stays where it is, and [elements_count], [first_index],
    [last_index], [occupied] and all other slots are as before. *)
Theorem insert_overwrites_reached_key ht key value d v0 :
  wf ht ->
  HashTable.elements_count ht <> HashTable.size ht ->
  0 <= d < HashTable.size ht ->
  holds ht (probe hash_fn key (HashTable.size ht) d) key v0 ->
  (forall d', 0 <= d' < d ->
     free_or_key ht key (probe hash_fn key (HashTable.size ht) d') = false) ->
  HashTable.insert hash_fn ht key value =
    Ok (HashTable.mk
          (<[Z.to_nat (probe hash_fn key (HashTable.size ht) d) := (key, value)]>
             (HashTable.table ht))
          (HashTable.occupied ht) (HashTable.first_index ht)
          (HashTable.last_index ht) (HashTable.size ht)
          (HashTable.elements_count ht)).
Proof.
  intros Hwf Hfull Hd Hj Hbefore. pose proof (wf_size ht Hwf) as Hn.
  rewrite insert_first by done.
  destruct Hj as (Hr & Ho & He). unfold probe in *.
  rewrite (first_probe_intro _ _ _ _ d); [|lia|apply home_range; lia|lia| |done].
  - unfold occ_at, update_slot, entry_at. rewrite Ho, He. done.
  - unfold free_or_key, occ_at, entry_at. rewrite Ho, He. simpl. apply String.eqb_refl.
Qed.

End Theory.

(** * The scenario "a", "b", "a" *)

Section Scenario.

Variable hash_fn : string -> N.

Lemma home4_cases key :
  home hash_fn key 4 = 0 \/ home hash_fn key 4 = 1 \/
  home hash_fn key 4 = 2 \/ home hash_fn key 4 = 3.
Proof. pose proof (home_range hash_fn key 4). lia. Qed.

Lemma insert_at_home ht key value :
  0 < HashTable.size ht <= INT_MAX ->
  HashTable.elements_count ht <> HashTable.size ht ->
  HashTable.insert hash_fn ht key value =
    HashTable.insert_loop (Z.to_nat (HashTable.size ht)) ht
      (home hash_fn key (HashTable.size ht)) key value.
Proof.
  intros Hn Hfull. unfold HashTable.insert.
  destruct (Z.eqb_spec (HashTable.elements_count ht) (HashTable.size ht)); [done|].
  simpl. rewrite hash_home by done. done.
Qed.

Lemma get_at_home ht key :
  0 < HashTable.size ht <= INT_MAX ->
  HashTable.get hash_fn ht key =
    HashTable.get_loop (Z.to_nat (HashTable.size ht)) ht
      (home hash_fn key (HashTable.size ht)) key.
Proof. intros Hn. unfold HashTable.get. rewrite hash_home by done. done. Qed.

Ltac run_first_call :=
  match goal with
  | |- context [bind ?m ?k] =>
      let r := eval vm_compute in m in change (bind m k) with (bind r k)
  end; cbn [bind].

(** C5, as amended. Whatever the hash function, inserting ("a",1), ("b",2)
    and ("a",5) into an empty table of four slots gives the statistics
    (2,4), the values 5 for "a" and 2 for "b", a [first_index] at the slot
    of "a", and a [last_index] at the slot of "b": the second insertion of
    "a" overwrites and leaves [last_index] where "b" put it. *)
Theorem scenario_a_b_a :
  exists ht,
    (ht <- HashTable.new 4 ;;
     ht <- HashTable.insert hash_fn ht "a" 1 ;;
     ht <- HashTable.insert hash_fn ht "b" 2 ;;
     HashTable.insert hash_fn ht "a" 5) = Ok ht /\
    HashTable.get_stats ht = (2, 4) /\
    HashTable.get hash_fn ht "a" = Ok 5 /\
    HashTable.get hash_fn ht "b" = Ok 2 /\
    HashTable.get_first ht = Ok ("a"%string, 5) /\
    HashTable.get_last ht = Ok ("b"%string, 2).
Proof.
  change (HashTable.new 4) with (Ok empty4). cbn [bind].
  rewrite insert_at_home by (vm_compute; intuition discriminate).
  change (HashTable.size empty4) with 4.
  destruct (home4_cases "a") as [Ea|[Ea|[Ea|Ea]]]; rewrite Ea.
  all: run_first_call.
  all: rewrite insert_at_home by (vm_compute; intuition discriminate);
       cbn [HashTable.size];
       destruct (home4_cases "b") as [Eb|[Eb|[Eb|Eb]]]; rewrite Eb.
  all: run_first_call.
  all: rewrite insert_at_home by (vm_compute; intuition discriminate);
       cbn [HashTable.size]; rewrite Ea.
  all: eexists; split; [vm_compute; reflexivity|].
  all: rewrite !get_at_home by (vm_compute; intuition discriminate);
       cbn [HashTable.size]; rewrite Ea, Eb.
  all: repeat split.
Qed.

(** ** A key behind an empty slot, whatever the hash function *)

Lemma remove_at_home ht key :
  0 < HashTable.size ht <= INT_MAX ->
  HashTable.remove hash_fn ht key =
    HashTable.remove_loop (Z.to_nat (HashTable.size ht)) ht
      (home hash_fn key (HashTable.size ht)) key.
Proof. intros Hn. unfold HashTable.remove. rewrite hash_home by done. done. Qed.

Lemma home2_cases key : home hash_fn key 2 = 0 \/ home hash_fn key 2 = 1.
Proof. pose proof (home_range hash_fn key 2). lia. Qed.

Ltac at_home lemma :=
  rewrite lemma by (vm_compute; intuition discriminate);
  cbn [HashTable.size]; change (HashTable.size empty2) with 2;
  repeat match goal with H : home hash_fn _ 2 = _ |- _ => rewrite H end.

Ltac behind_gap k1 k2 :=
  exists k1, k2; eexists;
  change (HashTable.new 2) with (Ok empty2); cbn [bind];
  at_home insert_at_home; run_first_call;
  at_home insert_at_home; run_first_call;
  at_home remove_at_home;
  split; [vm_compute; reflexivity|];
  at_home get_at_home;
  solve [repeat split].

(** Among "a", "b" and "c" two keys have the same home in a table of two
    slots. Insert the two and remove the first: the second sits behind its
    empty home slot, [get] finds it, and the stopping rule does not. *)
Lemma get_finds_key_behind_gap :
  exists k1 k2 ht,
    (ht <- HashTable.new 2 ;;
     ht <- HashTable.insert hash_fn ht k1 1 ;;
     ht <- HashTable.insert hash_fn ht k2 2 ;;
     HashTable.remove hash_fn ht k1) = Ok ht /\
    occ_at ht (home hash_fn k2 2) = false /\
    HashTable.get hash_fn ht k2 = Ok 2 /\
    get_stopping_at_empty 2 ht (home hash_fn k2 2) k2 = Throw invalid_argument.
Proof.
  destruct (home2_cases "a") as [Ea|Ea], (home2_cases "b") as [Eb|Eb],
    (home2_cases "c") as [Ec|Ec];
    first [behind_gap "a"%string "b"%string
          |behind_gap "a"%string "c"%string
          |behind_gap "b"%string "c"%string].
Qed.

End Scenario.

(** * The file format *)

Lemma byte_of_value z : Z.of_N (N_of_ascii (byte_of z)) = z mod 256.
Proof.
  pose proof (Z.mod_pos_bound z 256 ltac:(lia)) as H.
  unfold byte_of. rewrite N_ascii_embedding by lia. lia.
Qed.

Lemma decode_encode_int z : int_range z -> decode_int (encode_int z) = z.
Proof.
  unfold int_range, INT_MAX. intros H.
  unfold decode_int, encode_int. cbn [fold_right].
  rewrite !byte_of_value. unfold to_int.
  change (2 ^ 31) with 2147483648 in *. change (2 ^ 32) with 4294967296.
  Z.div_mod_to_equations. lia.
Qed.

Lemma length_encode_int z : length (encode_int z) = 4%nat.
Proof. reflexivity. Qed.

Lemma read_int_into_full old s :
  (4 <= length s)%nat ->
  read_int_into old s = (decode_int (take 4 s), drop 4 s, true).
Proof.
  intros H. unfold read_int_into, stream_read. change (Z.to_nat 4) with 4%nat.
  rewrite length_take_le by done. cbn [drop encode_int].
  rewrite app_nil_r. destruct (Nat.leb_spec 4 (length s)); [done|lia].
Qed.

Lemma read_int_into_short old s :
  (length s < 4)%nat -> snd (read_int_into old s) = false.
Proof.
  intros H. unfold read_int_into, stream_read. cbn.
  change (Z.to_nat 4) with 4%nat.
  destruct (Nat.leb_spec 4 (length s)); [lia|done].
Qed.

Lemma overwrite_nil {A} k (l : list A) : overwrite k [] l = l.
Proof. unfold overwrite. simpl. rewrite Nat.add_0_r. apply take_drop. Qed.

Lemma overwrite_cons {A} k x (new l : list A) :
  (k < length l)%nat ->
  overwrite (S k) new (<[k := x]> l) = overwrite k (x :: new) l.
Proof.
  intros Hk. unfold overwrite.
  rewrite (take_S_r _ _ x) by (by apply list_lookup_insert_eq).
  rewrite take_insert_ge by lia. rewrite drop_insert_lt by lia.
  rewrite <- app_assoc. simpl.
  replace (k + S (length new))%nat with (S (k + length new)) by lia. done.
Qed.

Lemma overwrite_all {A} (new l : list A) :
  length new = length l -> overwrite 0 new l = new.
Proof.
  intros H. unfold overwrite. simpl. rewrite drop_ge by lia. apply app_nil_r.
Qed.

(** One round of the slot loop reads one slot as [parse_slot] does. *)
Lemma load_loop_step fuel i file tbl occ :
  HashTable.load_loop (S fuel) i file tbl occ =
    match parse_slot file with
    | None => Ok (tbl, occ)
    | Some (e, o, rest) =>
        occ <- vec_set occ i o ;;
        tbl <- vec_set tbl i e ;;
        HashTable.load_loop fuel (i + 1) rest tbl occ
    end.
Proof.
  cbn [HashTable.load_loop]. unfold parse_slot, stream_read.
  change (Z.to_nat 4) with 4%nat. change (Z.to_nat 1) with 1%nat.
  destruct (Nat.leb_spec 4 (length file)) as [H4|H4];
    destruct (Nat.ltb_spec (length file) 4); try lia; cbn [negb]; [|done].
  set (key_size := decode_int (take 4 file)).
  destruct ((key_size <? 0) || (1000 <? key_size)); [done|].
  rewrite !length_drop.
  destruct (Nat.ltb_spec (length file - 4) (Z.to_nat key_size + 5)) as [Hs|Hs].
  - destruct (Nat.leb_spec (Z.to_nat key_size) (length file - 4)); cbn [negb]; [|done].
    destruct (Nat.leb_spec 4 (length file - 4 - Z.to_nat key_size)); cbn [negb]; [|done].
    destruct (Nat.leb_spec 1 (length file - 4 - Z.to_nat key_size - 4)); [lia|done].
  - destruct (Nat.leb_spec (Z.to_nat key_size) (length file - 4)); [|lia]. cbn [negb].
    destruct (Nat.leb_spec 4 (length file - 4 - Z.to_nat key_size)); [|lia]. cbn [negb].
    destruct (Nat.leb_spec 1 (length file - 4 - Z.to_nat key_size - 4)); [|lia]. cbn [negb].
    generalize (drop 4 file) as body. intros body.
    rewrite (drop_drop body 4), (drop_drop body 1).
    replace (Z.to_nat key_size + 4 + 1)%nat with (Z.to_nat key_size + 5)%nat by lia.
    replace (hd Ascii.zero (take 1 (drop (Z.to_nat key_size + 4) body)))
      with (hd Ascii.zero (drop (Z.to_nat key_size + 4) body));
      [done|].
    destruct (drop (Z.to_nat key_size + 4) body); done.
Qed.

Lemma load_loop_spec fuel i file tbl occ :
  0 <= i -> (Z.to_nat i + fuel <= length tbl)%nat -> length occ = length tbl ->
  HashTable.load_loop fuel i file tbl occ =
    Ok (overwrite (Z.to_nat i) (map fst (parse_slots fuel file)) tbl,
        overwrite (Z.to_nat i) (map snd (parse_slots fuel file)) occ).
Proof.
  revert i file tbl occ. induction fuel as [|fuel IH]; intros i file tbl occ Hi Hlen Hocc.
  - simpl. by rewrite !overwrite_nil.
  - rewrite load_loop_step. cbn [parse_slots].
    destruct (parse_slot file) as [[[e o] rest]|];
      [|cbn [map]; by rewrite !overwrite_nil].
    rewrite !vec_set_in_range by lia. cbn [bind].
    rewrite IH by (rewrite ?length_insert; lia).
    replace (Z.to_nat (i + 1)) with (S (Z.to_nat i)) by lia.
    cbn [map fst snd]. rewrite !overwrite_cons by lia. done.
Qed.

Lemma length_list_ascii_of_string s :
  length (list_ascii_of_string s) = String.length s.
Proof. induction s as [|c s IH]; simpl; [done|by rewrite IH]. Qed.

Lemma parse_encode_slot e o rest :
  (String.length (fst e) <= 1000)%nat -> int_range (snd e) ->
  parse_slot (encode_slot e o ++ rest) = Some (e, o, rest).
Proof.
  intros Hkey Hval. destruct e as [key value]. cbn [fst snd] in *.
  unfold parse_slot, encode_slot. cbn [fst snd]. rewrite <- !app_assoc.
  set (key_size := Z.of_nat (String.length key)).
  assert (int_range key_size) as Hsize by (unfold int_range, INT_MAX; lia).
  rewrite length_app, length_encode_int.
  destruct (Nat.ltb_spec (4 + length (list_ascii_of_string key ++ encode_int value
                                        ++ [if o then byte_of 1 else byte_of 0] ++ rest)) 4);
    [lia|].
  rewrite (take_app_length' (encode_int key_size)) by done.
  rewrite (drop_app_length' (encode_int key_size)) by done.
  rewrite decode_encode_int by done.
  destruct (Z.ltb_spec key_size 0); [lia|].
  destruct (Z.ltb_spec 1000 key_size); [lia|]. cbn [orb].
  assert (length (list_ascii_of_string key) = Z.to_nat key_size) as Hlen
    by (rewrite length_list_ascii_of_string; lia).
  rewrite !length_app, length_encode_int. cbn [length].
  match goal with
  | |- context [Nat.ltb ?a ?b] => destruct (Nat.ltb_spec a b); [lia|]
  end.
  rewrite (take_app_length' (list_ascii_of_string key)) by done.
  rewrite string_of_list_ascii_of_string.
  rewrite (drop_app_length' (list_ascii_of_string key)) by done.
  rewrite (take_app_length' (encode_int value)) by done.
  rewrite decode_encode_int by done.
  rewrite <- !(drop_drop _ _ (Z.to_nat key_size)).
  rewrite (drop_app_length' (list_ascii_of_string key)) by done.
  rewrite (drop_app_length' (encode_int value)) by done.
  replace (drop 5 (encode_int value ++ [if o then byte_of 1 else byte_of 0] ++ rest))
    with rest by done.
  by destruct o.
Qed.

Lemma parse_encode_slots n tbl occ rest :
  n = length tbl -> length occ = length tbl ->
  Forall (fun e : string * Z => (String.length (fst e) <= 1000)%nat) tbl ->
  Forall (fun e : string * Z => int_range (snd e)) tbl ->
  parse_slots n (encode_slots tbl occ ++ rest) = zip tbl occ.
Proof.
  intros ->. revert occ.
  induction tbl as [|e tbl IH]; intros [|o occ] Hlen Hkeys Hvals;
    simpl in Hlen; try done.
  inversion_clear Hkeys. inversion_clear Hvals.
  cbn [length encode_slots parse_slots zip zip_with]. rewrite <- app_assoc.
  rewrite parse_encode_slot by done. rewrite IH by (done || lia). done.
Qed.

Lemma map_fst_zip {A B} (l : list A) (k : list B) :
  length k = length l -> map fst (zip l k) = l.
Proof.
  revert k. induction l as [|x l IH]; intros [|y k] H; simpl in *; try done.
  rewrite IH by lia. done.
Qed.

Lemma map_snd_zip {A B} (l : list A) (k : list B) :
  length k = length l -> map snd (zip l k) = k.
Proof.
  revert k. induction l as [|x l IH]; intros [|y k] H; simpl in *; try done.
  rewrite IH by lia. done.
Qed.

Lemma save_loop_spec ht fuel i :
  0 <= i ->
  (Z.to_nat i + fuel <= length (HashTable.table ht))%nat ->
  length (HashTable.occupied ht) = length (HashTable.table ht) ->
  short_keys ht ->
  HashTable.save_loop fuel ht i =
    Ok (encode_slots (take fuel (drop (Z.to_nat i) (HashTable.table ht)))
          (take fuel (drop (Z.to_nat i) (HashTable.occupied ht)))).
Proof.
  intros Hi Hlen Hocc Hkeys. revert i Hi Hlen.
  induction fuel as [|fuel IH]; intros i Hi Hlen; [done|].
  cbn [HashTable.save_loop].
  destruct (vec_get_in_range (HashTable.table ht) i) as (e & He & ->); [lia|].
  destruct (vec_get_in_range (HashTable.occupied ht) i) as (o & Ho & ->); [lia|].
  cbn [bind]. rewrite IH by lia. cbn [bind].
  replace (Z.to_nat (i + 1)) with (S (Z.to_nat i)) by lia.
  rewrite (drop_S _ _ _ He), (drop_S _ _ _ Ho). cbn [take encode_slots].
  pose proof (Forall_lookup_1 _ _ _ _ Hkeys He) as Hshort. cbn beta in Hshort.
  rewrite to_int_small by lia.
  rewrite Nat2Z.id, <- length_list_ascii_of_string, firstn_all.
  unfold encode_slot. rewrite <- !app_assoc, !length_list_ascii_of_string. done.
Qed.

(** Saving and loading again gives the table back, whatever the table that
    is loaded into. *)
Lemma save_load_storable ht :
  storable ht ->
  exists file,
    HashTable.save_to_file ht true = Ok file /\
    forall fresh, HashTable.load_from_file fresh (Some file) = Ok (true, ht).
Proof.
  intros [Hwf Hcount Hfirst Hlast Hkeys Hvals].
  pose proof (wf_size ht Hwf) as Hn. pose proof (wf_table ht Hwf) as Htbl.
  pose proof (wf_occupied ht Hwf) as Hocc.
  assert (int_range (HashTable.size ht)) as Hsize
    by (unfold int_range, INT_MAX in *; lia).
  unfold HashTable.save_to_file.
  rewrite save_loop_spec by (done || lia).
  change (Z.to_nat 0) with 0%nat. cbn [bind]. rewrite !drop_0.
  rewrite !firstn_all2 by lia.
  eexists. split; [done|]. intros fresh.
  unfold HashTable.load_from_file.
  rewrite read_int_into_full by (rewrite !length_app, !length_encode_int; lia).
  rewrite (take_app_length' (encode_int _)), (drop_app_length' (encode_int _)) by done.
  rewrite decode_encode_int by done. cbv beta iota zeta. cbn [negb HashTable.elements_count].
  rewrite read_int_into_full by (rewrite !length_app, !length_encode_int; lia).
  rewrite (take_app_length' (encode_int _)), (drop_app_length' (encode_int _)) by done.
  rewrite decode_encode_int by done. cbv beta iota zeta. cbn [negb HashTable.first_index].
  rewrite read_int_into_full by (rewrite !length_app, !length_encode_int; lia).
  rewrite (take_app_length' (encode_int _)), (drop_app_length' (encode_int _)) by done.
  rewrite decode_encode_int by done. cbv beta iota zeta. cbn [negb HashTable.last_index].
  rewrite read_int_into_full by (rewrite !length_app, !length_encode_int; lia).
  rewrite (take_app_length' (encode_int _)), (drop_app_length' (encode_int _)) by done.
  rewrite decode_encode_int by done. cbv beta iota zeta.
  cbn [negb HashTable.size HashTable.table HashTable.occupied HashTable.first_index
         HashTable.last_index HashTable.elements_count].
  unfold vec_resize. destruct (Z.ltb_spec (HashTable.size ht) 0); [lia|]. cbn [bind].
  rewrite load_loop_spec by (rewrite ?length_resize; lia). cbn [bind fst snd].
  change (Z.to_nat 0) with 0%nat.
  rewrite <- (app_nil_r (encode_slots _ _)).
  rewrite parse_encode_slots by (done || lia).
  rewrite map_fst_zip, map_snd_zip by lia.
  rewrite !overwrite_all by (rewrite length_resize; lia).
  by destruct ht.
Qed.

(** * Loading any file *)

Lemma load_from_file_missing ht : HashTable.load_from_file ht None = Ok (false, ht).
Proof. reflexivity. Qed.

Ltac read_header_field :=
  match goal with
  | |- context [read_int_into ?old ?s] =>
      let Hlen := fresh "Hlen" in
      destruct (le_lt_dec 4 (length s)) as [Hlen|Hlen];
      [ rewrite (read_int_into_full old s Hlen); cbv beta iota zeta; cbn [negb]
      | let H := fresh in
        let g := fresh "good" in
        pose proof (read_int_into_short old s Hlen) as H;
        destruct (read_int_into old s) as [[? ?] g]; cbn [snd] in H; subst g;
        cbv beta iota zeta; cbn [negb]; eexists; reflexivity ]
  end.

Lemma load_from_file_short_header ht file :
  (length file < 16)%nat ->
  exists ht', HashTable.load_from_file ht (Some file) = Ok (false, ht').
Proof.
  intros Hshort. unfold HashTable.load_from_file.
  do 4 (read_header_field;
        cbn [HashTable.size HashTable.table HashTable.occupied
             HashTable.first_index HashTable.last_index HashTable.elements_count]).
  rewrite !length_drop in *. lia.
Qed.

Lemma load_from_file_header ht file :
  (16 <= length file)%nat ->
  HashTable.load_from_file ht (Some file) =
    if header_field 0 file <? 0 then Throw length_error
    else Ok (true, loaded ht file).
Proof.
  intros Hlong. unfold HashTable.load_from_file.
  do 4 (rewrite read_int_into_full by (rewrite ?length_drop; lia);
        cbv beta iota zeta;
        cbn [negb HashTable.size HashTable.table HashTable.occupied
             HashTable.first_index HashTable.last_index HashTable.elements_count]).
  rewrite !drop_drop. cbn [Nat.add].
  unfold vec_resize, loaded, header_field. rewrite drop_0.
  destruct (Z.ltb_spec (decode_int (take 4 file)) 0); [done|]. cbn [bind].
  rewrite load_loop_spec by (rewrite ?length_resize; lia). done.
Qed.

(** The part of C2 that the code keeps: [false] for a file that cannot be
    opened or whose header is cut short; for a header that announces a
    capacity that is not negative, [true], with exactly the slots that
    could be read written over the vectors, whether all of them could be
    read or not. *)
Lemma load_from_file_result ht file :
  HashTable.load_from_file ht None = Ok (false, ht) /\
  ((length file < 16)%nat ->
     exists ht', HashTable.load_from_file ht (Some file) = Ok (false, ht')) /\
  ((16 <= length file)%nat -> 0 <= header_field 0 file ->
     HashTable.load_from_file ht (Some file) = Ok (true, loaded ht file)) /\
  ((16 <= length file)%nat -> header_field 0 file < 0 ->
     HashTable.load_from_file ht (Some file) = Throw length_error).
Proof.
  split; [done|]. split; [apply load_from_file_short_header|].
  split; intros Hlong Hcap; rewrite load_from_file_header by done.
  - destruct (Z.ltb_spec (header_field 0 file) 0); [lia|done].
  - destruct (Z.ltb_spec (header_field 0 file) 0); [done|lia].
Qed.

(** C2: a readable header whose capacity is negative. [table.resize(size)]
    throws [std::length_error], so [load_from_file] returns neither [true]
    nor [false]. *)
Theorem load_from_file_negative_capacity ht :
  length negative_capacity_file = 16%nat /\
  header_field 0 negative_capacity_file = -1 /\
  HashTable.load_from_file ht (Some negative_capacity_file) = Throw length_error.
Proof. repeat split. Qed.

(** * Counting occupied slots *)

Lemma occupied_count_nil : occupied_count [] = 0.
Proof. reflexivity. Qed.

Lemma occupied_count_cons b occ :
  occupied_count (b :: occ) = (if b then 1 else 0) + occupied_count occ.
Proof.
  unfold occupied_count. rewrite filter_cons.
  destruct b; case_decide; try done; simpl; lia.
Qed.

Lemma occupied_count_app occ1 occ2 :
  occupied_count (occ1 ++ occ2) = occupied_count occ1 + occupied_count occ2.
Proof.
  induction occ1 as [|b occ1 IH]; [unfold occupied_count; simpl; lia|].
  simpl. rewrite !occupied_count_cons, IH. lia.
Qed.

Lemma occupied_count_bounds occ : 0 <= occupied_count occ <= Z.of_nat (length occ).
Proof.
  induction occ as [|b occ IH]; [unfold occupied_count; simpl; lia|].
  rewrite occupied_count_cons. simpl length. destruct b; lia.
Qed.

Lemma occupied_count_replicate n : occupied_count (replicate n false) = 0.
Proof.
  induction n as [|n IH]; [done|]. simpl. rewrite occupied_count_cons, IH. done.
Qed.

Lemma occ_in_lookup occ i b : occ !! Z.to_nat i = Some b -> occ_in occ i = b.
Proof. intros H. unfold occ_in. by rewrite H. Qed.

Lemma occupied_count_insert (occ : list bool) r (b : bool) :
  0 <= r < Z.of_nat (length occ) ->
  occupied_count (<[Z.to_nat r := b]> occ) =
    occupied_count occ - (if occ_in occ r then 1 else 0) + (if b then 1 else 0).
Proof.
  intros Hr.
  destruct (lookup_lt_is_Some_2 occ (Z.to_nat r)) as [old Hold]; [lia|].
  rewrite (occ_in_lookup _ _ _ Hold).
  rewrite insert_take_drop by lia.
  rewrite <- (take_drop_middle _ _ _ Hold) at 3.
  rewrite !occupied_count_app, !occupied_count_cons. lia.
Qed.

Lemma occupied_count_place (occ : list bool) r :
  0 <= r < Z.of_nat (length occ) -> occ_in occ r = false ->
  occupied_count (<[Z.to_nat r := true]> occ) = occupied_count occ + 1.
Proof. intros Hr Hfree. rewrite occupied_count_insert, Hfree by lia. lia. Qed.

Lemma occupied_count_clear (occ : list bool) r :
  0 <= r < Z.of_nat (length occ) -> occ_in occ r = true ->
  occupied_count (<[Z.to_nat r := false]> occ) = occupied_count occ - 1.
Proof. intros Hr Hfree. rewrite occupied_count_insert, Hfree by lia. lia. Qed.

Lemma occupied_count_take_S (occ : list bool) i (b : bool) :
  occ !! i = Some b ->
  occupied_count (take (S i) occ) =
    occupied_count (take i occ) + (if b then 1 else 0).
Proof.
  intros H. rewrite (take_S_r _ _ _ H), occupied_count_app, occupied_count_cons.
  rewrite occupied_count_nil. lia.
Qed.

Lemma free_slot_exists occ :
  occupied_count occ < Z.of_nat (length occ) ->
  exists i, 0 <= i < Z.of_nat (length occ) /\ occ_in occ i = false.
Proof.
  induction occ as [|b occ IH]; [unfold occupied_count; simpl; lia|].
  rewrite occupied_count_cons. simpl length. destruct b.
  - intros H. destruct IH as (i & Hi & Hfree); [lia|].
    exists (i + 1). split; [lia|]. unfold occ_in in *.
    replace (Z.to_nat (i + 1)) with (S (Z.to_nat i)) by lia. done.
  - intros _. exists 0. split; [lia|]. done.
Qed.

Lemma get_stats_count ht :
  HashTable.get_stats ht = (occupied_count (HashTable.occupied ht), HashTable.size ht).
Proof.
  unfold HashTable.get_stats. f_equal.
  assert (forall occ c,
    fold_left (fun count (slot : bool) => if slot then count + 1 else count) occ c
    = c + occupied_count occ) as H.
  { induction occ as [|b occ IH]; intros c; simpl.
    - rewrite occupied_count_nil. lia.
    - rewrite IH, occupied_count_cons. destruct b; lia. }
  rewrite H. lia.
Qed.

Lemma occ_in_insert (occ : list bool) r (b : bool) i :
  0 <= r < Z.of_nat (length occ) -> 0 <= i ->
  occ_in (<[Z.to_nat r := b]> occ) i = if i =? r then b else occ_in occ i.
Proof.
  intros Hr Hi. unfold occ_in. destruct (Z.eqb_spec i r) as [->|Hne].
  - rewrite list_lookup_insert_eq by lia. done.
  - rewrite list_lookup_insert_ne by lia. done.
Qed.

Lemma entry_in_insert (tbl : list (string * Z)) r e i :
  0 <= r < Z.of_nat (length tbl) -> 0 <= i ->
  entry_in (<[Z.to_nat r := e]> tbl) i = if i =? r then e else entry_in tbl i.
Proof.
  intros Hr Hi. unfold entry_in. destruct (Z.eqb_spec i r) as [->|Hne].
  - rewrite list_lookup_insert_eq by lia. done.
  - rewrite list_lookup_insert_ne by lia. done.
Qed.

(** * Writing a slot *)

Section Writing.

Variable hash_fn : string -> N.
Variables (tbl : list (string * Z)) (occ : list bool) (n : Z).
Hypothesis Hn : 0 < n.
Hypothesis Htbl : Z.of_nat (length tbl) = n.
Hypothesis Hocc : Z.of_nat (length occ) = n.

(** A new entry in a free slot. *)
Section Place.

Variables (key : string) (value : Z) (r : Z).
Hypothesis Hr : 0 <= r < n.
Hypothesis Hfree : occ_in occ r = false.

Let tbl' := <[Z.to_nat r := (key, value)]> tbl.
Let occ' := <[Z.to_nat r := true]> occ.

Lemma place_holds j k v :
  holds_in tbl' occ' n j k v <->
  (j = r /\ k = key /\ v = value) \/ holds_in tbl occ n j k v.
Proof.
  unfold holds_in, tbl', occ'. split.
  - intros (Hj & Ho & He).
    rewrite occ_in_insert in Ho by lia. rewrite entry_in_insert in He by lia.
    destruct (Z.eqb_spec j r) as [->|Hne]; [left|right; done].
    by injection He as <- <-.
  - intros [(-> & -> & ->)|(Hj & Ho & He)].
    + rewrite occ_in_insert, entry_in_insert, Z.eqb_refl by lia. done.
    + rewrite occ_in_insert, entry_in_insert by lia.
      destruct (Z.eqb_spec j r) as [->|Hne]; [congruence|done].
Qed.

Lemma place_no_duplicates :
  (forall j v, ~ holds_in tbl occ n j key v) ->
  no_duplicates_in tbl occ n -> no_duplicates_in tbl' occ' n.
Proof.
  intros Habsent Hnodup i j k v w Hi Hj.
  apply place_holds in Hi as [(-> & -> & ->)|Hi];
    apply place_holds in Hj as [(-> & Hk & ->)|Hj]; try done.
  - exfalso. eapply Habsent; eauto.
  - subst k. exfalso. eapply Habsent; eauto.
  - eapply Hnodup; eauto.
Qed.

Lemma place_reaches k j :
  reaches hash_fn occ n k j -> reaches hash_fn occ' n k j.
Proof.
  unfold reaches. intros Hreach.
  eapply first_probe_stable_in_range;
    [done|by apply home_range|exact Hreach|].
  intros i Hin Hi. cbn beta in *. unfold occ'.
  rewrite occ_in_insert by lia.
  destruct (Z.eqb_spec i r) as [->|Hne]; [|done].
  rewrite Hfree. cbn [negb orb]. destruct Hi as [Hi| ->].
  - rewrite Hfree in Hi. done.
  - apply Z.eqb_refl.
Qed.

Lemma place_chained :
  first_probe (fun i => negb (occ_in occ i)) (Z.to_nat n) (home hash_fn key n) n
    = Some r ->
  chained_in hash_fn tbl occ n -> chained_in hash_fn tbl' occ' n.
Proof.
  intros Hprobe Hchain j k v Hj. apply place_holds in Hj as [(-> & -> & ->)|Hj].
  - apply place_reaches. unfold reaches.
    eapply first_probe_stable; [exact Hprobe|].
    intros i [Hi| ->]; cbn beta in *.
    + rewrite Hi. destruct (Z.eqb_spec i r) as [->|]; [|done].
      rewrite Hfree in Hi. done.
    + rewrite Hfree. done.
  - apply place_reaches. eauto.
Qed.

End Place.

(** A new value in an occupied slot. *)
Section Update.

Variables (key : string) (v0 value : Z) (r : Z).
Hypothesis Hr : holds_in tbl occ n r key v0.

Let tbl' := <[Z.to_nat r := (key, value)]> tbl.

Lemma update_holds j k v :
  holds_in tbl' occ n j k v <->
  (j = r /\ k = key /\ v = value) \/ (j <> r /\ holds_in tbl occ n j k v).
Proof.
  destruct Hr as (Hrn & Hro & Hre). unfold holds_in, tbl'. split.
  - intros (Hj & Ho & He). rewrite entry_in_insert in He by lia.
    destruct (Z.eqb_spec j r) as [->|Hne]; [left|right; done].
    by injection He as <- <-.
  - intros [(-> & -> & ->)|(Hne & Hj & Ho & He)].
    + rewrite entry_in_insert, Z.eqb_refl by lia. done.
    + rewrite entry_in_insert by lia.
      destruct (Z.eqb_spec j r) as [->|_]; [done|done].
Qed.

Lemma update_no_duplicates :
  no_duplicates_in tbl occ n -> no_duplicates_in tbl' occ n.
Proof.
  intros Hnodup i j k v w Hi Hj.
  apply update_holds in Hi as [(-> & -> & ->)|[Hi1 Hi]];
    apply update_holds in Hj as [(-> & Hk & ->)|[Hj1 Hj]]; try done.
  - symmetry. eapply Hnodup; eauto.
  - subst k. eapply Hnodup; eauto.
  - eapply Hnodup; eauto.
Qed.

Lemma update_chained :
  chained_in hash_fn tbl occ n -> chained_in hash_fn tbl' occ n.
Proof.
  intros Hchain j k v Hj.
  apply update_holds in Hj as [(-> & -> & ->)|[_ Hj]]; eauto.
Qed.

End Update.

End Writing.

(** * Growth *)

Section Rehash.

Variable hash_fn : string -> N.
Variable ht : HashTable.t.
Hypothesis Hwf : wf ht.
Hypothesis Hroom : HashTable.size ht <= INT_MAX - 2000.

Let new_size := HashTable.size ht + 2000.

Local Abbreviation rehashed := (rehash_state hash_fn ht).

Lemma rehashed_start :
  rehashed 0 (replicate (Z.to_nat new_size) (EmptyString, 0))
    (replicate (Z.to_nat new_size) false) (-1) (-1).
Proof.
  pose proof (wf_size ht Hwf) as Hn.
  assert (forall j k v,
    ~ holds_in (replicate (Z.to_nat new_size) (EmptyString, 0))
        (replicate (Z.to_nat new_size) false) new_size j k v) as Hnone.
  { intros j k v (Hj & Ho & _). unfold occ_in in Ho.
    rewrite lookup_replicate_2 in Ho by lia. done. }
  split.
  - rewrite length_replicate. unfold new_size. lia.
  - rewrite length_replicate. unfold new_size. lia.
  - rewrite occupied_count_replicate. done.
  - unfold new_size. lia.
  - unfold new_size. lia.
  - intros k v. split.
    + intros [j Hj]. exfalso. eapply Hnone; eauto.
    + intros (i' & Hi' & _). lia.
  - intros P HP _. by apply Forall_replicate.
  - intros _. split.
    + intros i j k v w Hi. exfalso. eapply Hnone; eauto.
    + intros j k v Hj. exfalso. eapply Hnone; eauto.
Qed.

Lemma rehashed_skip i nt no nf nl :
  0 <= i < HashTable.size ht -> occ_at ht i = false ->
  rehashed i nt no nf nl -> rehashed (i + 1) nt no nf nl.
Proof.
  intros Hi Hfree [H1 H2 H3 H4 H5 H6 H7 H8]. split; try done.
  - replace (Z.to_nat (i + 1)) with (S (Z.to_nat i)) by lia.
    destruct (lookup_lt_is_Some_2 (HashTable.occupied ht) (Z.to_nat i)) as [b Hb].
    { pose proof (wf_occupied ht Hwf). lia. }
    rewrite (occupied_count_take_S _ _ _ Hb), H3.
    rewrite <- (occ_in_lookup _ _ _ Hb). fold (occ_at ht i). rewrite Hfree. lia.
  - intros k v. rewrite H6. split.
    + intros (i' & Hi' & Hh). exists i'. split; [lia|done].
    + intros (i' & Hi' & Hh). exists i'. split; [|done].
      destruct (Z.eq_dec i' i) as [->|]; [|lia].
      destruct Hh as (_ & Ho & _). fold (occ_at ht i) in Ho. congruence.
Qed.

Lemma rehashed_place i nt no nf nl r :
  0 <= i < HashTable.size ht -> occ_at ht i = true ->
  rehashed i nt no nf nl ->
  first_probe (fun j => negb (occ_in no j)) (Z.to_nat new_size)
    (home hash_fn (fst (entry_at ht i)) new_size) new_size = Some r ->
  rehashed (i + 1)
    (<[Z.to_nat r := entry_at ht i]> nt) (<[Z.to_nat r := true]> no)
    (if i =? HashTable.first_index ht then r else nf) r.
Proof.
  intros Hi Hocc [H1 H2 H3 H4 H5 H6 H7 H8] Hprobe.
  pose proof (wf_size ht Hwf) as Hn.
  assert (0 < new_size) as Hpos by (unfold new_size; lia).
  pose proof (first_probe_range _ _ _ _ _ Hpos
                (home_range hash_fn _ new_size Hpos) Hprobe) as Hr.
  pose proof (first_probe_test _ _ _ _ _ Hprobe) as Hfree. cbn beta in Hfree.
  apply negb_true_iff in Hfree.
  destruct (entry_at ht i) as [k0 v0] eqn:He. cbn [fst] in Hprobe.
  assert (holds ht i k0 v0) as Hold by (repeat split; [lia|lia|done|done]).
  split.
  - by rewrite length_insert.
  - by rewrite length_insert.
  - rewrite occupied_count_place by (done || lia).
    replace (Z.to_nat (i + 1)) with (S (Z.to_nat i)) by lia.
    destruct (lookup_lt_is_Some_2 (HashTable.occupied ht) (Z.to_nat i)) as [b Hb].
    { pose proof (wf_occupied ht Hwf). lia. }
    rewrite (occupied_count_take_S _ _ _ Hb), H3.
    rewrite <- (occ_in_lookup _ _ _ Hb). fold (occ_at ht i). rewrite Hocc. lia.
  - destruct (i =? HashTable.first_index ht); lia.
  - lia.
  - intros k v. split.
    + intros [j Hj]. apply place_holds in Hj as [(-> & -> & ->)|Hj]; [| |done..].
      * exists i. split; [lia|done].
      * destruct (proj1 (H6 k v) (ex_intro _ j Hj)) as (i' & Hi' & Hh).
        exists i'. split; [lia|done].
    + intros (i' & Hi' & Hh). destruct (Z.eq_dec i' i) as [->|Hne].
      * exists r. apply place_holds; [done..|]. left.
        destruct Hh as (_ & _ & Hh). fold (entry_at ht i) in Hh.
        rewrite He in Hh. injection Hh as -> ->. done.
      * destruct (proj2 (H6 k v)) as [j Hj]; [exists i'; split; [lia|done]|].
        exists j. apply place_holds; [done..|]. by right.
  - intros P HP HF. apply Forall_insert; [by apply H7|].
    rewrite <- He. unfold entry_at, entry_in.
    destruct (HashTable.table ht !! Z.to_nat i) eqn:E; [|done].
    by eapply Forall_lookup_1.
  - intros Hnodup. destruct (H8 Hnodup) as [Hnd Hch]. split.
    + apply place_no_duplicates; [done..| |done].
      intros j v Hj.
      destruct (proj1 (H6 k0 v) (ex_intro _ j Hj)) as (i' & Hi' & Hh).
      pose proof (Hnodup _ _ _ _ _ Hh Hold). lia.
    + eapply place_chained; eauto.
Qed.

Lemma resize_loop_spec fuel i nt no nf nl :
  0 <= i -> i + Z.of_nat fuel = HashTable.size ht ->
  rehashed i nt no nf nl ->
  exists nt' no' nf' nl',
    HashTable.resize_loop hash_fn fuel ht new_size i (nt, no, nf, nl)
      = Ok (nt', no', nf', nl') /\
    rehashed (HashTable.size ht) nt' no' nf' nl'.
Proof.
  pose proof (wf_size ht Hwf) as Hn.
  assert (0 < new_size <= INT_MAX) as Hpos by (unfold new_size; lia).
  revert i nt no nf nl. induction fuel as [|fuel IH]; intros i nt no nf nl Hi Hfuel Hre.
  - replace (HashTable.size ht) with i by lia. simpl. eauto 10.
  - cbn [HashTable.resize_loop].
    pose proof Hre as [H1 H2 H3 _ _ _ _ _].
    rewrite vec_get_occupied by (done || lia). cbn [bind].
    destruct (occ_at ht i) eqn:Hocc.
    + rewrite vec_get_table by (done || lia). cbn [bind].
      rewrite hash_home by done. cbn [bind].
      rewrite linear_probe_first by (first [apply home_range; lia | done]).
      destruct (free_slot_exists no) as (f & Hf & Hfree).
      { rewrite H3, H2.
        pose proof (occupied_count_bounds (take (Z.to_nat i) (HashTable.occupied ht))) as Hb.
        rewrite length_take in Hb. unfold new_size. lia. }
      destruct (first_probe_complete (fun j => negb (occ_in no j))
                  (home hash_fn (fst (entry_at ht i)) new_size) f new_size)
        as [r Hr].
      { apply home_range. lia. }
      { unfold new_size. lia. }
      { cbn beta. by rewrite Hfree. }
      rewrite Hr. cbn [bind].
      pose proof (first_probe_range _ _ _ _ _ (proj1 Hpos)
                    (home_range hash_fn _ new_size (proj1 Hpos)) Hr) as Hrn.
      rewrite !vec_set_in_range by (rewrite ?H1, ?H2; done).
      cbn [bind]. apply IH; [lia|lia|].
      apply (rehashed_place i nt no nf nl r); (done || lia).
    + apply IH; [lia|lia|]. apply rehashed_skip; (done || lia).
Qed.

End Rehash.

(** * Tables of the data model *)

Section Tables.

Variable hash_fn : string -> N.

(** What [resize] returns. *)
Lemma resize_spec ht :
  wf ht -> HashTable.size ht <= INT_MAX - 2000 ->
  exists ht',
    HashTable.resize hash_fn ht = Ok ht' /\
    HashTable.size ht' = HashTable.size ht + 2000 /\
    HashTable.elements_count ht' = HashTable.elements_count ht /\
    wf ht' /\
    occupied_count (HashTable.occupied ht') = occupied_count (HashTable.occupied ht) /\
    -1 <= HashTable.first_index ht' < HashTable.size ht' /\
    -1 <= HashTable.last_index ht' < HashTable.size ht' /\
    (forall k v, (exists j, holds ht' j k v) <-> (exists i, holds ht i k v)) /\
    (forall P : string * Z -> Prop,
       P (EmptyString, 0) -> Forall P (HashTable.table ht) ->
       Forall P (HashTable.table ht')) /\
    (no_duplicate_keys ht -> no_duplicate_keys ht' /\ chained hash_fn ht').
Proof.
  intros Hwf Hroom. pose proof (wf_size ht Hwf) as Hn.
  unfold HashTable.resize.
  destruct (Z.ltb_spec (INT_MAX - 2000) (HashTable.size ht)); [lia|].
  unfold vec_make. destruct (Z.ltb_spec (HashTable.size ht + 2000) 0); [lia|].
  cbn [bind].
  pose proof (rehashed_start hash_fn ht Hwf) as Hstart.
  destruct (fun Hi Hfuel =>
              resize_loop_spec hash_fn ht Hwf Hroom (Z.to_nat (HashTable.size ht)) 0
                _ _ (-1) (-1) Hi Hfuel Hstart)
    as (nt & no & nf & nl & -> & [H1 H2 H3 H4 H5 H6 H7 H8]); [lia|lia|].
  cbn [bind]. eexists. split; [done|].
  cbn [HashTable.size HashTable.elements_count HashTable.table HashTable.occupied
       HashTable.first_index HashTable.last_index].
  split; [done|]. split; [done|]. split; [split; cbn; (done || lia)|].
  split.
  { rewrite H3, firstn_all2; [done|]. pose proof (wf_occupied ht Hwf). lia. }
  split; [done|]. split; [done|]. split; [|split; [done|done]].
  intros k v. unfold holds at 1. cbn. rewrite H6. split.
  - intros (i & _ & Hi). eauto.
  - intros (i & Hi). exists i. split; [apply Hi|done].
Qed.

(** ** Lookup in terms of the slots *)

Lemma get_found_or_absent ht key :
  wf ht ->
  (exists j v, holds ht j key v /\ HashTable.get hash_fn ht key = Ok v) \/
  ((forall j v, ~ holds ht j key v) /\
   HashTable.get hash_fn ht key = Throw invalid_argument).
Proof.
  intros Hwf. pose proof (wf_size ht Hwf) as Hn.
  pose proof (home_range hash_fn key (HashTable.size ht) (proj1 Hn)) as Hh.
  rewrite get_first by done.
  destruct (first_probe _ _ _ _) as [r|] eqn:E.
  - left. pose proof (first_probe_test _ _ _ _ _ E) as Hr.
    pose proof (first_probe_range _ _ _ _ _ (proj1 Hn) Hh E) as Hrn.
    apply holds_key_true in Hr as [v Hv]; [|done..].
    exists r, v. split; [done|]. by rewrite (holds_entry _ _ _ _ Hv).
  - right. split; [|done]. intros j v Hj.
    destruct (probe_covers (home hash_fn key (HashTable.size ht)) j (HashTable.size ht))
      as (d & Hd & Heq); [done|apply Hj|].
    pose proof (first_probe_None _ _ _ _ (proj1 Hn) Hh E d ltac:(lia)) as Hnone.
    rewrite Heq, (holds_holds_key _ _ _ _ Hj) in Hnone. done.
Qed.

Lemma get_holds ht key j v :
  wf ht -> no_duplicate_keys ht -> holds ht j key v ->
  HashTable.get hash_fn ht key = Ok v.
Proof.
  intros Hwf Hnodup Hj. rewrite get_first by done.
  rewrite (first_probe_holder hash_fn ht key j v Hwf Hj).
  - by rewrite (holds_entry _ _ _ _ Hj).
  - intros i w Hi. eapply Hnodup; eauto.
Qed.

Lemma get_absent ht key :
  wf ht -> (forall j v, ~ holds ht j key v) ->
  HashTable.get hash_fn ht key = Throw invalid_argument.
Proof.
  intros Hwf Habsent.
  destruct (get_found_or_absent ht key Hwf) as [(j & v & Hj & _)|[_ H]]; [|done].
  exfalso. eapply Habsent; eauto.
Qed.

(** Two tables with the same entries for [key] answer [get] alike. *)
Lemma get_same ht ht' key :
  wf ht -> wf ht' -> no_duplicate_keys ht' ->
  (forall v, (exists j, holds ht' j key v) <-> (exists j, holds ht j key v)) ->
  HashTable.get hash_fn ht' key = HashTable.get hash_fn ht key.
Proof.
  intros Hwf Hwf' Hnodup Hsame.
  destruct (get_found_or_absent ht key Hwf) as [(j & v & Hj & ->)|[Habsent ->]].
  - destruct (proj2 (Hsame v) (ex_intro _ j Hj)) as [j' Hj'].
    eapply get_holds; eauto.
  - apply get_absent; [done|]. intros j v Hj.
    destruct (proj1 (Hsame v) (ex_intro _ j Hj)) as [j' Hj'].
    eapply Habsent; eauto.
Qed.


(** ** Insertion into a table that is not full *)

Lemma counted_bounds ht :
  counted ht -> 0 <= HashTable.elements_count ht <= HashTable.size ht.
Proof.
  intros [Hwf Hc _ _ _]. rewrite Hc, <- (wf_occupied ht Hwf).
  apply occupied_count_bounds.
Qed.

(** In a table of the data model that is not full, the increment of
    [elements_count] does not overflow. *)
Lemma insert_first_counted ht key value :
  counted ht -> HashTable.elements_count ht <> HashTable.size ht ->
  HashTable.insert hash_fn ht key value =
    match first_probe (free_or_key ht key) (Z.to_nat (HashTable.size ht))
            (home hash_fn key (HashTable.size ht)) (HashTable.size ht) with
    | Some r =>
        Ok (if occ_at ht r then update_slot ht r value
            else place_slot ht r key value)
    | None => Throw overflow_error
    end.
Proof.
  intros Hct Hfull. pose proof (ct_wf ht Hct) as Hwf.
  pose proof (wf_size ht Hwf) as Hn. pose proof (counted_bounds ht Hct) as Hc.
  rewrite insert_first by done.
  destruct (first_probe _ _ _ _) as [r|]; [|done].
  destruct (occ_at ht r); [done|].
  destruct (Z.eqb_spec (HashTable.elements_count ht) INT_MAX); [lia|done].
Qed.

(** In a table of the data model, the decrement of [elements_count] does
    not overflow. *)
Lemma remove_first_counted ht key :
  counted ht ->
  HashTable.remove hash_fn ht key =
    match first_probe (holds_key ht key) (Z.to_nat (HashTable.size ht))
            (home hash_fn key (HashTable.size ht)) (HashTable.size ht) with
    | Some r => Ok (clear_slot ht r)
    | None => Throw invalid_argument
    end.
Proof.
  intros Hct. pose proof (ct_wf ht Hct) as Hwf.
  pose proof (counted_bounds ht Hct) as Hc.
  rewrite remove_first by done.
  destruct (first_probe _ _ _ _) as [r|]; [|done].
  destruct (Z.eqb_spec (HashTable.elements_count ht) INT_MIN);
    [unfold INT_MIN in *; lia|done].
Qed.

Lemma insert_lands ht key :
  counted ht -> HashTable.elements_count ht <> HashTable.size ht ->
  exists r,
    0 <= r < HashTable.size ht /\
    first_probe (free_or_key ht key) (Z.to_nat (HashTable.size ht))
      (home hash_fn key (HashTable.size ht)) (HashTable.size ht) = Some r /\
    (occ_at ht r = true -> exists v0, holds ht r key v0).
Proof.
  intros Hct Hfull. pose proof (counted_bounds ht Hct) as Hb.
  destruct Hct as [Hwf Hc _ _ _]. pose proof (wf_size ht Hwf) as Hn.
  pose proof (home_range hash_fn key (HashTable.size ht) (proj1 Hn)) as Hh.
  destruct (free_slot_exists (HashTable.occupied ht)) as (f & Hf & Hfree).
  { rewrite <- Hc, (wf_occupied ht Hwf). lia. }
  rewrite (wf_occupied ht Hwf) in Hf.
  destruct (first_probe_complete (free_or_key ht key)
              (home hash_fn key (HashTable.size ht)) f (HashTable.size ht))
    as [r Hr]; [done|done| |].
  { unfold free_or_key, occ_at. by rewrite Hfree. }
  pose proof (first_probe_range _ _ _ _ _ (proj1 Hn) Hh Hr) as Hrn.
  exists r. split; [done|]. split; [done|]. intros Hocc.
  apply first_probe_test in Hr. unfold free_or_key in Hr.
  rewrite Hocc in Hr. cbn [negb orb] in Hr.
  apply holds_key_true; [done..|]. unfold holds_key. by rewrite Hocc, Hr.
Qed.

Lemma update_slot_counted ht r key v0 value :
  counted ht -> holds ht r key v0 -> int_range value ->
  counted (update_slot ht r value).
Proof.
  intros [Hwf Hc Hf Hl Hv] Hr Hval. destruct Hwf as [Hn Ht Ho].
  split; [split|..]; cbn; rewrite ?length_insert; try done.
  by apply Forall_insert.
Qed.

Lemma place_slot_counted ht r key value :
  counted ht -> 0 <= r < HashTable.size ht -> occ_at ht r = false ->
  int_range value -> counted (place_slot ht r key value).
Proof.
  intros [Hwf Hc Hf Hl Hv] Hr Hfree Hval. destruct Hwf as [Hn Ht Ho].
  split; [split|..]; cbn; rewrite ?length_insert; try done.
  - rewrite occupied_count_place by (done || lia). lia.
  - destruct (HashTable.first_index ht =? -1); lia.
  - lia.
  - by apply Forall_insert.
Qed.

Lemma clear_slot_counted ht r :
  counted ht -> 0 <= r < HashTable.size ht -> occ_at ht r = true ->
  counted (clear_slot ht r).
Proof.
  intros [Hwf Hc Hf Hl Hv] Hr Hocc. destruct Hwf as [Hn Ht Ho].
  split; [split|..]; cbn; rewrite ?length_insert; try done.
  - rewrite occupied_count_clear by (done || lia). lia.
  - destruct (r =? HashTable.first_index ht); lia.
  - destruct (r =? HashTable.last_index ht); lia.
  - apply Forall_insert; [done|]. unfold int_range, INT_MAX. cbn. lia.
Qed.

(** The entries of a table after a write. *)
Lemma update_slot_holds ht r key v0 value j k v :
  wf ht -> holds ht r key v0 ->
  holds (update_slot ht r value) j k v <->
  (j = r /\ k = key /\ v = value) \/ (j <> r /\ holds ht j k v).
Proof.
  intros Hwf Hr. unfold holds, update_slot. cbn.
  replace (fst (entry_at ht r)) with key
    by (destruct Hr as (_ & _ & He); unfold entry_at; by rewrite He).
  eapply update_holds; [apply Hwf|exact Hr].
Qed.

Lemma place_slot_holds ht r key value j k v :
  wf ht -> 0 <= r < HashTable.size ht -> occ_at ht r = false ->
  holds (place_slot ht r key value) j k v <->
  (j = r /\ k = key /\ v = value) \/ holds ht j k v.
Proof.
  intros Hwf Hr Hfree. unfold holds, place_slot. cbn.
  apply place_holds; (done || apply Hwf).
Qed.

Lemma update_slot_probed ht r key v0 value :
  probed hash_fn ht -> holds ht r key v0 -> int_range value ->
  probed hash_fn (update_slot ht r value).
Proof.
  intros [Hct Hnd Hch] Hr Hval. pose proof (ct_wf ht Hct) as Hwf.
  assert (fst (entry_at ht r) = key) as Hkey
    by (destruct Hr as (_ & _ & He); unfold entry_at; by rewrite He).
  split.
  - eapply update_slot_counted; eauto.
  - unfold no_duplicate_keys, update_slot. cbn. rewrite Hkey.
    eapply update_no_duplicates; [apply Hwf|exact Hr|exact Hnd].
  - unfold chained, update_slot. cbn. rewrite Hkey.
    eapply update_chained; [apply Hwf|exact Hr|exact Hch].
Qed.

Lemma place_slot_probed ht r key value :
  probed hash_fn ht -> (forall j v, ~ holds ht j key v) ->
  first_probe (fun i => negb (occ_at ht i)) (Z.to_nat (HashTable.size ht))
    (home hash_fn key (HashTable.size ht)) (HashTable.size ht) = Some r ->
  int_range value ->
  probed hash_fn (place_slot ht r key value).
Proof.
  intros [Hct Hnd Hch] Habsent Hprobe Hval. pose proof (ct_wf ht Hct) as Hwf.
  pose proof (wf_size ht Hwf) as Hn.
  pose proof (first_probe_range _ _ _ _ _ (proj1 Hn)
                (home_range hash_fn key _ (proj1 Hn)) Hprobe) as Hr.
  pose proof (first_probe_test _ _ _ _ _ Hprobe) as Hfree. cbn beta in Hfree.
  apply negb_true_iff in Hfree.
  split.
  - by apply place_slot_counted.
  - unfold no_duplicate_keys, place_slot. cbn.
    apply place_no_duplicates; (done || apply Hwf).
  - unfold chained, place_slot. cbn.
    apply place_chained; (done || apply Hwf || lia).
Qed.

(** [get] after a write of [key]. *)
Lemma get_after_write ht ht' key value :
  wf ht -> wf ht' -> no_duplicate_keys ht' ->
  (exists r, holds ht' r key value) ->
  (forall k, k <> key -> forall v,
     (exists j, holds ht' j k v) <-> (exists j, holds ht j k v)) ->
  forall k,
    HashTable.get hash_fn ht' k =
      if String.eqb k key then Ok value else HashTable.get hash_fn ht k.
Proof.
  intros Hwf Hwf' Hnd [r Hr] Hother k.
  destruct (String.eqb_spec k key) as [->|Hne].
  - eapply get_holds; eauto.
  - apply get_same; auto.
Qed.


(** A key that is in the table is where the loop of [insert] stops. *)
Lemma insert_finds_key ht key j v0 :
  probed hash_fn ht -> holds ht j key v0 ->
  first_probe (free_or_key ht key) (Z.to_nat (HashTable.size ht))
    (home hash_fn key (HashTable.size ht)) (HashTable.size ht) = Some j.
Proof.
  intros [Hct Hnd Hch] Hj. pose proof (ct_wf ht Hct) as Hwf.
  pose proof (wf_size ht Hwf) as Hn.
  rewrite <- (Hch j key v0 Hj).
  apply first_probe_ext; [lia|apply home_range; lia|].
  intros i Hi. cbn beta. unfold free_or_key. fold (occ_at ht i).
  destruct (occ_at ht i) eqn:Hocc; cbn [negb orb]; [|done].
  destruct (Z.eqb_spec i j) as [->|Hne].
  - destruct Hj as (_ & _ & He). unfold entry_at. rewrite He. apply String.eqb_refl.
  - destruct (String.eqb_spec (fst (entry_at ht i)) key) as [Hk|]; [|done].
    exfalso. apply Hne. apply (Hnd i j key (snd (entry_at ht i)) v0); [|done].
    repeat split; [lia|lia|done|]. fold (entry_at ht i).
    rewrite <- Hk. by destruct (entry_at ht i).
Qed.

(** A key that is not in the table goes to the first free slot. *)
Lemma insert_finds_free ht key r :
  (forall j v, ~ holds ht j key v) -> wf ht ->
  first_probe (free_or_key ht key) (Z.to_nat (HashTable.size ht))
    (home hash_fn key (HashTable.size ht)) (HashTable.size ht) = Some r ->
  occ_at ht r = false /\
  first_probe (fun i => negb (occ_at ht i)) (Z.to_nat (HashTable.size ht))
    (home hash_fn key (HashTable.size ht)) (HashTable.size ht) = Some r.
Proof.
  intros Habsent Hwf Hr. pose proof (wf_size ht Hwf) as Hn.
  pose proof (first_probe_range _ _ _ _ _ (proj1 Hn)
                (home_range hash_fn key _ (proj1 Hn)) Hr) as Hrn.
  assert (forall i, 0 <= i < HashTable.size ht ->
            free_or_key ht key i = negb (occ_at ht i)) as Hsame.
  { intros i Hi. unfold free_or_key.
    destruct (occ_at ht i) eqn:Hocc; cbn [negb orb]; [|done].
    destruct (String.eqb_spec (fst (entry_at ht i)) key) as [Hk|]; [|done].
    exfalso. apply (Habsent i (snd (entry_at ht i))).
    repeat split; [lia|lia|done|]. fold (entry_at ht i).
    rewrite <- Hk. by destruct (entry_at ht i). }
  split.
  - pose proof (first_probe_test _ _ _ _ _ Hr) as Ht.
    rewrite Hsame in Ht by done. by apply negb_true_iff.
  - rewrite <- Hr. apply first_probe_ext; [lia|apply home_range; lia|].
    intros i Hi. by rewrite Hsame.
Qed.

Lemma insert_not_full_spec ht key value :
  probed hash_fn ht -> HashTable.elements_count ht <> HashTable.size ht ->
  int_range value ->
  exists ht',
    HashTable.insert hash_fn ht key value = Ok ht' /\
    probed hash_fn ht' /\
    HashTable.size ht' = HashTable.size ht /\
    (forall k, HashTable.get hash_fn ht' k =
       if String.eqb k key then Ok value else HashTable.get hash_fn ht k) /\
    HashTable.elements_count ht' =
      match HashTable.get hash_fn ht key with
      | Ok _ => HashTable.elements_count ht
      | _ => HashTable.elements_count ht + 1
      end.
Proof.
  intros Hpr Hfull Hval. pose proof (pr_counted _ _ Hpr) as Hct.
  pose proof (ct_wf ht Hct) as Hwf.
  rewrite insert_first_counted by done.
  destruct (get_found_or_absent ht key Hwf) as [(j & v0 & Hj & ->)|[Habsent ->]].
  - rewrite (insert_finds_key ht key j v0 Hpr Hj).
    assert (occ_at ht j = true) as -> by apply Hj.
    pose proof (update_slot_probed ht j key v0 value Hpr Hj Hval) as Hpr'.
    eexists. split; [done|]. split; [done|]. split; [done|]. split; [|done].
    apply get_after_write; [done|apply Hpr'|apply Hpr'| |].
    + exists j. apply (update_slot_holds ht j key v0); auto.
    + intros k Hk v. split; intros [i Hi].
      * apply (update_slot_holds ht j key v0) in Hi as [(_ & -> & _)|[_ Hi]];
          [done|eauto|done..].
      * exists i. apply (update_slot_holds ht j key v0); [done..|].
        right. split; [|done]. intros ->.
        destruct Hi as (_ & _ & Hi), Hj as (_ & _ & Hj). congruence.
  - destruct (insert_lands ht key Hct Hfull) as (r & Hr & Hprobe & _).
    rewrite Hprobe.
    destruct (insert_finds_free ht key r Habsent Hwf Hprobe) as [Hfree Hprobe'].
    rewrite Hfree.
    pose proof (place_slot_probed ht r key value Hpr Habsent Hprobe' Hval) as Hpr'.
    eexists. split; [done|]. split; [done|]. split; [done|]. split; [|done].
    apply get_after_write; [done|apply Hpr'|apply Hpr'| |].
    + exists r. apply place_slot_holds; auto.
    + intros k Hk v. split; intros [i Hi].
      * apply place_slot_holds in Hi as [(_ & -> & _)|Hi]; [done|eauto|done..].
      * exists i. apply place_slot_holds; auto.
Qed.

(** [resize] keeps the data model and the answers of [get]. *)
Lemma resize_probed ht :
  counted ht -> no_duplicate_keys ht -> HashTable.size ht <= INT_MAX - 2000 ->
  exists ht',
    HashTable.resize hash_fn ht = Ok ht' /\
    probed hash_fn ht' /\
    HashTable.size ht' = HashTable.size ht + 2000 /\
    HashTable.elements_count ht' = HashTable.elements_count ht /\
    (forall k, HashTable.get hash_fn ht' k = HashTable.get hash_fn ht k).
Proof.
  intros Hct Hnd Hroom. pose proof (ct_wf ht Hct) as Hwf.
  destruct (resize_spec ht Hwf Hroom)
    as (ht' & -> & Hsize & Hcount & Hwf' & Hocc & Hf & Hl & Hent & HP & Hch).
  destruct (Hch Hnd) as [Hnd' Hch'].
  exists ht'. split; [done|]. split; [|split; [done|split; [done|]]].
  - split; [split|..]; try done.
    + rewrite Hcount, Hocc. apply Hct.
    + apply HP; [|apply Hct]. unfold int_range, INT_MAX. cbn. lia.
  - intros k. apply get_same; auto.
Qed.

(** [insert] on any table of the data model: it returns, the data model
    holds again, [get] answers [value] for [key] and is unchanged for the
    other keys, and the capacity grows by 2000 exactly when the table was
    full. *)
Lemma insert_spec ht key value :
  probed hash_fn ht ->
  (HashTable.elements_count ht = HashTable.size ht ->
   HashTable.size ht <= INT_MAX - 2000) ->
  int_range value ->
  exists ht',
    HashTable.insert hash_fn ht key value = Ok ht' /\
    probed hash_fn ht' /\
    HashTable.size ht' =
      (if HashTable.elements_count ht =? HashTable.size ht
       then HashTable.size ht + 2000 else HashTable.size ht) /\
    (forall k, HashTable.get hash_fn ht' k =
       if String.eqb k key then Ok value else HashTable.get hash_fn ht k) /\
    HashTable.elements_count ht' =
      match HashTable.get hash_fn ht key with
      | Ok _ => HashTable.elements_count ht
      | _ => HashTable.elements_count ht + 1
      end.
Proof.
  intros Hpr Hroom Hval.
  destruct (Z.eqb_spec (HashTable.elements_count ht) (HashTable.size ht)) as [Hfull|Hfull].
  - destruct (resize_probed ht (pr_counted _ _ Hpr) (pr_no_duplicates _ _ Hpr)
                (Hroom Hfull))
      as (ht1 & Hres & Hpr1 & Hsize1 & Hcount1 & Hget1).
    pose proof (wf_size ht (ct_wf ht (pr_counted _ _ Hpr))) as Hn.
    assert (HashTable.elements_count ht1 <> HashTable.size ht1) as Hfull1 by lia.
    destruct (insert_not_full_spec ht1 key value Hpr1 Hfull1 Hval)
      as (ht' & Hins & Hpr' & Hsize' & Hget' & Hcount').
    exists ht'. split; [|split; [done|split; [lia|split]]].
    + rewrite insert_full, Hres by done. cbn [bind].
      rewrite <- Hins. unfold HashTable.insert.
      destruct (Z.eqb_spec (HashTable.elements_count ht1) (HashTable.size ht1)); done.
    + intros k. rewrite Hget', Hget1. done.
    + rewrite Hcount', Hget1, Hcount1. done.
  - destruct (insert_not_full_spec ht key value Hpr Hfull Hval)
      as (ht' & Hins & Hpr' & Hsize' & Hget' & Hcount').
    exists ht'. done.
Qed.

End Tables.

(** * The operations keep the counters right *)

Section Counting.

Variable hash_fn : string -> N.

Lemma insert_not_full_counted ht key value :
  counted ht -> HashTable.elements_count ht <> HashTable.size ht ->
  exists ht',
    HashTable.insert hash_fn ht key value = Ok ht' /\
    HashTable.size ht' = HashTable.size ht /\
    (int_range value -> counted ht') /\
    (forall P : string * Z -> Prop,
       P (key, value) -> Forall P (HashTable.table ht) ->
       Forall P (HashTable.table ht')).
Proof.
  intros Hct Hfull. pose proof (ct_wf ht Hct) as Hwf.
  rewrite (insert_first_counted hash_fn) by done.
  destruct (insert_lands hash_fn ht key Hct Hfull) as (r & Hr & -> & Hkey).
  destruct (occ_at ht r) eqn:Hocc.
  - destruct (Hkey eq_refl) as [v0 Hv0].
    eexists. split; [done|]. split; [done|]. split.
    + intros Hval. eapply update_slot_counted; eauto.
    + intros P HP HF. cbn. apply Forall_insert; [done|].
      replace (fst (entry_at ht r)) with key; [done|].
      destruct Hv0 as (_ & _ & He). unfold entry_at. by rewrite He.
  - eexists. split; [done|]. split; [done|]. split.
    + intros Hval. by apply place_slot_counted.
    + intros P HP HF. cbn. by apply Forall_insert.
Qed.

Lemma resize_counted ht :
  counted ht -> HashTable.size ht <= INT_MAX - 2000 ->
  exists ht',
    HashTable.resize hash_fn ht = Ok ht' /\
    counted ht' /\
    HashTable.size ht' = HashTable.size ht + 2000 /\
    HashTable.elements_count ht' = HashTable.elements_count ht /\
    (forall P : string * Z -> Prop,
       P (EmptyString, 0) -> Forall P (HashTable.table ht) ->
       Forall P (HashTable.table ht')).
Proof.
  intros Hct Hroom. pose proof (ct_wf ht Hct) as Hwf.
  destruct (resize_spec hash_fn ht Hwf Hroom)
    as (ht' & -> & Hsize & Hcount & Hwf' & Hocc & Hf & Hl & Hent & HP & Hch).
  exists ht'. split; [done|]. split; [|done].
  split; try done.
  - rewrite Hcount, Hocc. apply Hct.
  - apply HP; [|apply Hct]. unfold int_range, INT_MAX. cbn. lia.
Qed.

Lemma resize_overflow ht :
  INT_MAX - 2000 < HashTable.size ht -> HashTable.resize hash_fn ht = Undefined.
Proof.
  intros H. unfold HashTable.resize.
  destruct (Z.ltb_spec (INT_MAX - 2000) (HashTable.size ht)); [done|lia].
Qed.

(** [insert] returns on every table of the data model that can still grow. *)
Lemma insert_total ht key value :
  counted ht ->
  (HashTable.elements_count ht = HashTable.size ht ->
   HashTable.size ht <= INT_MAX - 2000) ->
  exists ht',
    HashTable.insert hash_fn ht key value = Ok ht' /\
    HashTable.size ht' =
      (if HashTable.elements_count ht =? HashTable.size ht
       then HashTable.size ht + 2000 else HashTable.size ht) /\
    (int_range value -> counted ht') /\
    (forall P : string * Z -> Prop,
       P (EmptyString, 0) -> P (key, value) -> Forall P (HashTable.table ht) ->
       Forall P (HashTable.table ht')).
Proof.
  intros Hct Hroom.
  destruct (Z.eqb_spec (HashTable.elements_count ht) (HashTable.size ht)) as [Hfull|Hfull].
  - destruct (resize_counted ht Hct (Hroom Hfull))
      as (ht1 & Hres & Hct1 & Hsize1 & Hcount1 & HP1).
    pose proof (wf_size ht (ct_wf ht Hct)) as Hn.
    assert (HashTable.elements_count ht1 <> HashTable.size ht1) as Hfull1 by lia.
    destruct (insert_not_full_counted ht1 key value Hct1 Hfull1)
      as (ht' & Hins & Hsize' & Hct' & HP').
    exists ht'. split; [|split; [lia|split; [done|]]].
    + rewrite insert_full, Hres by done. cbn [bind].
      rewrite <- Hins. unfold HashTable.insert.
      destruct (Z.eqb_spec (HashTable.elements_count ht1) (HashTable.size ht1)); done.
    + intros P HP0 HP HF. apply HP'; [done|]. by apply HP1.
  - destruct (insert_not_full_counted ht key value Hct Hfull)
      as (ht' & Hins & Hsize' & Hct' & HP').
    exists ht'. split; [done|]. split; [done|]. split; [done|].
    intros P _. apply HP'.
Qed.

Lemma insert_counted ht key value ht' :
  counted ht -> int_range value ->
  HashTable.insert hash_fn ht key value = Ok ht' ->
  counted ht' /\
  (forall P : string * Z -> Prop,
     P (EmptyString, 0) -> P (key, value) -> Forall P (HashTable.table ht) ->
     Forall P (HashTable.table ht')).
Proof.
  intros Hct Hval Hins.
  destruct (Z_le_dec (HashTable.size ht) (INT_MAX - 2000)) as [Hroom|Hroom].
  - destruct (insert_total ht key value Hct (fun _ => Hroom))
      as (ht2 & Hins2 & _ & Hct2 & HP2).
    rewrite Hins in Hins2. injection Hins2 as <-. auto.
  - destruct (Z.eq_dec (HashTable.elements_count ht) (HashTable.size ht)) as [Hfull|Hfull].
    + rewrite insert_full, resize_overflow in Hins by (done || lia). done.
    + destruct (insert_total ht key value Hct ltac:(done))
        as (ht2 & Hins2 & _ & Hct2 & HP2).
      rewrite Hins in Hins2. injection Hins2 as <-. auto.
Qed.

Lemma remove_counted ht key ht' :
  counted ht -> HashTable.remove hash_fn ht key = Ok ht' -> counted ht'.
Proof.
  intros Hct. pose proof (ct_wf ht Hct) as Hwf. pose proof (wf_size ht Hwf) as Hn.
  rewrite (remove_first_counted hash_fn) by done.
  destruct (first_probe _ _ _ _) as [r|] eqn:E; [|done].
  intros [= <-].
  pose proof (first_probe_range _ _ _ _ _ (proj1 Hn)
                (home_range hash_fn key _ (proj1 Hn)) E) as Hr.
  apply first_probe_test in E. unfold holds_key in E.
  apply andb_true_iff in E as [Hocc _].
  by apply clear_slot_counted.
Qed.

Lemma resize_counted_result ht ht' :
  counted ht -> HashTable.resize hash_fn ht = Ok ht' -> counted ht'.
Proof.
  intros Hct Hres.
  destruct (Z_le_dec (HashTable.size ht) (INT_MAX - 2000)) as [Hroom|Hroom].
  - destruct (resize_counted ht Hct Hroom) as (ht2 & Hres2 & Hct2 & _).
    rewrite Hres in Hres2. by injection Hres2 as <-.
  - rewrite resize_overflow in Hres by lia. done.
Qed.

Lemma new_counted n ht :
  0 < n <= INT_MAX -> HashTable.new n = Ok ht ->
  counted ht /\ HashTable.size ht = n /\ HashTable.elements_count ht = 0 /\
  HashTable.table ht = replicate (Z.to_nat n) (EmptyString, 0) /\
  forall j k v, ~ holds ht j k v.
Proof.
  intros Hn. unfold HashTable.new, vec_make.
  destruct (Z.ltb_spec n 0); [lia|]. cbn [bind]. intros [= <-].
  split; [|split; [done|split; [done|split; [done|]]]].
  - split; [split|..]; cbn; rewrite ?length_replicate; try lia.
    + by rewrite occupied_count_replicate.
    + apply Forall_replicate. unfold int_range, INT_MAX. cbn. lia.
  - intros j k v (Hj & Ho & _). cbn in *. unfold occ_in in Ho.
    rewrite lookup_replicate_2 in Ho by lia. done.
Qed.

End Counting.

(** * Tables built by the public operations *)

Section Reachable.

Variable hash_fn : string -> N.

Lemma counted_storable ht : counted ht -> short_keys ht -> storable ht.
Proof.
  intros Hct Hkeys. pose proof (counted_bounds ht Hct) as Hb.
  destruct Hct as [Hwf Hc Hf Hl Hv]. pose proof (wf_size ht Hwf) as Hn.
  split; try done; unfold int_range, INT_MAX in *; lia.
Qed.

Lemma resize_zero :
  HashTable.resize hash_fn zero_table =
    Ok (HashTable.mk (replicate 2000 (EmptyString, 0)) (replicate 2000 false)
          (-1) (-1) 2000 0).
Proof. reflexivity. Qed.

Lemma counted_fresh_2000 :
  counted (HashTable.mk (replicate 2000 (EmptyString, 0)) (replicate 2000 false)
             (-1) (-1) 2000 0).
Proof.
  apply (new_counted 2000); [unfold INT_MAX; lia|reflexivity].
Qed.

Lemma short_keys_fresh_2000 :
  short_keys (HashTable.mk (replicate 2000 (EmptyString, 0)) (replicate 2000 false)
                (-1) (-1) 2000 0).
Proof. apply Forall_replicate. simpl. lia. Qed.

Lemma insert_zero key value :
  HashTable.insert hash_fn zero_table key value =
  HashTable.insert hash_fn
    (HashTable.mk (replicate 2000 (EmptyString, 0)) (replicate 2000 false)
       (-1) (-1) 2000 0) key value.
Proof. rewrite insert_full, resize_zero by done. reflexivity. Qed.

Lemma save_load_zero fresh :
  exists file,
    HashTable.save_to_file zero_table true = Ok file /\
    HashTable.load_from_file fresh (Some file) = Ok (true, zero_table).
Proof.
  eexists. split; [reflexivity|].
  rewrite load_from_file_header by (simpl; lia).
  unfold loaded. cbn [header_field]. 
  change (header_field 0 _) with 0. change (header_field 4 _) with 0.
  change (header_field 8 _) with (-1). change (header_field 12 _) with (-1).
  cbn [Z.ltb Z.compare Z.to_nat parse_slots map]. rewrite !resize_0. done.
Qed.

Lemma sound_new n ht : 0 <= n <= INT_MAX -> HashTable.new n = Ok ht -> sound ht.
Proof.
  intros Hn Hnew. destruct (Z.eq_dec n 0) as [->|Hne].
  - right. by injection Hnew as <-.
  - left. eapply new_counted; [|done]. lia.
Qed.

Lemma sound_insert ht key value ht' :
  sound ht -> int_range value ->
  HashTable.insert hash_fn ht key value = Ok ht' ->
  counted ht' /\
  ((String.length key <= 1000)%nat -> short_keys ht -> short_keys ht').
Proof.
  intros [Hct| ->] Hval Hins.
  - destruct (insert_counted hash_fn ht key value ht' Hct Hval Hins) as [Hct' HP].
    split; [done|]. intros Hkey Hkeys. apply HP; [simpl; lia|done|done].
  - rewrite insert_zero in Hins.
    destruct (insert_counted hash_fn _ key value ht' counted_fresh_2000 Hval Hins)
      as [Hct' HP].
    split; [done|]. intros Hkey _. apply HP; [simpl; lia|done|].
    apply short_keys_fresh_2000.
Qed.

Lemma sound_remove ht key ht' :
  sound ht -> HashTable.remove hash_fn ht key = Ok ht' -> sound ht'.
Proof.
  intros [Hct| ->] Hrem; [|done].
  left. eapply remove_counted; eauto.
Qed.

Lemma sound_resize ht ht' :
  sound ht -> HashTable.resize hash_fn ht = Ok ht' -> sound ht'.
Proof.
  intros [Hct| ->] Hres; left.
  - eapply resize_counted_result; eauto.
  - rewrite resize_zero in Hres. injection Hres as <-. apply counted_fresh_2000.
Qed.

Lemma sound_save_load saved fresh :
  sound saved -> short_keys saved ->
  exists file,
    HashTable.save_to_file saved true = Ok file /\
    HashTable.load_from_file fresh (Some file) = Ok (true, saved).
Proof.
  intros [Hct| ->] Hkeys.
  - destruct (save_load_storable saved (counted_storable saved Hct Hkeys))
      as (file & Hsave & Hload). eauto.
  - apply save_load_zero.
Qed.

Lemma sound_counts ht :
  sound ht ->
  HashTable.elements_count ht = fst (HashTable.get_stats ht) /\
  0 <= HashTable.elements_count ht <= HashTable.size ht.
Proof.
  rewrite get_stats_count. cbn [fst]. intros [Hct| ->].
  - split; [apply Hct|by apply counted_bounds].
  - split; [done|]. cbn. lia.
Qed.

Lemma reachable_sound ht : reachable hash_fn short_keys ht -> sound ht.
Proof.
  induction 1 as [n ht Hn Hnew
                 |ht key value ht' _ IH Hval Hins
                 |ht key ht' _ IH Hrem
                 |ht ht' _ IH Hres
                 |ht saved file result ht' _ IH _ IHsaved Hkeys Hsave Hload].
  - eapply sound_new; eauto.
  - left. eapply sound_insert; eauto.
  - eapply sound_remove; eauto.
  - eapply sound_resize; eauto.
  - destruct (sound_save_load saved ht IHsaved Hkeys) as (file' & Hsave' & Hload').
    rewrite Hsave in Hsave'. injection Hsave' as <-.
    rewrite Hload in Hload'. by injection Hload' as _ ->.
Qed.

(** C9, as amended. In every table that is built from an empty table by
    [insert], [remove], growth, [save_to_file] and [load_from_file], where
    every file that is loaded was saved from a table whose keys have at
    most 1000 characters (so that loading does not stop early),
    [elements_count] is the number of occupied slots, as [get_stats] counts
    them, and lies between 0 and the capacity. *)
Theorem count_is_number_of_occupied_slots ht :
  reachable hash_fn short_keys ht ->
  HashTable.elements_count ht = fst (HashTable.get_stats ht) /\
  0 <= HashTable.elements_count ht <= HashTable.size ht.
Proof. intros H. apply sound_counts. by apply reachable_sound. Qed.

End Reachable.

(** * Round trip, growth and word counts *)

Section Pipeline.

Variable hash_fn : string -> N.

Lemma new_short_keys n ht : HashTable.new n = Ok ht -> short_keys ht.
Proof.
  unfold HashTable.new, vec_make. destruct (n <? 0); [done|]. cbn [bind].
  intros [= <-]. apply Forall_replicate. simpl. lia.
Qed.

Lemma insert_all_sound ht entries store :
  sound ht -> short_keys ht ->
  Forall (fun e : string * Z =>
            (String.length (fst e) <= 1000)%nat /\ int_range (snd e)) entries ->
  insert_all hash_fn ht entries = Ok store ->
  sound store /\ short_keys store.
Proof.
  revert ht. induction entries as [|e entries IH]; intros ht Hs Hkeys Hall; cbn.
  - by intros [= <-].
  - inversion_clear Hall as [|? ? [Hkey Hval] Hrest].
    destruct (HashTable.insert hash_fn ht (fst e) (snd e)) as [ht'| |] eqn:Hins;
      cbn [bind]; [|done..].
    destruct (sound_insert hash_fn ht (fst e) (snd e) ht' Hs Hval Hins) as [Hct Hk].
    apply IH; [by left|auto|done].
Qed.

(** C1. A table built from an empty one by a sequence of inserts whose keys
    have at most 1000 characters (no key stops the loader) is given back by
    [save_to_file] followed by [load_from_file]: the file is written, the
    load returns [true], and the table it leaves is the saved one, member
    by member and slot by slot, whatever table it is loaded into. *)
Theorem save_then_load_gives_table_back n entries ht0 store fresh :
  0 <= n <= INT_MAX -> HashTable.new n = Ok ht0 ->
  insert_all hash_fn ht0 entries = Ok store ->
  Forall (fun e : string * Z =>
            (String.length (fst e) <= 1000)%nat /\ int_range (snd e)) entries ->
  exists file,
    HashTable.save_to_file store true = Ok file /\
    HashTable.load_from_file fresh (Some file) = Ok (true, store).
Proof.
  intros Hn Hnew Hins Hall.
  destruct (insert_all_sound ht0 entries store) as [Hs Hkeys]; try done.
  - eapply sound_new; eauto.
  - eapply new_short_keys; eauto.
  - by apply sound_save_load.
Qed.


(** ** Counting words *)

Lemma new_probed n ht :
  0 < n <= INT_MAX -> HashTable.new n = Ok ht ->
  probed hash_fn ht /\ HashTable.size ht = n /\ HashTable.elements_count ht = 0 /\
  forall k, HashTable.get hash_fn ht k = Throw invalid_argument.
Proof.
  intros Hn Hnew.
  destruct (new_counted n ht Hn Hnew) as (Hct & Hsize & Hcount & _ & Hnone).
  split; [|split; [done|split; [done|]]].
  - split; [done| |].
    + intros i j k v w Hi. exfalso. eapply Hnone; eauto.
    + intros j k v Hj. exfalso. eapply Hnone; eauto.
  - intros k. apply get_absent; [apply Hct|]. intros j v. apply Hnone.
Qed.

Lemma count_word_spec ht word :
  probed hash_fn ht ->
  (HashTable.elements_count ht = HashTable.size ht ->
   HashTable.size ht <= INT_MAX - 2000) ->
  (forall c, HashTable.get hash_fn ht word = Ok c -> int_range (c + 1)) ->
  exists ht',
    TextProcessor.count_word hash_fn ht word = Ok ht' /\
    probed hash_fn ht' /\
    HashTable.size ht' =
      (if HashTable.elements_count ht =? HashTable.size ht
       then HashTable.size ht + 2000 else HashTable.size ht) /\
    (forall k, HashTable.get hash_fn ht' k =
       if String.eqb k word
       then Ok (match HashTable.get hash_fn ht word with Ok c => c + 1 | _ => 1 end)
       else HashTable.get hash_fn ht k) /\
    HashTable.elements_count ht' =
      match HashTable.get hash_fn ht word with
      | Ok _ => HashTable.elements_count ht
      | _ => HashTable.elements_count ht + 1
      end.
Proof.
  intros Hpr Hroom Hint. unfold TextProcessor.count_word.
  destruct (get_found_or_absent hash_fn ht word (ct_wf _ (pr_counted _ _ Hpr)))
    as [(j & c & _ & Hget)|[_ Hget]].
  - pose proof (Hint c Hget) as Hc.
    destruct (insert_spec hash_fn ht word (c + 1) Hpr Hroom Hc)
      as (ht' & Hins & Hpr' & Hsize & Hgets & Hcount).
    rewrite Hget in *. cbn [bind].
    destruct (Z.eqb_spec c INT_MAX); [unfold int_range in Hc; lia|].
    rewrite Hins. eauto 10.
  - destruct (insert_spec hash_fn ht word 1 Hpr Hroom)
      as (ht' & Hins & Hpr' & Hsize & Hgets & Hcount).
    { unfold int_range, INT_MAX. cbn. lia. }
    rewrite Hget in *. cbn [bind]. rewrite Hins. eauto 10.
Qed.

Lemma extract_words_hello_world ht :
  TextProcessor.extract_words hash_fn (Some "Hello, World! hello"%string) ht =
    (ht2 <- (ht1 <- TextProcessor.count_word hash_fn ht "hello" ;;
             TextProcessor.count_word hash_fn ht1 "world") ;;
     TextProcessor.count_word hash_fn ht2 "hello").
Proof.
  cbv -[TextProcessor.count_word].
  destruct (TextProcessor.count_word hash_fn ht "hello") as [ht1|e|]; [|done..].
  cbv -[TextProcessor.count_word].
  destruct (TextProcessor.count_word hash_fn ht1 "world") as [ht2|e|]; [|done..].
  cbv -[TextProcessor.count_word].
  by destruct (TextProcessor.count_word hash_fn ht2 "hello").
Qed.

(** C8. Run on the text "Hello, World! hello" and an empty table of any
    capacity [n], [extract_words] returns a table in which [get] gives 2
    for "hello", 1 for "world" and KeyNotFound for every other key, and
    whose statistics count two occupied slots (in a capacity that has grown
    by 2000 when [n] is 1 or 2). *)
Theorem hello_world_hello_counts n ht0 :
  0 < n <= INT_MAX -> HashTable.new n = Ok ht0 ->
  exists ht,
    TextProcessor.extract_words hash_fn (Some "Hello, World! hello"%string) ht0
      = Ok ht /\
    HashTable.get hash_fn ht "hello" = Ok 2 /\
    HashTable.get hash_fn ht "world" = Ok 1 /\
    (forall k, k <> "hello"%string -> k <> "world"%string ->
       HashTable.get hash_fn ht k = Throw invalid_argument) /\
    HashTable.get_stats ht = (2, if n <=? 2 then n + 2000 else n).
Proof.
  intros Hn Hnew. rewrite extract_words_hello_world.
  destruct (new_probed n ht0) as (Hpr0 & Hsize0 & Hcount0 & Hget0); [done..|].
  destruct (count_word_spec ht0 "hello" Hpr0)
    as (ht1 & -> & Hpr1 & Hsize1 & Hget1 & Hcount1); [lia| |].
  { intros c. by rewrite Hget0. }
  rewrite Hget0, Hcount0, Hsize0 in *. cbn [bind].
  destruct (Z.eqb_spec 0 n) as [|_]; [lia|].
  assert (HashTable.get hash_fn ht1 "world" = Throw invalid_argument) as Hw1
    by (rewrite Hget1, Hget0; done).
  destruct (count_word_spec ht1 "world" Hpr1)
    as (ht2 & -> & Hpr2 & Hsize2 & Hget2 & Hcount2).
  { unfold INT_MAX in *. lia. }
  { intros c. by rewrite Hw1. }
  rewrite Hw1, Hcount1, Hsize1 in *. cbn [bind].
  assert (HashTable.get hash_fn ht2 "hello" = Ok 1) as Hh2
    by (rewrite Hget2, Hget1; done).
  destruct (count_word_spec ht2 "hello" Hpr2)
    as (ht3 & -> & Hpr3 & Hsize3 & Hget3 & Hcount3).
  { rewrite Hsize2, Hcount2.
    destruct (Z.eqb_spec (0 + 1) n); unfold INT_MAX in *; lia. }
  { intros c. rewrite Hh2. intros [= <-]. unfold int_range, INT_MAX. cbn. lia. }
  rewrite Hh2, Hcount2, Hsize2 in *.
  exists ht3. split; [done|]. split; [by rewrite Hget3|].
  split; [by rewrite Hget3, Hget2|]. split.
  - intros k Hk1 Hk2. rewrite Hget3, Hget2, Hget1, Hget0.
    destruct (String.eqb_spec k "hello"); [done|].
    destruct (String.eqb_spec k "world"); [done|]. done.
  - rewrite get_stats_count, <- (ct_count _ (pr_counted _ _ Hpr3)), Hcount3, Hsize3.
    f_equal.
    destruct (Z.leb_spec n 2);
      repeat match goal with |- context [?a =? ?b] => destruct (Z.eqb_spec a b) end;
      lia.
Qed.

(** A table built by inserts alone is a table of the data model. *)
Lemma insert_probed ht key value ht' :
  probed hash_fn ht -> int_range value ->
  HashTable.insert hash_fn ht key value = Ok ht' -> probed hash_fn ht'.
Proof.
  intros Hpr Hval Hins.
  destruct (Z_le_dec (HashTable.size ht) (INT_MAX - 2000)) as [Hroom|Hroom].
  - destruct (insert_spec hash_fn ht key value Hpr (fun _ => Hroom) Hval)
      as (ht2 & Hins2 & Hpr2 & _).
    rewrite Hins in Hins2. by injection Hins2 as <-.
  - destruct (Z.eq_dec (HashTable.elements_count ht) (HashTable.size ht)) as [Hfull|Hfull].
    + rewrite insert_full, resize_overflow in Hins by (done || lia). done.
    + destruct (insert_spec hash_fn ht key value Hpr ltac:(done) Hval)
        as (ht2 & Hins2 & Hpr2 & _).
      rewrite Hins in Hins2. by injection Hins2 as <-.
Qed.

Lemma insert_all_probed n ht0 entries store :
  0 < n <= INT_MAX -> HashTable.new n = Ok ht0 ->
  Forall (fun e : string * Z => int_range (snd e)) entries ->
  insert_all hash_fn ht0 entries = Ok store ->
  probed hash_fn store.
Proof.
  intros Hn Hnew Hall.
  destruct (new_probed n ht0 Hn Hnew) as (Hpr & _). clear Hn Hnew.
  revert ht0 Hpr. induction entries as [|e entries IH]; intros ht Hpr; cbn.
  - by intros [= <-].
  - inversion_clear Hall as [|? ? Hval Hrest].
    destruct (HashTable.insert hash_fn ht (fst e) (snd e)) as [ht'| |] eqn:Hins;
      cbn [bind]; [|done..].
    apply IH; [done|]. eapply insert_probed; eauto.
Qed.

End Pipeline.

(** * Examples on the sample tables *)

Lemma gap_table_wf : wf gap_table.
Proof. concrete_wf. Qed.

Lemma ab_table_wf : wf ab_table.
Proof. concrete_wf. Qed.

Lemma gap_script_result : gap_script = Ok gap_table.
Proof. reflexivity. Qed.

Lemma full_script_result : full_script = Ok full_table.
Proof. reflexivity. Qed.

(** C4: slot 1, the home of "b", is empty and "b" sits in slot 2 behind it;
    [get] returns its value, where the rule that stops at an empty slot reports
    KeyNotFound. *)
Lemma get_does_not_stop_at_empty_slot :
  gap_script = Ok gap_table /\
  home length_hash "b" 4 = 1 /\
  occ_at gap_table 1 = false /\
  HashTable.get length_hash gap_table "b" = Ok 2 /\
  get_stopping_at_empty 4 gap_table 1 "b" = Throw invalid_argument.
Proof. repeat split. Qed.

Lemma get_skips_empty_slots_witness :
  wf gap_table /\ HashTable.get length_hash gap_table "b" = Ok 2.
Proof.
  split; [exact gap_table_wf|].
  apply (get_skips_empty_slots length_hash gap_table "b" gap_table_wf).
  exists 1. split; [simpl; lia|]. split.
  - concrete.
  - intros d' Hd'. assert (d' = 0) as -> by lia. reflexivity.
Defined.



(** C6: in the full two-slot table "a" sits in slot 1; inserting "a" again
    first grows the table, which moves "a" to slot 2 and changes the
    capacity, [first_index] and [last_index]. *)
Lemma insert_existing_key_into_full_table :
  full_script = Ok full_table /\
  holds full_table 1 "a" 1 /\
  HashTable.first_index full_table = 1 /\
  HashTable.last_index full_table = 0 /\
  (ht <- HashTable.insert length_hash full_table "a" 5 ;;
   Ok (HashTable.size ht, HashTable.elements_count ht,
       HashTable.first_index ht, HashTable.last_index ht,
       entry_at ht 1, entry_at ht 2))
  = Ok (2002, 2, 2, 2, ("b"%string, 2), ("a"%string, 5)).
Proof. split; [reflexivity|]. split; [concrete|]. repeat split. Qed.

Lemma insert_overwrites_reached_key_witness :
  HashTable.insert length_hash ab_table "b" 7 =
    Ok (HashTable.mk
          [(EmptyString, 0); ("a"%string, 1); ("b"%string, 7); (EmptyString, 0)]
          [false; true; true; false] 1 2 4 2).
Proof.
  apply (insert_overwrites_reached_key length_hash ab_table "b" 7 1 2).
  - exact ab_table_wf.
  - discriminate.
  - simpl. lia.
  - concrete.
  - intros d' Hd'. assert (d' = 0) as -> by lia. reflexivity.
Defined.

(** What the amended C6 leaves out: "b" sits in slot 2 behind the empty
    slot 1, its home; [insert] stops at slot 1 and stores "b" there too. *)
Lemma insert_behind_gap_stores_key_twice :
  HashTable.insert length_hash gap_table "b" 7 =
    Ok (HashTable.mk
          [(EmptyString, 0); ("b"%string, 7); ("b"%string, 2); (EmptyString, 0)]
          [false; true; true; false] 1 1 4 2).
Proof. reflexivity. Qed.

(** C5: with the sample hash the three insertions leave "a" in slot 1 and
    "b" in slot 2; [first_index] is 1 and [last_index] is 2, the slot of
    "b", not the slot of "a". *)
Lemma scenario_last_index_is_slot_of_b :
  (ht <- HashTable.new 4 ;;
   ht <- HashTable.insert length_hash ht "a" 1 ;;
   ht <- HashTable.insert length_hash ht "b" 2 ;;
   ht <- HashTable.insert length_hash ht "a" 5 ;;
   Ok (HashTable.get_stats ht, HashTable.get length_hash ht "a",
       HashTable.get length_hash ht "b",
       HashTable.first_index ht, HashTable.last_index ht,
       entry_at ht 1, entry_at ht 2))
  = Ok ((2, 4), Ok 5, Ok 2, 1, 2, ("a"%string, 5), ("b"%string, 2)).
Proof. reflexivity. Qed.

Lemma int_range_small z : -1000 <= z <= 1000 -> int_range z.
Proof. unfold int_range, INT_MAX. lia. Qed.

Lemma save_then_load_gives_table_back_witness :
  exists file,
    HashTable.save_to_file ab5_table true = Ok file /\
    HashTable.load_from_file full_table (Some file) = Ok (true, ab5_table).
Proof.
  apply (save_then_load_gives_table_back length_hash 4
           [("a"%string, 1); ("b"%string, 2); ("a"%string, 5)] empty4).
  - unfold INT_MAX. lia.
  - reflexivity.
  - reflexivity.
  - repeat constructor; simpl; unfold int_range, INT_MAX; lia.
Defined.

Lemma full_table_counted : counted full_table.
Proof.
  split; [concrete_wf|reflexivity|simpl; lia|simpl; lia|].
  repeat constructor; simpl; unfold int_range, INT_MAX; lia.
Qed.




Lemma hello_world_hello_counts_witness :
  exists ht,
    TextProcessor.extract_words length_hash (Some "Hello, World! hello"%string)
      empty5000 = Ok ht /\
    HashTable.get length_hash ht "hello" = Ok 2 /\
    HashTable.get length_hash ht "world" = Ok 1 /\
    (forall k, k <> "hello"%string -> k <> "world"%string ->
       HashTable.get length_hash ht k = Throw invalid_argument) /\
    HashTable.get_stats ht = (2, 5000).
Proof.
  apply (hello_world_hello_counts length_hash 5000 empty5000).
  - unfold INT_MAX. lia.
  - reflexivity.
Defined.

Lemma gap_table_reachable : reachable length_hash short_keys gap_table.
Proof.
  apply (reach_remove _ _ ab_table "a"); [|reflexivity].
  apply (reach_insert _ _ a_table "b" 2); [|by apply int_range_small|reflexivity].
  apply (reach_insert _ _ empty4 "a" 1); [|by apply int_range_small|reflexivity].
  apply (reach_new _ _ 4); [unfold INT_MAX; lia|reflexivity].
Qed.

Lemma count_is_number_of_occupied_slots_witness :
  HashTable.elements_count gap_table = fst (HashTable.get_stats gap_table) /\
  0 <= HashTable.elements_count gap_table <= HashTable.size gap_table.
Proof.
  apply (count_is_number_of_occupied_slots length_hash gap_table).
  exact gap_table_reachable.
Defined.

(** C9: a key of 1001 characters is inserted into a table of four slots
    and the table is saved; loading the file into an empty table of four
    slots reads the header, with [elements_count = 1], and stops at slot 1,
    whose key length fails the test of the loader. The loaded table has
    [elements_count = 1] and no occupied slot. *)
Lemma load_of_long_key_breaks_count :
  reachable length_hash (fun _ => True) truncated_table /\
  HashTable.elements_count truncated_table = 1 /\
  HashTable.get_stats truncated_table = (0, 4) /\
  String.length long_key = 1001%nat.
Proof.
  split; [|repeat split].
  assert (reachable length_hash (fun _ => True) empty4) as Hempty.
  { apply (reach_new _ _ 4); [unfold INT_MAX; lia|reflexivity]. }
  eapply (reach_load _ _ empty4 long_key_table _ true); [done| |done| |].
  - apply (reach_insert _ _ empty4 long_key 1);
      [done|by apply int_range_small|vm_compute; reflexivity].
  - reflexivity.
  - vm_compute. reflexivity.
Qed.

(** * The checksum *)

Section Checksum.

Variable MD5_CTX : Type.
Variable MD5_Init : MD5_CTX.
Variable MD5_Update : MD5_CTX -> list ascii -> MD5_CTX.
Variable MD5_Final : MD5_CTX -> list ascii.

(** A whole buffer goes to [MD5_Update]. *)
Lemma read_loop_whole_buffer fuel buffer rest ctx :
  length buffer = 4096%nat ->
  TextProcessor.read_loop MD5_CTX MD5_Update (S fuel) (buffer ++ rest) ctx =
  TextProcessor.read_loop MD5_CTX MD5_Update fuel rest (MD5_Update ctx buffer).
Proof.
  intros Hlen. cbn [TextProcessor.read_loop]. unfold stream_read.
  change (Z.to_nat 4096) with 4096%nat.
  rewrite take_app_length', drop_app_length' by done.
  rewrite length_app, Hlen.
  destruct (Nat.leb_spec 4096 (4096 + length rest)); [|lia].
  rewrite <- Hlen, firstn_all. done.
Qed.

(** The last buffer, when it is not full, does not. *)
Lemma read_loop_partial_buffer fuel file ctx :
  (length file < 4096)%nat ->
  TextProcessor.read_loop MD5_CTX MD5_Update fuel file ctx = ctx.
Proof.
  intros Hlen. destruct fuel; [done|].
  cbn [TextProcessor.read_loop]. unfold stream_read.
  change (Z.to_nat 4096) with 4096%nat.
  destruct (Nat.leb_spec 4096 (length file)); [lia|done].
Qed.

(** Whatever MD5 does, a file of fewer than 4096 bytes gets the checksum of
    the empty file. *)
Lemma compute_md5_short_file file :
  (length file < 4096)%nat ->
  TextProcessor.compute_md5 MD5_CTX MD5_Init MD5_Update MD5_Final (Some file) =
  TextProcessor.compute_md5 MD5_CTX MD5_Init MD5_Update MD5_Final (Some []).
Proof.
  intros Hlen. unfold TextProcessor.compute_md5.
  rewrite !read_loop_partial_buffer by (simpl; lia). done.
Qed.

End Checksum.

(** C7: the files "a" and "b" of one byte each. [compute_md5] gives both of
    them the checksum of the empty file, in 29 characters (the digest bytes
    00, 04 and 09 take one character each), where the MD5 of "a" in
    hexadecimal is another string, of 32 characters. *)
Theorem compute_md5_of_one_byte_file :
  checksum (Some ["a"%char]) = Ok "d41d8cd98f0b24e980998ecf8427e"%string /\
  checksum (Some ["b"%char]) = Ok "d41d8cd98f0b24e980998ecf8427e"%string /\
  checksum (Some []) = Ok "d41d8cd98f0b24e980998ecf8427e"%string /\
  String.length "d41d8cd98f0b24e980998ecf8427e" = 29%nat /\
  digest_in_hex ["a"%char] = "0cc175b9c0f1b6a831c399e269772661"%string /\
  digest_in_hex [] = "d41d8cd98f00b204e9800998ecf8427e"%string.
Proof. repeat split; vm_compute; reflexivity. Qed.

(** * Further properties: the operations of the table *)

Section Operations.

Variable hash_fn : string -> N.

(** The slots of the table that [remove] returns. *)
Lemma clear_slot_holds ht r j k v :
  wf ht -> 0 <= r < HashTable.size ht ->
  holds (clear_slot ht r) j k v <-> j <> r /\ holds ht j k v.
Proof.
  intros Hwf Hr. unfold holds, holds_in, clear_slot. cbn.
  pose proof (wf_table ht Hwf). pose proof (wf_occupied ht Hwf).
  split.
  - intros (Hj & Ho & He).
    rewrite occ_in_insert in Ho by lia. rewrite entry_in_insert in He by lia.
    destruct (Z.eqb_spec j r); [done|]. done.
  - intros (Hne & Hj & Ho & He).
    rewrite occ_in_insert by lia. rewrite entry_in_insert by lia.
    destruct (Z.eqb_spec j r); [done|]. done.
Qed.

Lemma clear_slot_wf ht r : wf ht -> wf (clear_slot ht r).
Proof.
  intros [Hn Ht Ho]. split; cbn; [done|by rewrite length_insert..].
Qed.

Lemma clear_slot_no_duplicates ht r :
  wf ht -> 0 <= r < HashTable.size ht ->
  no_duplicate_keys ht -> no_duplicate_keys (clear_slot ht r).
Proof.
  intros Hwf Hr Hnd i j k v w Hi Hj.
  apply (clear_slot_holds ht r) in Hi as [_ Hi]; [|done..].
  apply (clear_slot_holds ht r) in Hj as [_ Hj]; [|done..].
  eapply Hnd; eauto.
Qed.

Lemma stats_counted ht :
  counted ht -> HashTable.get_stats ht = (HashTable.elements_count ht, HashTable.size ht).
Proof. intros Hct. rewrite get_stats_count. by rewrite (ct_count ht Hct). Qed.


(** [remove] and [get] search in the same way, so one fails when the other
    does. *)
Lemma remove_throws_iff ht key :
  wf ht ->
  (HashTable.remove hash_fn ht key = Throw invalid_argument <->
   HashTable.get hash_fn ht key = Throw invalid_argument).
Proof.
  intros Hwf. rewrite remove_first, get_first by done.
  destruct (first_probe _ _ _ _) as [r|]; [|done].
  destruct (HashTable.elements_count ht =? INT_MIN); split; discriminate.
Qed.

Lemma new_table n :
  0 <= n ->
  HashTable.new n =
    Ok (HashTable.mk (replicate (Z.to_nat n) (EmptyString, 0))
          (replicate (Z.to_nat n) false) (-1) (-1) n 0).
Proof.
  intros Hn. unfold HashTable.new, vec_make.
  destruct (Z.ltb_spec n 0); [lia|done].
Qed.

(** X1. A table that was just constructed is empty: no occupied slot, no
    first and no last entry, and every key is missing for [get] and for
    [remove]. *)
Theorem new_table_is_empty n :
  0 < n <= INT_MAX ->
  exists ht,
    HashTable.new n = Ok ht /\
    HashTable.get_stats ht = (0, n) /\
    HashTable.get_first ht = Throw runtime_error /\
    HashTable.get_last ht = Throw runtime_error /\
    forall key,
      HashTable.get hash_fn ht key = Throw invalid_argument /\
      HashTable.remove hash_fn ht key = Throw invalid_argument.
Proof.
  intros Hn. eexists. split; [apply new_table; lia|].
  destruct (new_probed hash_fn n _ Hn (new_table n ltac:(lia)))
    as (Hpr & _ & _ & Hget).
  pose proof (pr_counted _ _ Hpr) as Hct.
  split; [by rewrite (stats_counted _ Hct)|].
  split; [done|]. split; [done|]. intros key. split; [apply Hget|].
  apply remove_throws_iff; [apply Hct|apply Hget].
Qed.


(** X2. [hash] gives the index of a slot. *)
Theorem hash_gives_slot_index key n :
  0 < n <= INT_MAX ->
  exists index,
    HashTable.hash hash_fn key n = Ok index /\ 0 <= index < n /\
    index = (Z.of_N (hash_fn key) mod 2 ^ 64) mod n.
Proof.
  intros Hn. exists (home hash_fn key n). split; [by apply hash_home|].
  split; [apply home_range; lia|done].
Qed.

(** X3. [linear_probe] returns the first free slot at or after [index],
    going round the table once, and throws [overflow_error] exactly when
    every slot is occupied. *)
Theorem linear_probe_finds_first_free index n occ :
  0 <= index < n -> Z.of_nat (length occ) = n ->
  (forall r, HashTable.linear_probe index n occ = Ok r <->
     exists d, 0 <= d < n /\ r = (index + d) mod n /\ occ_in occ r = false /\
       forall d', 0 <= d' < d -> occ_in occ ((index + d') mod n) = true) /\
  (HashTable.linear_probe index n occ = Throw overflow_error <->
     forall i, 0 <= i < n -> occ_in occ i = true).
Proof.
  intros Hi Hlen. rewrite linear_probe_first by done.
  assert (0 < n) as Hn by lia.
  destruct (first_probe _ _ _ _) as [r0|] eqn:E.
  - pose proof (first_probe_test _ _ _ _ _ E) as Ht.
    pose proof (first_probe_range _ _ _ _ _ Hn Hi E) as Hr0.
    apply negb_true_iff in Ht. split.
    + intros r. split.
      * intros [= <-].
        destruct (first_probe_Some _ _ _ _ _ Hn Hi E) as (d & Hd & -> & Hbefore).
        exists d. split; [lia|]. split; [done|]. split; [done|].
        intros d' Hd'. apply negb_false_iff. by apply Hbefore.
      * intros (d & Hd & -> & Hfree & Hbefore).
        rewrite (first_probe_intro _ _ _ _ d) in E; [congruence|lia..| |].
        -- by apply negb_true_iff.
        -- intros d' Hd'. apply negb_false_iff. by apply Hbefore.
    + split; [discriminate|]. intros Hall. rewrite Hall in Ht by done. done.
  - split.
    + intros r. split; [discriminate|].
      intros (d & Hd & -> & Hfree & _).
      pose proof (first_probe_None _ _ _ _ Hn Hi E d ltac:(lia)) as Ht.
      apply negb_false_iff in Ht. congruence.
    + split; [|done]. intros _ i Hr.
      destruct (probe_covers index i n Hi Hr) as (d & Hd & <-).
      apply negb_false_iff. apply (first_probe_None _ _ _ _ Hn Hi E). lia.
Qed.

(** X4. After [insert], [get] returns the inserted value for the key and
    what it returned before for every other key; the number of occupied
    slots goes up by one exactly when the key was missing, and the capacity
    by 2000 exactly when the table was full. *)
Theorem insert_then_get ht key value :
  probed hash_fn ht ->
  (HashTable.elements_count ht = HashTable.size ht ->
   HashTable.size ht <= INT_MAX - 2000) ->
  int_range value ->
  exists ht',
    HashTable.insert hash_fn ht key value = Ok ht' /\
    HashTable.get hash_fn ht' key = Ok value /\
    (forall k, k <> key -> HashTable.get hash_fn ht' k = HashTable.get hash_fn ht k) /\
    HashTable.get_stats ht' =
      (match HashTable.get hash_fn ht key with
       | Ok _ => fst (HashTable.get_stats ht)
       | _ => fst (HashTable.get_stats ht) + 1
       end,
       if fst (HashTable.get_stats ht) =? snd (HashTable.get_stats ht)
       then snd (HashTable.get_stats ht) + 2000 else snd (HashTable.get_stats ht)).
Proof.
  intros Hpr Hroom Hval.
  destruct (insert_spec hash_fn ht key value Hpr Hroom Hval)
    as (ht' & Hins & Hpr' & Hsize & Hget & Hcount).
  exists ht'. split; [done|]. split; [|split].
  - rewrite Hget, String.eqb_refl. done.
  - intros k Hk. rewrite Hget. by apply String.eqb_neq in Hk as ->.
  - rewrite (stats_counted ht' (pr_counted _ _ Hpr')).
    rewrite (stats_counted ht (pr_counted _ _ Hpr)). cbn [fst snd].
    by rewrite Hcount, Hsize.
Qed.

(** [remove] of a key that is stored once. *)
Lemma remove_spec ht key v :
  counted ht -> no_duplicate_keys ht -> HashTable.get hash_fn ht key = Ok v ->
  exists r,
    holds ht r key v /\
    HashTable.remove hash_fn ht key = Ok (clear_slot ht r) /\
    counted (clear_slot ht r) /\ no_duplicate_keys (clear_slot ht r) /\
    HashTable.get hash_fn (clear_slot ht r) key = Throw invalid_argument /\
    (forall k, k <> key ->
       HashTable.get hash_fn (clear_slot ht r) k = HashTable.get hash_fn ht k).
Proof.
  intros Hct Hnd Hget. pose proof (ct_wf ht Hct) as Hwf.
  pose proof (wf_size ht Hwf) as Hn.
  rewrite remove_first_counted by done. rewrite get_first in Hget by done.
  destruct (first_probe _ _ _ _) as [r|] eqn:E; [|done].
  pose proof (first_probe_range _ _ _ _ _ (proj1 Hn)
                (home_range hash_fn key _ (proj1 Hn)) E) as Hr.
  apply first_probe_test in E.
  apply holds_key_true in E as [w Hw]; [|done..].
  assert (w = v) as -> by (rewrite (holds_entry _ _ _ _ Hw) in Hget; congruence).
  pose proof (clear_slot_wf ht r Hwf) as Hwf'.
  pose proof (clear_slot_no_duplicates ht r Hwf Hr Hnd) as Hnd'.
  exists r. split; [done|]. split; [done|]. split.
  { apply clear_slot_counted; [done..|apply Hw]. }
  split; [done|]. split.
  - apply get_absent; [done|]. intros j w Hj.
    apply clear_slot_holds in Hj as [Hne Hj]; [|done..].
    apply Hne. eapply Hnd; eauto.
  - intros k Hk. apply get_same; [done..|]. intros w. split; intros [j Hj].
    + apply clear_slot_holds in Hj as [_ Hj]; eauto.
    + exists j. apply clear_slot_holds; [done..|]. split; [|done].
      intros ->. destruct Hj as (_ & _ & Hj), Hw as (_ & _ & Hw). congruence.
Qed.

(** X5. After [remove] of a key that the table holds, [get] reports the key
    missing and returns what it returned before for every other key; one
    slot fewer is occupied and the capacity is the same. *)
Theorem remove_then_get ht key v :
  counted ht -> no_duplicate_keys ht -> HashTable.get hash_fn ht key = Ok v ->
  exists ht',
    HashTable.remove hash_fn ht key = Ok ht' /\
    HashTable.get hash_fn ht' key = Throw invalid_argument /\
    (forall k, k <> key -> HashTable.get hash_fn ht' k = HashTable.get hash_fn ht k) /\
    HashTable.get_stats ht' =
      (fst (HashTable.get_stats ht) - 1, snd (HashTable.get_stats ht)).
Proof.
  intros Hct Hnd Hget.
  destruct (remove_spec ht key v Hct Hnd Hget)
    as (r & _ & Hrem & Hct' & _ & Hgone & Hothers).
  eexists. split; [done|]. split; [done|]. split; [done|].
  by rewrite (stats_counted _ Hct'), (stats_counted _ Hct).
Qed.

(** X6. [remove] throws [invalid_argument] exactly when no occupied slot
    holds the key, wherever on the probe path the slots are. *)
Theorem remove_fails_exactly_on_missing_key ht key :
  wf ht ->
  (HashTable.remove hash_fn ht key = Throw invalid_argument <->
   forall j v, ~ holds ht j key v).
Proof.
  intros Hwf. rewrite remove_throws_iff by done.
  destruct (get_found_or_absent hash_fn ht key Hwf)
    as [(j & v & Hj & Hget)|[Habsent Hget]]; rewrite Hget.
  - split; [discriminate|]. intros Habsent. destruct (Habsent j v Hj).
  - done.
Qed.

(** X7. [insert] of a missing key followed by [remove] of the key leaves a
    table that answers every [get] as before and has as many occupied
    slots as before. *)
Theorem insert_then_remove ht key value :
  probed hash_fn ht ->
  (HashTable.elements_count ht = HashTable.size ht ->
   HashTable.size ht <= INT_MAX - 2000) ->
  int_range value ->
  HashTable.get hash_fn ht key = Throw invalid_argument ->
  exists ht1 ht2,
    HashTable.insert hash_fn ht key value = Ok ht1 /\
    HashTable.remove hash_fn ht1 key = Ok ht2 /\
    (forall k, HashTable.get hash_fn ht2 k = HashTable.get hash_fn ht k) /\
    fst (HashTable.get_stats ht2) = fst (HashTable.get_stats ht).
Proof.
  intros Hpr Hroom Hval Habsent.
  destruct (insert_spec hash_fn ht key value Hpr Hroom Hval)
    as (ht1 & Hins & Hpr1 & Hsize & Hget1 & Hcount).
  assert (HashTable.get hash_fn ht1 key = Ok value) as Hkey
    by (rewrite Hget1, String.eqb_refl; done).
  destruct (remove_spec ht1 key value (pr_counted _ _ Hpr1)
              (pr_no_duplicates _ _ Hpr1) Hkey)
    as (r & _ & Hrem & Hct2 & _ & Hgone & Hothers).
  exists ht1, (clear_slot ht1 r). split; [done|]. split; [done|]. split.
  - intros k. destruct (String.eqb_spec k key) as [->|Hk].
    + by rewrite Hgone, Habsent.
    + rewrite Hothers, Hget1 by done. by apply String.eqb_neq in Hk as ->.
  - rewrite (stats_counted _ Hct2), (stats_counted _ (pr_counted _ _ Hpr)).
    cbn. rewrite Hcount, Habsent. lia.
Qed.


(** X8. What [insert] does after a [remove] has emptied the home slot of a
    key that sits further along its probe path: it stops at the empty home
    slot and stores the key a second time. [get] then returns the new
    value, and after one [remove] the key is still there with its old
    value. *)
Theorem insert_behind_empty_home_slot_duplicates ht key j v value :
  wf ht ->
  HashTable.elements_count ht <> HashTable.size ht ->
  INT_MIN <= HashTable.elements_count ht < INT_MAX ->
  holds ht j key v -> (forall i w, holds ht i key w -> i = j) ->
  occ_at ht (home hash_fn key (HashTable.size ht)) = false ->
  exists ht' ht'',
    HashTable.insert hash_fn ht key value = Ok ht' /\
    holds ht' (home hash_fn key (HashTable.size ht)) key value /\
    holds ht' j key v /\
    HashTable.elements_count ht' = HashTable.elements_count ht + 1 /\
    HashTable.get hash_fn ht' key = Ok value /\
    HashTable.remove hash_fn ht' key = Ok ht'' /\
    HashTable.get hash_fn ht'' key = Ok v.
Proof.
  intros Hwf Hfull Hcount Hj Huniq Hfree. pose proof (wf_size ht Hwf) as Hn.
  set (n := HashTable.size ht) in *. set (h := home hash_fn key n) in *.
  assert (0 <= h < n) as Hh by (apply home_range; lia).
  assert (first_probe (free_or_key ht key) (Z.to_nat n) h n = Some h) as Hprobe.
  { replace h with ((h + 0) mod n) at 2 by (rewrite Z.add_0_r, Z.mod_small; lia).
    apply first_probe_intro; [lia..| |lia].
    rewrite Z.add_0_r, Z.mod_small by lia. unfold free_or_key. by rewrite Hfree. }
  set (ht' := place_slot ht h key value).
  assert (HashTable.insert hash_fn ht key value = Ok ht') as Hins.
  { rewrite insert_first by done. fold n h. rewrite Hprobe, Hfree.
    destruct (Z.eqb_spec (HashTable.elements_count ht) INT_MAX); [lia|done]. }
  assert (forall i k w, holds ht' i k w <->
            (i = h /\ k = key /\ w = value) \/ holds ht i k w) as Hholds.
  { intros i k w. by apply place_slot_holds. }
  assert (wf ht') as Hwf'.
  { destruct Hwf as [? Ht Ho]. split; cbn; [done|by rewrite length_insert..]. }
  assert (holds ht' h key value) as Hhome by (apply Hholds; auto).
  assert (h <> j) as Hne.
  { intros ->. destruct Hj as (_ & Ho & _). unfold occ_at in Hfree. congruence. }
  assert (HashTable.size ht' = n) as Hsize by done.
  assert (first_probe (holds_key ht' key) (Z.to_nat n) h n = Some h) as Hfound.
  { replace h with ((h + 0) mod n) at 2 by (rewrite Z.add_0_r, Z.mod_small; lia).
    apply first_probe_intro; [lia..| |lia].
    rewrite Z.add_0_r, Z.mod_small by lia. by eapply holds_holds_key. }
  set (ht'' := clear_slot ht' h).
  exists ht', ht''. split; [done|]. split; [done|].
  split; [apply Hholds; auto|]. split; [done|]. split; [|split].
  - rewrite get_first by done. rewrite Hsize. fold h. rewrite Hfound.
    by rewrite (holds_entry _ _ _ _ Hhome).
  - rewrite remove_first by done. rewrite Hsize. fold h. rewrite Hfound.
    destruct (Z.eqb_spec (HashTable.elements_count ht') INT_MIN) as [E|]; [|done].
    cbn in E. unfold INT_MIN, INT_MAX in *. lia.
  - assert (wf ht'') as Hwf'' by by apply clear_slot_wf.
    rewrite get_first by done.
    rewrite (first_probe_holder hash_fn ht'' key j v); [| done | |].
    + assert (holds ht'' j key v) as Hj''.
      { apply clear_slot_holds; [done|by rewrite Hsize|]. split; [done|].
        apply Hholds. auto. }
      by rewrite (holds_entry _ _ _ _ Hj'').
    + apply clear_slot_holds; [done|by rewrite Hsize|]. split; [done|].
      apply Hholds. auto.
    + intros i w Hi. apply clear_slot_holds in Hi as [Hi' Hi]; [|done|by rewrite Hsize].
      apply Hholds in Hi as [(-> & _)|Hi]; [done|]. eauto.
Qed.

(** X9. On a table of the data model the operations stay inside the
    vectors and inside the range of [int]: [insert] returns (the
    [overflow_error] of its probing loop cannot happen), [get] and [remove]
    return or throw [invalid_argument], [get_first] and [get_last] return
    or throw [runtime_error]. *)
Theorem operations_stay_in_bounds ht key value :
  counted ht ->
  (HashTable.elements_count ht = HashTable.size ht ->
   HashTable.size ht <= INT_MAX - 2000) ->
  (exists ht', HashTable.insert hash_fn ht key value = Ok ht') /\
  ((exists v, HashTable.get hash_fn ht key = Ok v) \/
   HashTable.get hash_fn ht key = Throw invalid_argument) /\
  ((exists ht', HashTable.remove hash_fn ht key = Ok ht') \/
   HashTable.remove hash_fn ht key = Throw invalid_argument) /\
  ((exists e, HashTable.get_first ht = Ok e) \/
   HashTable.get_first ht = Throw runtime_error) /\
  ((exists e, HashTable.get_last ht = Ok e) \/
   HashTable.get_last ht = Throw runtime_error).
Proof.
  intros Hct Hroom. pose proof (ct_wf ht Hct) as Hwf.
  split; [|split; [|split; [|split]]].
  - destruct (insert_total hash_fn ht key value Hct Hroom) as (ht' & Hins & _).
    eauto.
  - destruct (get_found_or_absent hash_fn ht key Hwf)
      as [(j & v & _ & Hget)|[_ Hget]]; eauto.
  - rewrite remove_first_counted by done.
    destruct (first_probe _ _ _ _); eauto.
  - unfold HashTable.get_first.
    destruct (Z.eqb_spec (HashTable.first_index ht) (-1)); [by right|].
    left. rewrite vec_get_table; [eauto|done|].
    pose proof (ct_first ht Hct). lia.
  - unfold HashTable.get_last.
    destruct (Z.eqb_spec (HashTable.last_index ht) (-1)); [by right|].
    left. rewrite vec_get_table; [eauto|done|].
    pose proof (ct_last ht Hct). lia.
Qed.


(** X10. A table of capacity 0 is constructed without complaint. [insert]
    into it returns: the table is full, so it grows to 2000 slots first.
    [get] and [remove] on it divide by zero in [hash]. *)
Theorem table_of_capacity_zero key value :
  int_range value ->
  HashTable.new 0 = Ok zero_table /\
  HashTable.get_stats zero_table = (0, 0) /\
  HashTable.get hash_fn zero_table key = Undefined /\
  HashTable.remove hash_fn zero_table key = Undefined /\
  exists ht,
    HashTable.insert hash_fn zero_table key value = Ok ht /\
    HashTable.get_stats ht = (1, 2000) /\
    HashTable.get hash_fn ht key = Ok value.
Proof.
  intros Hval. split; [done|]. split; [done|]. split; [done|]. split; [done|].
  rewrite insert_zero.
  assert (0 < 2000 <= INT_MAX) as Hn by (unfold INT_MAX; lia).
  destruct (new_probed hash_fn 2000 _ Hn (new_table 2000 ltac:(lia)))
    as (Hpr & Hsize & Hcount & Hget).
  change (Z.to_nat 2000) with 2000%nat in *.
  assert (HashTable.elements_count
            (HashTable.mk (replicate 2000 (EmptyString, 0)) (replicate 2000 false)
               (-1) (-1) 2000 0) = 2000 -> 2000 <= INT_MAX - 2000) as Hroom
    by (cbn; lia).
  destruct (insert_spec hash_fn _ key value Hpr Hroom Hval)
    as (ht & Hins & Hpr' & Hsize' & Hget' & Hcount').
  exists ht. split; [done|]. split.
  - rewrite (stats_counted ht (pr_counted _ _ Hpr')), Hcount', Hget, Hsize'. done.
  - by rewrite Hget', String.eqb_refl.
Qed.

End Operations.

(** * Further properties: the first and the last entry *)

Section Tracking.

Variable hash_fn : string -> N.
Variable ht : HashTable.t.
Hypothesis Hwf : wf ht.
Hypothesis Hroom : HashTable.size ht <= INT_MAX - 2000.

Let new_size := HashTable.size ht + 2000.

Lemma tracking_start nt no : rehash_tracking ht 0 nt no (-1) (-1).
Proof. split; (done || lia). Qed.

Lemma tracking_skip i nt no nf nl :
  0 <= i -> occ_at ht i = false ->
  rehash_tracking ht i nt no nf nl -> rehash_tracking ht (i + 1) nt no nf nl.
Proof.
  intros Hi Hfree [H1 H2 H3 H4]. split.
  - intros Hf Ho. apply H1; [|done].
    destruct (Z.eq_dec (HashTable.first_index ht) i) as [E|]; [|lia].
    rewrite E in Ho. congruence.
  - intros Hno. apply H2. intros [Hf Ho]. apply Hno. split; [lia|done].
  - intros j Hj Ho Hafter.
    destruct (Z.eq_dec j i) as [->|]; [congruence|].
    apply H3; [lia|done|]. intros j' Hj'. apply Hafter. lia.
  - intros Hnone. apply H4. intros j Hj. apply Hnone. lia.
Qed.

Lemma tracking_place i nt no nf nl r :
  0 <= i -> occ_at ht i = true ->
  Z.of_nat (length nt) = new_size -> Z.of_nat (length no) = new_size ->
  0 <= r < new_size -> occ_in no r = false ->
  rehash_tracking ht i nt no nf nl ->
  rehash_tracking ht (i + 1)
    (<[Z.to_nat r := entry_at ht i]> nt) (<[Z.to_nat r := true]> no)
    (if i =? HashTable.first_index ht then r else nf) r.
Proof.
  intros Hi Hocc Hnt Hno Hr Hfree [H1 H2 H3 H4].
  assert (occ_in (<[Z.to_nat r := true]> no) r = true) as Hr1.
  { rewrite occ_in_insert by lia. by rewrite Z.eqb_refl. }
  assert (entry_in (<[Z.to_nat r := entry_at ht i]> nt) r = entry_at ht i) as Hr2.
  { rewrite entry_in_insert by lia. by rewrite Z.eqb_refl. }
  split.
  - intros Hf Ho. destruct (Z.eqb_spec i (HashTable.first_index ht)) as [E|E].
    + rewrite <- E. done.
    + destruct H1 as (Hnf & Ho' & He); [lia|done|].
      assert (nf <> r) by congruence.
      rewrite occ_in_insert, entry_in_insert by lia.
      destruct (Z.eqb_spec nf r); [done|]. done.
  - intros Hno'. destruct (Z.eqb_spec i (HashTable.first_index ht)) as [E|E].
    + exfalso. apply Hno'. rewrite <- E. split; [lia|done].
    + apply H2. intros [Hf Ho]. apply Hno'. split; [lia|done].
  - intros j Hj Ho Hafter.
    destruct (Z.eq_dec j i) as [->|]; [done|].
    rewrite Hafter in Hocc by lia. done.
  - intros Hnone. rewrite Hnone in Hocc by lia. done.
Qed.

Lemma resize_loop_tracking fuel i nt no nf nl :
  0 <= i -> i + Z.of_nat fuel = HashTable.size ht ->
  rehash_state hash_fn ht i nt no nf nl ->
  rehash_tracking ht i nt no nf nl ->
  exists nt' no' nf' nl',
    HashTable.resize_loop hash_fn fuel ht new_size i (nt, no, nf, nl)
      = Ok (nt', no', nf', nl') /\
    rehash_state hash_fn ht (HashTable.size ht) nt' no' nf' nl' /\
    rehash_tracking ht (HashTable.size ht) nt' no' nf' nl'.
Proof.
  pose proof (wf_size ht Hwf) as Hn.
  assert (0 < new_size <= INT_MAX) as Hpos by (unfold new_size; lia).
  revert i nt no nf nl.
  induction fuel as [|fuel IH]; intros i nt no nf nl Hi Hfuel Hre Htr.
  - replace (HashTable.size ht) with i by lia. simpl. eauto 10.
  - cbn [HashTable.resize_loop].
    pose proof Hre as [H1 H2 H3 _ _ _ _ _].
    rewrite vec_get_occupied by (done || lia). cbn [bind].
    destruct (occ_at ht i) eqn:Hocc.
    + rewrite vec_get_table by (done || lia). cbn [bind].
      rewrite hash_home by done. cbn [bind].
      rewrite linear_probe_first by (first [apply home_range; lia | done]).
      destruct (free_slot_exists no) as (f & Hf & Hfree).
      { rewrite H3, H2.
        pose proof (occupied_count_bounds (take (Z.to_nat i) (HashTable.occupied ht))) as Hb.
        rewrite length_take in Hb. unfold new_size. lia. }
      destruct (first_probe_complete (fun j => negb (occ_in no j))
                  (home hash_fn (fst (entry_at ht i)) new_size) f new_size)
        as [r Hr].
      { apply home_range. lia. }
      { unfold new_size. lia. }
      { cbn beta. by rewrite Hfree. }
      rewrite Hr. cbn [bind].
      pose proof (first_probe_range _ _ _ _ _ (proj1 Hpos)
                    (home_range hash_fn _ new_size (proj1 Hpos)) Hr) as Hrn.
      pose proof (first_probe_test _ _ _ _ _ Hr) as Hrfree. cbn beta in Hrfree.
      apply negb_true_iff in Hrfree.
      rewrite !vec_set_in_range by (rewrite ?H1, ?H2; done).
      cbn [bind]. apply IH; [lia|lia| |].
      * apply (rehashed_place hash_fn ht Hwf i nt no nf nl r); (done || lia).
      * apply (tracking_place i nt no nf nl r); (done || lia).
    + apply IH; [lia|lia| |].
      * apply rehashed_skip; (done || lia).
      * apply tracking_skip; (done || lia).
Qed.

End Tracking.

Section Tracked.

Variable hash_fn : string -> N.

Lemma get_first_entry ht :
  wf ht -> 0 <= HashTable.first_index ht < HashTable.size ht ->
  HashTable.get_first ht = Ok (entry_at ht (HashTable.first_index ht)).
Proof.
  intros Hwf Hf. unfold HashTable.get_first.
  destruct (Z.eqb_spec (HashTable.first_index ht) (-1)); [lia|].
  by apply vec_get_table.
Qed.

Lemma get_last_entry ht :
  wf ht -> 0 <= HashTable.last_index ht < HashTable.size ht ->
  HashTable.get_last ht = Ok (entry_at ht (HashTable.last_index ht)).
Proof.
  intros Hwf Hf. unfold HashTable.get_last.
  destruct (Z.eqb_spec (HashTable.last_index ht) (-1)); [lia|].
  by apply vec_get_table.
Qed.

Lemma resize_tracking ht :
  wf ht -> HashTable.size ht <= INT_MAX - 2000 ->
  exists ht',
    HashTable.resize hash_fn ht = Ok ht' /\
    wf ht' /\ HashTable.size ht' = HashTable.size ht + 2000 /\
    rehash_tracking ht (HashTable.size ht) (HashTable.table ht')
      (HashTable.occupied ht') (HashTable.first_index ht')
      (HashTable.last_index ht').
Proof.
  intros Hwf Hroom. pose proof (wf_size ht Hwf) as Hn.
  unfold HashTable.resize.
  destruct (Z.ltb_spec (INT_MAX - 2000) (HashTable.size ht)); [lia|].
  unfold vec_make. destruct (Z.ltb_spec (HashTable.size ht + 2000) 0); [lia|].
  cbn [bind].
  pose proof (rehashed_start hash_fn ht Hwf) as Hstart.
  destruct (fun Hi Hfuel =>
              resize_loop_tracking hash_fn ht Hwf Hroom
                (Z.to_nat (HashTable.size ht)) 0 _ _ (-1) (-1) Hi Hfuel Hstart
                (tracking_start ht _ _))
    as (nt & no & nf & nl & -> & [H1 H2 _ _ _ _ _ _] & Htr); [lia|lia|].
  cbn [bind]. eexists. split; [done|]. cbn.
  split; [split; cbn; (done || lia)|]. done.
Qed.

(** The highest occupied slot below [n], if there is one. *)
Lemma highest_occupied ht n :
  0 <= n ->
  (forall j, 0 <= j < n -> occ_at ht j = false) \/
  exists j, 0 <= j < n /\ occ_at ht j = true /\
    forall j', j < j' < n -> occ_at ht j' = false.
Proof.
  intros Hn. pattern n. apply natlike_ind; [|clear n Hn|done].
  - left. intros j Hj. lia.
  - intros n Hn IH. destruct (occ_at ht n) eqn:Ho.
    + right. exists n. split; [lia|]. split; [done|]. intros j' Hj'. lia.
    + destruct IH as [IH|(j & Hj & Hoj & Hafter)].
      * left. intros j Hj. destruct (Z.eq_dec j n) as [->|]; [done|]. apply IH. lia.
      * right. exists j. split; [lia|]. split; [done|]. intros j' Hj'.
        destruct (Z.eq_dec j' n) as [->|]; [done|]. apply Hafter. lia.
Qed.

Lemma resize_result_tracked ht ht' :
  wf ht -> HashTable.resize hash_fn ht = Ok ht' -> tracked ht'.
Proof.
  intros Hwf Hres.
  destruct (Z_le_dec (HashTable.size ht) (INT_MAX - 2000)) as [Hroom|Hroom];
    [|rewrite resize_overflow in Hres by lia; done].
  destruct (resize_tracking ht Hwf Hroom) as (ht2 & Hres2 & Hwf' & Hsize & [H1 H2 H3 H4]).
  rewrite Hres in Hres2. injection Hres2 as <-.
  pose proof (wf_size ht Hwf) as Hn. split.
  - destruct (Z_le_dec 0 (HashTable.first_index ht)) as [Hf|Hf];
      [destruct (Z_lt_dec (HashTable.first_index ht) (HashTable.size ht)) as [Hf'|Hf'];
       [destruct (occ_at ht (HashTable.first_index ht)) eqn:Ho|]|].
    + right. destruct H1 as (? & ? & _); [lia|done|]. split; [lia|done].
    + left. apply H2. intros [_ ?]. congruence.
    + left. apply H2. intros [? _]. lia.
    + left. apply H2. intros [? _]. lia.
  - destruct (highest_occupied ht (HashTable.size ht)) as [Hnone|(j & Hj & Ho & Hafter)];
      [lia| |].
    + left. by apply H4.
    + right. destruct (H3 j Hj Ho Hafter) as (? & ? & _). split; [lia|done].
Qed.

(** What [insert] returns: the table, grown first when it was full, with
    the value of the key's slot overwritten or with the entry put in a
    free slot. *)
Lemma insert_result ht key value ht' :
  counted ht -> HashTable.insert hash_fn ht key value = Ok ht' ->
  exists base r,
    (base = ht /\ HashTable.elements_count ht <> HashTable.size ht \/
     HashTable.resize hash_fn ht = Ok base /\
     HashTable.elements_count ht = HashTable.size ht) /\
    counted base /\ 0 <= r < HashTable.size base /\
    ((exists v0, holds base r key v0 /\ ht' = update_slot base r value) \/
     (occ_at base r = false /\ ht' = place_slot base r key value)).
Proof.
  assert (forall base, counted base ->
            HashTable.elements_count base <> HashTable.size base ->
            HashTable.insert hash_fn base key value = Ok ht' ->
            exists r, 0 <= r < HashTable.size base /\
              ((exists v0, holds base r key v0 /\ ht' = update_slot base r value) \/
               (occ_at base r = false /\ ht' = place_slot base r key value)))
    as Hstep.
  { intros base Hct Hfull Hins.
    rewrite insert_first_counted in Hins by done.
    destruct (insert_lands hash_fn base key Hct Hfull) as (r & Hr & Hprobe & Hkey).
    rewrite Hprobe in Hins. exists r. split; [done|].
    destruct (occ_at base r) eqn:Ho; injection Hins as <-.
    - left. destruct (Hkey eq_refl) as [v0 Hv0]. eauto.
    - by right. }
  intros Hct Hins.
  destruct (Z.eq_dec (HashTable.elements_count ht) (HashTable.size ht)) as [Hfull|Hfull].
  - pose proof Hins as Hins'. rewrite insert_full in Hins' by done.
    destruct (HashTable.resize hash_fn ht) as [base| |] eqn:Hres; [|done..].
    cbn [bind] in Hins'.
    destruct (Z_le_dec (HashTable.size ht) (INT_MAX - 2000)) as [Hroom|Hroom];
      [|rewrite resize_overflow in Hres by lia; done].
    destruct (resize_counted hash_fn ht Hct Hroom) as (ht2 & Hres2 & Hct2 & Hsize & Hcount & _).
    rewrite Hres in Hres2. injection Hres2 as <-.
    pose proof (wf_size ht (ct_wf ht Hct)) as Hn.
    assert (HashTable.elements_count base <> HashTable.size base) as Hfull' by lia.
    assert (HashTable.insert hash_fn base key value = Ok ht') as Hbase.
    { rewrite <- Hins'. unfold HashTable.insert.
      destruct (Z.eqb_spec (HashTable.elements_count base) (HashTable.size base)); done. }
    destruct (Hstep base Hct2 Hfull' Hbase) as (r & Hr & Hcases).
    exists base, r. split; [by right|]. done.
  - destruct (Hstep ht Hct Hfull Hins) as (r & Hr & Hcases).
    exists ht, r. split; [by left|]. done.
Qed.


Lemma update_slot_tracked ht r value : tracked ht -> tracked (update_slot ht r value).
Proof. done. Qed.

Lemma place_slot_tracked ht r key value :
  wf ht -> 0 <= r < HashTable.size ht -> tracked ht ->
  tracked (place_slot ht r key value).
Proof.
  intros Hwf Hr [Hf Hl]. pose proof (wf_occupied ht Hwf) as Ho.
  unfold tracked, place_slot, occ_at. cbn. split; right.
  - destruct (Z.eqb_spec (HashTable.first_index ht) (-1)) as [E|E].
    + split; [done|]. rewrite occ_in_insert by lia. by rewrite Z.eqb_refl.
    + destruct Hf as [?|[Hf Hocc]]; [done|]. split; [done|].
      rewrite occ_in_insert by lia. by destruct (_ =? r).
  - split; [done|]. rewrite occ_in_insert by lia. by rewrite Z.eqb_refl.
Qed.

Lemma clear_slot_tracked ht r :
  wf ht -> 0 <= r < HashTable.size ht -> tracked ht -> tracked (clear_slot ht r).
Proof.
  intros Hwf Hr [Hf Hl]. pose proof (wf_occupied ht Hwf) as Ho.
  unfold tracked, clear_slot, occ_at. cbn. split.
  - destruct (Z.eqb_spec r (HashTable.first_index ht)) as [E|E]; [by left|].
    destruct Hf as [?|[Hf Hocc]]; [by left|]. right. split; [done|].
    rewrite occ_in_insert by lia.
    destruct (Z.eqb_spec (HashTable.first_index ht) r); [congruence|done].
  - destruct (Z.eqb_spec r (HashTable.last_index ht)) as [E|E]; [by left|].
    destruct Hl as [?|[Hl Hocc]]; [by left|]. right. split; [done|].
    rewrite occ_in_insert by lia.
    destruct (Z.eqb_spec (HashTable.last_index ht) r); [congruence|done].
Qed.

Lemma insert_tracked ht key value ht' :
  counted ht -> tracked ht -> HashTable.insert hash_fn ht key value = Ok ht' ->
  tracked ht'.
Proof.
  intros Hct Htr Hins.
  destruct (insert_result ht key value ht' Hct Hins)
    as (base & r & Hbase & Hct' & Hr & Hcases).
  assert (tracked base) as Htr'.
  { destruct Hbase as [[-> _]|[Hres _]]; [done|].
    eapply resize_result_tracked; [apply Hct|done]. }
  destruct Hcases as [(v0 & _ & ->)|[_ ->]].
  - by apply update_slot_tracked.
  - apply place_slot_tracked; [apply Hct'|done..].
Qed.

Lemma remove_tracked ht key ht' :
  counted ht -> tracked ht -> HashTable.remove hash_fn ht key = Ok ht' ->
  tracked ht'.
Proof.
  intros Hct Htr. pose proof (ct_wf ht Hct) as Hwf.
  pose proof (wf_size ht Hwf) as Hn.
  rewrite remove_first_counted by done.
  destruct (first_probe _ _ _ _) as [r|] eqn:E; [|done].
  intros [= <-].
  pose proof (first_probe_range _ _ _ _ _ (proj1 Hn)
                (home_range hash_fn key _ (proj1 Hn)) E) as Hr.
  by apply clear_slot_tracked.
Qed.

Lemma tracked_fresh n :
  tracked (HashTable.mk (replicate n (EmptyString, 0)) (replicate n false)
             (-1) (-1) (Z.of_nat n) 0).
Proof. split; by left. Qed.

Lemma built_tracked ht :
  reachable hash_fn (fun _ => False) ht -> sound ht /\ tracked ht.
Proof.
  induction 1 as [n ht Hn Hnew
                 |ht key value ht' _ [IH Htr] Hval Hins
                 |ht key ht' _ [IH Htr] Hrem
                 |ht ht' _ [IH Htr] Hres
                 |ht saved file result ht' _ _ _ _ []].
  - split; [eapply sound_new; eauto|].
    rewrite new_table in Hnew by lia. injection Hnew as <-. split; by left.
  - split; [left; eapply sound_insert; eauto|].
    destruct IH as [Hct| ->].
    + eapply insert_tracked; eauto.
    + rewrite insert_zero in Hins.
      eapply insert_tracked; [apply counted_fresh_2000| |done]. split; by left.
  - split; [eapply sound_remove; eauto|].
    destruct IH as [Hct| ->]; [eapply remove_tracked; eauto|done].
  - split; [eapply sound_resize; eauto|].
    destruct IH as [Hct| ->].
    + eapply resize_result_tracked; [apply Hct|done].
    + rewrite resize_zero in Hres. injection Hres as <-. split; by left.
Qed.

(** X11. In a table built by the constructor, [insert], [remove] and growth,
    the pair that [get_first] or [get_last] returns is the entry of an
    occupied slot. *)
Theorem first_and_last_are_stored_entries ht :
  reachable hash_fn (fun _ => False) ht ->
  (forall k v, HashTable.get_first ht = Ok (k, v) -> exists j, holds ht j k v) /\
  (forall k v, HashTable.get_last ht = Ok (k, v) -> exists j, holds ht j k v).
Proof.
  intros Hre. destruct (built_tracked ht Hre) as [[Hct| ->] [Hf Hl]]; [|done].
  pose proof (ct_wf ht Hct) as Hwf. split; intros k v Hget.
  - destruct Hf as [Hf|[Hf Hocc]].
    + unfold HashTable.get_first in Hget. by rewrite Hf in Hget.
    + rewrite get_first_entry in Hget by done. injection Hget as Hget.
      exists (HashTable.first_index ht). done.
  - destruct Hl as [Hl|[Hl Hocc]].
    + unfold HashTable.get_last in Hget. by rewrite Hl in Hget.
    + rewrite get_last_entry in Hget by done. injection Hget as Hget.
      exists (HashTable.last_index ht). done.
Qed.

(** X12. Growth keeps the first entry and loses the last: in the table that
    [resize] returns, [get_first] returns what it returned before (when
    [first_index] pointed at an occupied slot), and [get_last] returns the
    entry of the highest occupied slot of the old table, whichever entry
    was inserted last. *)
Theorem resize_keeps_first_and_moves_last ht :
  wf ht -> HashTable.size ht <= INT_MAX - 2000 ->
  exists grown,
    HashTable.resize hash_fn ht = Ok grown /\
    (0 <= HashTable.first_index ht < HashTable.size ht ->
     occ_at ht (HashTable.first_index ht) = true ->
     HashTable.get_first grown = HashTable.get_first ht) /\
    (HashTable.get_first ht = Throw runtime_error ->
     HashTable.get_first grown = Throw runtime_error) /\
    (forall j, 0 <= j < HashTable.size ht -> occ_at ht j = true ->
       (forall j', j < j' < HashTable.size ht -> occ_at ht j' = false) ->
       HashTable.get_last grown = Ok (entry_at ht j)) /\
    ((forall j, 0 <= j < HashTable.size ht -> occ_at ht j = false) ->
     HashTable.get_last grown = Throw runtime_error).
Proof.
  intros Hwf Hroom.
  destruct (resize_tracking ht Hwf Hroom)
    as (grown & Hres & Hwf' & Hsize & [H1 H2 H3 H4]).
  exists grown. split; [done|]. split; [|split; [|split]].
  - intros Hf Ho. destruct (H1 Hf Ho) as (Hnf & _ & He).
    rewrite !get_first_entry by (done || lia). by rewrite <- He.
  - intros Hthrow.
    assert (HashTable.first_index ht = -1) as Hf.
    { unfold HashTable.get_first in Hthrow.
      destruct (Z.eqb_spec (HashTable.first_index ht) (-1)); [done|].
      unfold vec_get in Hthrow. by repeat case_match. }
    unfold HashTable.get_first. rewrite H2; [done|]. lia.
  - intros j Hj Ho Hafter. destruct (H3 j Hj Ho Hafter) as (Hnl & _ & He).
    rewrite get_last_entry by (done || lia). by rewrite <- He.
  - intros Hnone. unfold HashTable.get_last. by rewrite H4.
Qed.


Lemma get_first_throws ht :
  counted ht ->
  HashTable.get_first ht = Throw runtime_error -> HashTable.first_index ht = -1.
Proof.
  intros Hct Hthrow. pose proof (ct_first ht Hct) as Hf.
  destruct (Z.eq_dec (HashTable.first_index ht) (-1)) as [|Hne]; [done|].
  rewrite get_first_entry in Hthrow; [done|apply Hct|lia].
Qed.

(** X13. [insert] of a key that the table does not hold makes it the last
    entry, and the first entry too when the table had none, also when the
    table grows on the way. *)
Theorem insert_of_missing_key_is_last ht key value :
  counted ht ->
  (HashTable.elements_count ht = HashTable.size ht ->
   HashTable.size ht <= INT_MAX - 2000) ->
  HashTable.get hash_fn ht key = Throw invalid_argument ->
  exists ht',
    HashTable.insert hash_fn ht key value = Ok ht' /\
    HashTable.get_last ht' = Ok (key, value) /\
    (HashTable.get_first ht = Throw runtime_error ->
     HashTable.get_first ht' = Ok (key, value)).
Proof.
  intros Hct Hroom Habsent. pose proof (ct_wf ht Hct) as Hwf.
  destruct (insert_total hash_fn ht key value Hct Hroom) as (ht' & Hins & _).
  exists ht'. split; [done|].
  destruct (insert_result ht key value ht' Hct Hins)
    as (base & r & Hbase & Hct' & Hr & Hcases).
  pose proof (ct_wf base Hct') as Hwfb.
  pose proof (wf_table base Hwfb) as Hlen. pose proof (wf_occupied base Hwfb) as Hlen'.
  assert (forall j v, ~ holds ht j key v) as Hnone.
  { destruct (get_found_or_absent hash_fn ht key Hwf)
      as [(j & v & _ & Hget)|[Hnone _]]; [congruence|done]. }
  assert (forall v, ~ holds base r key v) as Hnone'.
  { intros v Hv. destruct Hbase as [[-> _]|[Hres Hfull]]; [by eapply Hnone|].
    destruct (resize_spec hash_fn ht Hwf (Hroom Hfull))
      as (ht2 & Hres2 & _ & _ & _ & _ & _ & _ & Hsame & _).
    rewrite Hres in Hres2. injection Hres2 as <-.
    destruct (proj1 (Hsame key v) (ex_intro _ r Hv)) as [i Hi]. by eapply Hnone. }
  destruct Hcases as [(v0 & Hv0 & _)|[Hfree ->]]; [by destruct (Hnone' v0)|].
  assert (entry_at (place_slot base r key value) r = (key, value)) as He.
  { unfold entry_at, place_slot. cbn. rewrite entry_in_insert by lia.
    by rewrite Z.eqb_refl. }
  assert (wf (place_slot base r key value)) as Hwf'.
  { destruct Hwfb as [? Ht Ho]. split; cbn; [done|by rewrite length_insert..]. }
  split.
  - rewrite get_last_entry; [f_equal; exact He|done|exact Hr].
  - intros Hthrow. apply get_first_throws in Hthrow; [|done].
    assert (HashTable.first_index base = -1) as Hfb.
    { destruct Hbase as [[-> _]|[Hres Hfull]]; [done|].
      destruct (resize_tracking ht Hwf (Hroom Hfull))
        as (ht2 & Hres2 & _ & _ & [_ H2 _ _]).
      rewrite Hres in Hres2. injection Hres2 as <-. apply H2. lia. }
    assert (HashTable.first_index (place_slot base r key value) = r) as Hfr
      by (cbn; by rewrite Hfb).
    rewrite get_first_entry; [|done|by rewrite Hfr]. by rewrite Hfr, He.
Qed.

(** X14. [remove] of the key that [get_first] (or [get_last]) returns leaves
    no first (or last) entry: [get_first] then throws [runtime_error],
    whatever else the table holds. *)
Theorem remove_of_first_key_forgets_first ht key :
  counted ht -> no_duplicate_keys ht -> tracked ht ->
  (exists v, HashTable.get_first ht = Ok (key, v)) \/
  (exists v, HashTable.get_last ht = Ok (key, v)) ->
  exists ht',
    HashTable.remove hash_fn ht key = Ok ht' /\
    ((exists v, HashTable.get_first ht = Ok (key, v)) ->
     HashTable.get_first ht' = Throw runtime_error) /\
    ((exists v, HashTable.get_last ht = Ok (key, v)) ->
     HashTable.get_last ht' = Throw runtime_error) /\
    (forall k, k <> key -> HashTable.get hash_fn ht' k = HashTable.get hash_fn ht k).
Proof.
  intros Hct Hnd [Hf Hl] Hsome. pose proof (ct_wf ht Hct) as Hwf.
  assert (forall v, HashTable.get_first ht = Ok (key, v) ->
            holds ht (HashTable.first_index ht) key v) as Hfirst.
  { intros v Hget. destruct Hf as [Hf|[Hf Hocc]].
    - unfold HashTable.get_first in Hget. by rewrite Hf in Hget.
    - rewrite get_first_entry in Hget by done. by injection Hget as Hget. }
  assert (forall v, HashTable.get_last ht = Ok (key, v) ->
            holds ht (HashTable.last_index ht) key v) as Hlast.
  { intros v Hget. destruct Hl as [Hl|[Hl Hocc]].
    - unfold HashTable.get_last in Hget. by rewrite Hl in Hget.
    - rewrite get_last_entry in Hget by done. by injection Hget as Hget. }
  assert (exists j v, holds ht j key v) as (j & v & Hj).
  { destruct Hsome as [[v Hv]|[v Hv]]; eauto. }
  destruct (remove_spec hash_fn ht key v Hct Hnd (get_holds hash_fn ht key j v Hwf Hnd Hj))
    as (r & Hr & Hrem & _ & _ & _ & Hothers).
  exists (clear_slot ht r). split; [done|]. split; [|split; [|done]].
  - intros [w Hw]. pose proof (Hnd _ _ _ _ _ (Hfirst w Hw) Hr) as E.
    unfold HashTable.get_first, clear_slot. cbn. rewrite E, Z.eqb_refl. done.
  - intros [w Hw]. pose proof (Hnd _ _ _ _ _ (Hlast w Hw) Hr) as E.
    unfold HashTable.get_last, clear_slot. cbn. rewrite E, Z.eqb_refl. done.
Qed.

End Tracked.

Section Sequences.

Variable hash_fn : string -> N.

Lemma last_value_found entries key found :
  last_value entries key found =
    match last_value entries key None with
    | Some v => Some v
    | None => found
    end.
Proof.
  revert found. induction entries as [|e rest IH]; intros found; cbn; [done|].
  destruct (String.eqb key (fst e)); [|apply IH].
  rewrite (IH (Some (snd e))). by destruct (last_value rest key None).
Qed.

(** A sequence of insertions into a table of the data model. *)
Lemma insert_all_spec ht entries :
  probed hash_fn ht ->
  HashTable.size ht + 2000 * Z.of_nat (length entries) <= INT_MAX ->
  Forall (fun e : string * Z => int_range (snd e)) entries ->
  exists store,
    insert_all hash_fn ht entries = Ok store /\
    probed hash_fn store /\
    HashTable.size ht <= HashTable.size store
      <= HashTable.size ht + 2000 * Z.of_nat (length entries) /\
    forall key,
      HashTable.get hash_fn store key =
        match last_value entries key None with
        | Some v => Ok v
        | None => HashTable.get hash_fn ht key
        end.
Proof.
  revert ht. induction entries as [|e rest IH]; intros ht Hpr Hroom Hval.
  - exists ht. cbn. split; [done|]. split; [done|]. split; [lia|done].
  - apply Forall_cons in Hval as [Hv Hval]. cbn [length] in Hroom.
    assert (HashTable.elements_count ht = HashTable.size ht ->
            HashTable.size ht <= INT_MAX - 2000) as Hroom1 by lia.
    destruct (insert_spec hash_fn ht (fst e) (snd e) Hpr Hroom1 Hv)
      as (ht1 & Hins & Hpr1 & Hsize & Hget & _).
    assert (HashTable.size ht <= HashTable.size ht1 <= HashTable.size ht + 2000)
      as Hsize' by (destruct (_ =? _); lia).
    assert (HashTable.size ht1 + 2000 * Z.of_nat (length rest) <= INT_MAX)
      as Hroom' by lia.
    destruct (IH ht1 Hpr1 Hroom' Hval) as (store & Hall & Hprs & Hsizes & Hgets).
    exists store. cbn [insert_all]. rewrite Hins. cbn [bind].
    split; [done|]. split; [done|]. split; [cbn [length]; lia|].
    intros key. rewrite Hgets. cbn [last_value].
    rewrite (last_value_found rest key (if String.eqb key (fst e) then _ else _)).
    destruct (last_value rest key None); [done|]. rewrite Hget.
    by destruct (String.eqb key (fst e)).
Qed.

(** X15. A sequence of insertions into a new table builds a map: every
    insertion returns, and afterwards [get] returns for each key the value
    of the last entry with that key and throws [invalid_argument] for the
    keys that were not inserted. *)
Theorem insert_all_then_get n ht0 entries :
  0 < n -> n + 2000 * Z.of_nat (length entries) <= INT_MAX ->
  HashTable.new n = Ok ht0 ->
  Forall (fun e : string * Z => int_range (snd e)) entries ->
  exists store,
    insert_all hash_fn ht0 entries = Ok store /\
    forall key,
      HashTable.get hash_fn store key =
        match last_value entries key None with
        | Some v => Ok v
        | None => Throw invalid_argument
        end.
Proof.
  intros Hn Hroom Hnew Hval.
  assert (0 < n <= INT_MAX) as Hn' by lia.
  destruct (new_probed hash_fn n ht0 Hn' Hnew) as (Hpr & Hsize & _ & Hget).
  assert (HashTable.size ht0 + 2000 * Z.of_nat (length entries) <= INT_MAX)
    as Hroom' by lia.
  destruct (insert_all_spec ht0 entries Hpr Hroom' Hval)
    as (store & Hall & _ & _ & Hgets).
  exists store. split; [done|]. intros key. rewrite Hgets, Hget. done.
Qed.

Lemma insert_keeps_first_key ht key value ht' k1 :
  counted ht -> first_key ht k1 ->
  HashTable.insert hash_fn ht key value = Ok ht' -> first_key ht' k1.
Proof.
  intros Hct Hfirst Hins. pose proof (ct_wf ht Hct) as Hwf.
  destruct (insert_result hash_fn ht key value ht' Hct Hins)
    as (base & r & Hbase & Hct' & Hr & Hcases).
  assert (first_key base k1) as (Hf & Ho & Hk).
  { destruct Hbase as [[-> _]|[Hres Hfull]]; [done|].
    destruct (Z_le_dec (HashTable.size ht) (INT_MAX - 2000)) as [Hroom|Hroom];
      [|rewrite resize_overflow in Hres by lia; done].
    destruct (resize_tracking hash_fn ht Hwf Hroom)
      as (ht2 & Hres2 & _ & Hsize & [H1 _ _ _]).
    rewrite Hres in Hres2. injection Hres2 as <-.
    destruct Hfirst as (Hf & Ho & Hk). destruct (H1 Hf Ho) as (Hnf & Hno & He).
    split; [lia|]. split; [done|]. unfold entry_at. by rewrite He. }
  pose proof (ct_wf base Hct') as Hwfb.
  pose proof (wf_table base Hwfb) as Hlen. pose proof (wf_occupied base Hwfb) as Hlen'.
  destruct Hcases as [(v0 & Hv0 & ->)|[Hfree ->]].
  - split; [done|]. split; [done|].
    unfold entry_at, update_slot. cbn. rewrite entry_in_insert by lia.
    destruct (Z.eqb_spec (HashTable.first_index base) r) as [E|]; [|done].
    cbn. by rewrite <- E.
  - assert (HashTable.first_index base <> r) as Hne by congruence.
    unfold first_key, entry_at, occ_at, place_slot. cbn.
    destruct (Z.eqb_spec (HashTable.first_index base) (-1)); [lia|].
    rewrite occ_in_insert, entry_in_insert by lia.
    destruct (Z.eqb_spec (HashTable.first_index base) r); done.
Qed.

Lemma insert_all_keeps_first_key ht entries store k1 :
  counted ht -> first_key ht k1 ->
  Forall (fun e : string * Z => int_range (snd e)) entries ->
  insert_all hash_fn ht entries = Ok store -> first_key store k1.
Proof.
  revert ht. induction entries as [|e rest IH]; intros ht Hct Hfirst Hval Hall.
  - cbn in Hall. by injection Hall as <-.
  - apply Forall_cons in Hval as [Hv Hval]. cbn [insert_all] in Hall.
    destruct (HashTable.insert hash_fn ht (fst e) (snd e)) as [ht1| |] eqn:Hins;
      [|done..].
    cbn [bind] in Hall.
    destruct (insert_counted hash_fn ht _ _ ht1 Hct Hv Hins) as [Hct1 _].
    apply (IH ht1); [done| |done|done].
    by apply (insert_keeps_first_key ht (fst e) (snd e)).
Qed.

(** X16. After any sequence of insertions into a new table, [get_first]
    returns the key that was inserted first, with the value that [get]
    returns for it, however often the table has grown. *)
Theorem get_first_is_first_inserted n ht0 e entries store :
  0 < n <= INT_MAX -> HashTable.new n = Ok ht0 ->
  Forall (fun e : string * Z => int_range (snd e)) (e :: entries) ->
  insert_all hash_fn ht0 (e :: entries) = Ok store ->
  exists v,
    HashTable.get_first store = Ok (fst e, v) /\
    HashTable.get hash_fn store (fst e) = Ok v.
Proof.
  intros Hn Hnew Hval Hall.
  pose proof (insert_all_probed hash_fn n ht0 _ store Hn Hnew Hval Hall) as Hpr.
  destruct (new_counted n ht0 Hn Hnew) as (Hct0 & Hsize0 & Hcount0 & _ & Hnone).
  apply Forall_cons in Hval as [Hv Hval]. cbn [insert_all] in Hall.
  destruct (HashTable.insert hash_fn ht0 (fst e) (snd e)) as [ht1| |] eqn:Hins;
    [|done..].
  cbn [bind] in Hall.
  destruct (insert_counted hash_fn ht0 _ _ ht1 Hct0 Hv Hins) as [Hct1 _].
  assert (first_key ht1 (fst e)) as Hfirst1.
  { destruct (insert_result hash_fn ht0 _ _ ht1 Hct0 Hins)
      as (base & r & Hbase & Hctb & Hr & Hcases).
    destruct Hbase as [[-> _]|[_ Hfull]]; [|lia].
    destruct Hcases as [(v0 & Hv0 & _)|[Hfree ->]]; [by destruct (Hnone r (fst e) v0)|].
    rewrite new_table in Hnew by lia. injection Hnew as <-.
    unfold first_key, occ_at, entry_at, place_slot. cbn in *.
    rewrite occ_in_insert, entry_in_insert
      by (rewrite ?length_replicate; lia).
    by rewrite Z.eqb_refl. }
  pose proof (insert_all_keeps_first_key ht1 entries store (fst e) Hct1 Hfirst1 Hval Hall)
    as (Hf & Ho & Hk).
  pose proof (ct_wf store (pr_counted _ _ Hpr)) as Hwf.
  exists (snd (entry_at store (HashTable.first_index store))). split.
  - rewrite get_first_entry by done. rewrite <- Hk. by destruct (entry_at _ _).
  - eapply get_holds; [done|apply Hpr|]. split; [done|]. split; [done|].
    rewrite <- Hk. fold (entry_at store (HashTable.first_index store)).
    by destruct (entry_at store _).
Qed.

End Sequences.

(** * Further properties: the words that are counted *)

(** ** The tokenizer *)

Lemma alnum_not_space c :
  TextProcessor.is_alnum c = true -> TextProcessor.is_space c = false.
Proof. destruct c as [[] [] [] [] [] [] [] []]; vm_compute; congruence. Qed.

Lemma space_not_alnum c :
  TextProcessor.is_space c = true -> TextProcessor.is_alnum c = false.
Proof. destruct c as [[] [] [] [] [] [] [] []]; vm_compute; congruence. Qed.

Lemma append_empty s : (s ++ "")%string = s.
Proof. induction s as [|c s IH]; cbn; congruence. Qed.

Lemma append_assoc s1 s2 s3 : ((s1 ++ s2) ++ s3)%string = (s1 ++ (s2 ++ s3))%string.
Proof. induction s1 as [|c s IH]; cbn; congruence. Qed.

Lemma append_char_not_empty s c : (s ++ String c "")%string <> ""%string.
Proof. by destruct s. Qed.

(** Splitting the cleaned word at white space gives the runs of letters
    and digits of the word. *)
Lemma extract_clean_text_from in_run word text :
  (in_run = true -> word = ""%string) ->
  TextProcessor.extract_from word (TextProcessor.clean_text_from in_run text) =
  runs_from word text.
Proof.
  revert in_run word. induction text as [|c rest IH]; intros in_run word Hrun; [done|].
  cbn [TextProcessor.clean_text_from runs_from].
  destruct (TextProcessor.is_alnum c) eqn:Hc.
  - cbn [TextProcessor.extract_from]. rewrite (alnum_not_space c Hc).
    apply IH. done.
  - destruct in_run.
    + rewrite (Hrun eq_refl). cbn. by apply IH.
    + cbn [TextProcessor.extract_from].
      change (TextProcessor.is_space " ") with true. cbn match.
      destruct (String.eqb word ""); [|f_equal]; by apply IH.
Qed.

Lemma extract_clean_text word :
  TextProcessor.extract (TextProcessor.clean_text word) = alnum_runs word.
Proof. by apply extract_clean_text_from. Qed.

Lemma runs_from_nil word :
  runs_from word "" = if String.eqb word "" then [] else [word].
Proof. done. Qed.

(** A character that is no letter or digit ends the run. *)
Lemma runs_from_break word s c rest :
  TextProcessor.is_alnum c = false ->
  runs_from word (s ++ String c rest) = runs_from word s ++ alnum_runs rest.
Proof.
  intros Hc. revert word. induction s as [|d s IH]; intros word.
  - cbn. rewrite Hc. by destruct (String.eqb word "").
  - cbn. destruct (TextProcessor.is_alnum d); [apply IH|].
    destruct (String.eqb word ""); cbn; by rewrite IH.
Qed.

Lemma alnum_runs_words word text :
  flat_map alnum_runs (TextProcessor.extract_from word text) =
  alnum_runs (word ++ text).
Proof.
  revert word. induction text as [|c rest IH]; intros word.
  - cbn. rewrite append_empty. destruct (String.eqb_spec word "") as [->|]; [done|].
    cbn. by rewrite app_nil_r.
  - cbn [TextProcessor.extract_from]. destruct (TextProcessor.is_space c) eqn:Hc.
    + unfold alnum_runs at 2.
      rewrite (runs_from_break "" word c rest (space_not_alnum c Hc)).
      destruct (String.eqb_spec word "") as [->|].
      * by rewrite (IH ""%string).
      * cbn [flat_map]. by rewrite (IH ""%string).
    + rewrite IH, append_assoc. done.
Qed.

Lemma runs_from_not_empty word text :
  Forall (fun w => w <> ""%string) (runs_from word text).
Proof.
  revert word. induction text as [|c rest IH]; intros word; cbn.
  - destruct (String.eqb_spec word ""); [done|]. by apply Forall_cons.
  - destruct (TextProcessor.is_alnum c); [apply IH|].
    destruct (String.eqb_spec word ""); [apply IH|]. apply Forall_cons. by split.
Qed.

Lemma transform_not_empty f s :
  s <> ""%string -> TextProcessor.transform f s <> ""%string.
Proof. by destruct s. Qed.

Lemma tolower_alnum c :
  TextProcessor.is_alnum c = true -> is_lower_alnum (TextProcessor.tolower c) = true.
Proof. destruct c as [[] [] [] [] [] [] [] []]; vm_compute; congruence. Qed.

Lemma list_ascii_of_string_append s1 s2 :
  list_ascii_of_string (s1 ++ s2) = list_ascii_of_string s1 ++ list_ascii_of_string s2.
Proof. induction s1 as [|c s IH]; cbn; congruence. Qed.

Lemma list_ascii_of_string_transform f s :
  list_ascii_of_string (TextProcessor.transform f s) = map f (list_ascii_of_string s).
Proof. induction s as [|c s IH]; cbn; congruence. Qed.

Lemma runs_from_alnum word text :
  Forall (fun c => TextProcessor.is_alnum c = true) (list_ascii_of_string word) ->
  Forall (fun w => Forall (fun c => TextProcessor.is_alnum c = true)
                     (list_ascii_of_string w))
    (runs_from word text).
Proof.
  revert word. induction text as [|c rest IH]; intros word Hword; cbn.
  - destruct (String.eqb word ""); [done|]. by apply Forall_cons.
  - destruct (TextProcessor.is_alnum c) eqn:Hc.
    + apply IH. rewrite list_ascii_of_string_append. apply Forall_app. split; [done|].
      cbn. by apply Forall_cons.
    + destruct (String.eqb word ""); [by apply IH|].
      apply Forall_cons. split; [done|]. by apply IH.
Qed.

Section Tokenizer.

Variable hash_fn : string -> N.

Let step (acc : outcome HashTable.t) (word : string) : outcome HashTable.t :=
  ht <- acc ;; TextProcessor.count_word hash_fn ht word.

Let outer_step (acc : outcome (Z * HashTable.t)) (word : string)
    : outcome (Z * HashTable.t) :=
  state <- acc ;;
  let word_count := fst state in
  if word_count =? INT_MAX then Undefined
  else
    let word_count := word_count + 1 in
    hash_table <- TextProcessor.process_word hash_fn (snd state) word ;;
    Ok (word_count, hash_table).

Let outer_loop (tokens : list string) (word_count : Z) (acc : outcome HashTable.t)
    : outcome HashTable.t :=
  state <- fold_left outer_step tokens (ht <- acc ;; Ok (word_count, ht)) ;;
  Ok (snd state).

Lemma fold_step_bind words acc :
  (ht <- acc ;; fold_left step words (Ok ht)) = fold_left step words acc.
Proof.
  destruct acc as [ht|e|]; [done| |]; induction words as [|w words IH]; done.
Qed.

Lemma process_word_runs ht word :
  TextProcessor.process_word hash_fn ht word =
  fold_left step (counted_words word) (Ok ht).
Proof.
  unfold TextProcessor.process_word, counted_words. rewrite extract_clean_text.
  unfold alnum_runs. pose proof (runs_from_not_empty "" word) as Hne.
  generalize dependent (runs_from "" word). intros l Hne. generalize (Ok ht).
  induction l as [|w l IH]; intros acc; [done|].
  apply Forall_cons in Hne as [Hw Hne]. cbn [fold_left map]. rewrite <- IH by done.
  f_equal. unfold step. destruct acc as [ht'|e|]; [|done..]. cbn [bind].
  destruct (String.eqb_spec (TextProcessor.transform TextProcessor.tolower w) "")
    as [E|]; [|done].
  by apply transform_not_empty in E.
Qed.

Lemma counted_words_words word text :
  flat_map counted_words (TextProcessor.extract_from word text) =
  counted_words (word ++ text).
Proof.
  unfold counted_words. rewrite <- alnum_runs_words.
  induction (TextProcessor.extract_from word text) as [|w l IH]; [done|].
  cbn [flat_map]. by rewrite map_app, IH.
Qed.

Lemma fold_step_failed words (acc : outcome HashTable.t) :
  (forall ht, acc <> Ok ht) -> fold_left step words acc = acc.
Proof.
  intros Hacc. rewrite <- fold_step_bind. destruct acc as [ht|e|]; [|done..].
  by destruct (Hacc ht).
Qed.

Lemma fold_outer_step_failed tokens (acc : outcome (Z * HashTable.t)) :
  (forall state, acc <> Ok state) -> fold_left outer_step tokens acc = acc.
Proof.
  intros Hacc. destruct acc as [state|e|]; [by destruct (Hacc state)| |];
    induction tokens; done.
Qed.

(** The outer loop of [extract_words] from [word_count] on: it hands the
    words of its tokens to the counter, unless [word_count] overflows. *)
Lemma extract_words_loop tokens word_count acc :
  0 <= word_count <= INT_MAX ->
  (word_count + Z.of_nat (length tokens) <= INT_MAX ->
   outer_loop tokens word_count acc =
     fold_left step (flat_map counted_words tokens) acc) /\
  (outer_loop tokens word_count acc =
     fold_left step (flat_map counted_words tokens) acc \/
   outer_loop tokens word_count acc = Undefined).
Proof.
  unfold outer_loop. revert word_count acc.
  induction tokens as [|w l IH]; intros word_count acc Hcount.
  - cbn [fold_left flat_map].
    assert ((state <- (ht <- acc ;; Ok (word_count, ht)) ;; Ok (snd state)) = acc)
      as -> by (by destruct acc).
    auto.
  - cbn [fold_left flat_map length]. rewrite fold_left_app.
    destruct acc as [ht|e|]; cbn [bind].
    + change (outer_step (Ok (word_count, ht)) w)
        with (if word_count =? INT_MAX then Undefined
              else (hash_table <- TextProcessor.process_word hash_fn ht w ;;
                    Ok (word_count + 1, hash_table))).
      destruct (Z.eqb_spec word_count INT_MAX) as [->|Hne].
      * rewrite fold_outer_step_failed by (intros; discriminate).
        split; [lia|by right].
      * rewrite <- process_word_runs.
        destruct (IH (word_count + 1)
                    (TextProcessor.process_word hash_fn ht w)) as [IH1 IH2]; [lia|].
        split; [|done]. intros Hlen. apply IH1. lia.
    + change (outer_step (Throw e) w) with (@Throw (Z * HashTable.t) e).
      rewrite (fold_step_failed (counted_words w)), fold_outer_step_failed,
        fold_step_failed by (intros; discriminate).
      auto.
    + change (outer_step Undefined w) with (@Undefined (Z * HashTable.t)).
      rewrite (fold_step_failed (counted_words w)), fold_outer_step_failed,
        fold_step_failed by (intros; discriminate).
      auto.
Qed.

Lemma counted_words_tokens text :
  flat_map counted_words (TextProcessor.extract text) = counted_words text.
Proof. apply (counted_words_words "" text). Qed.

(** [extract_words] on a text whose tokens [word_count] can count. *)
Lemma extract_words_runs text ht :
  Z.of_nat (length (TextProcessor.extract text)) <= INT_MAX ->
  TextProcessor.extract_words hash_fn (Some text) ht =
  fold_left step (counted_words text) (Ok ht).
Proof.
  intros Htokens. rewrite <- counted_words_tokens.
  apply (extract_words_loop (TextProcessor.extract text) 0 (Ok ht));
    unfold INT_MAX in *; lia.
Qed.

(** [extract_words] on any text: the overflow of [word_count] is the only
    other end. *)
Lemma extract_words_runs_or_overflow text ht :
  TextProcessor.extract_words hash_fn (Some text) ht =
    fold_left step (counted_words text) (Ok ht) \/
  TextProcessor.extract_words hash_fn (Some text) ht = Undefined.
Proof.
  rewrite <- counted_words_tokens.
  apply (extract_words_loop (TextProcessor.extract text) 0 (Ok ht)).
  unfold INT_MAX. lia.
Qed.

(** X17. On a text of at most [INT_MAX] tokens (the words between white
    space, which [word_count] counts), the two passes of [extract_words]
    (split at white space, replace what is no letter or digit, split again,
    lower-case) hand to the counter exactly the maximal runs of letters and
    digits of the text, in order and in lower case; no empty word is
    counted, and every counted word consists of lower-case letters and
    digits. *)
Theorem extract_words_counts_runs_of_letters_and_digits text ht :
  Z.of_nat (length (TextProcessor.extract text)) <= INT_MAX ->
  TextProcessor.extract_words hash_fn (Some text) ht =
    fold_left
      (fun acc word => ht <- acc ;; TextProcessor.count_word hash_fn ht word)
      (map (TextProcessor.transform TextProcessor.tolower) (alnum_runs text))
      (Ok ht) /\
  Forall (fun word =>
            word <> ""%string /\
            Forall (fun c => is_lower_alnum c = true) (list_ascii_of_string word))
    (map (TextProcessor.transform TextProcessor.tolower) (alnum_runs text)).
Proof.
  intros Htokens. split; [by apply extract_words_runs|].
  apply Forall_map. unfold alnum_runs.
  pose proof (runs_from_not_empty "" text) as Hne.
  pose proof (runs_from_alnum "" text (Forall_nil_2 _)) as Hal.
  induction (runs_from "" text) as [|w l IH]; [done|].
  apply Forall_cons in Hne as [Hw Hne]. apply Forall_cons in Hal as [Hwa Hal].
  apply Forall_cons. split; [|by apply IH]. cbn beta. split.
  - by apply transform_not_empty.
  - rewrite list_ascii_of_string_transform. apply Forall_map.
    eapply Forall_impl; [exact Hwa|]. intros c Hc. by apply tolower_alnum.
Qed.

End Tokenizer.

Lemma occurrences_app word l1 l2 :
  occurrences word (l1 ++ l2) = occurrences word l1 + occurrences word l2.
Proof. unfold occurrences. rewrite List.filter_app, length_app. lia. Qed.

Lemma occurrences_bounds word l : 0 <= occurrences word l <= Z.of_nat (length l).
Proof.
  unfold occurrences. pose proof (List.filter_length_le (String.eqb word) l). lia.
Qed.

Lemma occurrences_one word w :
  occurrences word [w] = if String.eqb word w then 1 else 0.
Proof. unfold occurrences. cbn. by destruct (String.eqb word w). Qed.

Lemma occurrences_zero word l : occurrences word l = 0 <-> ~ In word l.
Proof.
  unfold occurrences. induction l as [|w l IH]; cbn; [split; [intros _ []|done]|].
  destruct (String.eqb_spec word w) as [->|Hne]; cbn [length].
  - split; [lia|]. intros H. destruct H. by left.
  - rewrite IH. split; [intros H [?|?]; [congruence|done]|].
    intros H Hin. apply H. by right.
Qed.

Lemma nodup_snoc (l : list string) w :
  length (nodup string_dec (l ++ [w])) =
  (length (nodup string_dec l) + if in_dec string_dec w l then 0 else 1)%nat.
Proof.
  induction l as [|x l IH]; [done|].
  cbn [app nodup].
  assert (In w (x :: l) <-> x = w \/ In w l) as Hcons by done.
  destruct (in_dec string_dec x (l ++ [w])) as [Hin|Hin];
    destruct (in_dec string_dec x l) as [Hx|Hx]; cbn [length]; rewrite ?IH.
  - destruct (in_dec string_dec w l) as [Hw|Hw];
      destruct (in_dec string_dec w (x :: l)) as [Hw'|Hw']; try lia.
    + destruct Hw'. apply Hcons. by right.
    + apply Hcons in Hw' as [<-|?]; done.
  - apply in_app_or in Hin as [?|Hin]; [done|].
    assert (x = w) as -> by (destruct Hin as [?|[]]; done).
    destruct (in_dec string_dec w l) as [Hw|Hw]; [done|].
    destruct (in_dec string_dec w (w :: l)) as [Hw'|Hw']; [lia|].
    destruct Hw'. by left.
  - destruct Hin. apply in_or_app. by left.
  - assert (x <> w) as Hne.
    { intros ->. apply Hin. apply in_or_app. right. by left. }
    destruct (in_dec string_dec w l) as [Hw|Hw];
      destruct (in_dec string_dec w (x :: l)) as [Hw'|Hw']; try lia.
    + destruct Hw'. apply Hcons. by right.
    + apply Hcons in Hw' as [?|?]; done.
Qed.

Section WordCount.

Variable hash_fn : string -> N.

Let step (acc : outcome HashTable.t) (word : string) : outcome HashTable.t :=
  ht <- acc ;; TextProcessor.count_word hash_fn ht word.

Lemma insert_forall ht key value ht' (P : string * Z -> Prop) :
  counted ht -> HashTable.insert hash_fn ht key value = Ok ht' ->
  P (EmptyString, 0) -> P (key, value) ->
  Forall P (HashTable.table ht) -> Forall P (HashTable.table ht').
Proof.
  intros Hct Hins HP0 HP HF.
  destruct (insert_result hash_fn ht key value ht' Hct Hins)
    as (base & r & Hbase & Hct' & Hr & Hcases).
  assert (Forall P (HashTable.table base)) as HFb.
  { destruct Hbase as [[-> _]|[Hres Hfull]]; [done|].
    destruct (Z_le_dec (HashTable.size ht) (INT_MAX - 2000)) as [Hroom|Hroom];
      [|rewrite resize_overflow in Hres by lia; done].
    destruct (resize_counted hash_fn ht Hct Hroom) as (ht2 & Hres2 & _ & _ & _ & HPr).
    rewrite Hres in Hres2. injection Hres2 as <-. by apply HPr. }
  destruct Hcases as [(v0 & Hv0 & ->)|[_ ->]]; cbn; apply Forall_insert; try done.
  destruct Hv0 as (_ & _ & He). unfold entry_at. by rewrite He.
Qed.

Lemma count_word_forall ht word ht' (P : string * Z -> Prop) :
  counted ht -> TextProcessor.count_word hash_fn ht word = Ok ht' ->
  P (EmptyString, 0) -> (forall v, P (word, v)) ->
  Forall P (HashTable.table ht) -> Forall P (HashTable.table ht').
Proof.
  intros Hct Hcw HP0 HP HF. unfold TextProcessor.count_word in Hcw.
  assert (forall v, HashTable.insert hash_fn ht word v = Ok ht' ->
            Forall P (HashTable.table ht')) as Hins.
  { intros v Hv. by apply (insert_forall ht word v). }
  destruct (HashTable.get hash_fn ht word) as [c|[]|]; cbn [bind] in Hcw;
    try done; [|by eapply Hins].
  destruct (c =? INT_MAX); [done|].
  destruct (HashTable.insert hash_fn ht word (c + 1)) as [x|[]|] eqn:E;
    try done; [|by eapply Hins].
  injection Hcw as <-. by eapply Hins.
Qed.

Lemma count_words_spec words counted_before ht :
  probed hash_fn ht ->
  (forall word,
     HashTable.get hash_fn ht word = counted_answer (occurrences word counted_before)) ->
  HashTable.elements_count ht =
    Z.of_nat (length (nodup string_dec counted_before)) ->
  HashTable.size ht + 2000 * Z.of_nat (length words) <= INT_MAX ->
  Z.of_nat (length counted_before) + Z.of_nat (length words) <= INT_MAX ->
  exists ht',
    fold_left step words (Ok ht) = Ok ht' /\
    probed hash_fn ht' /\
    (forall word,
       HashTable.get hash_fn ht' word =
         counted_answer (occurrences word (counted_before ++ words))) /\
    HashTable.elements_count ht' =
      Z.of_nat (length (nodup string_dec (counted_before ++ words))) /\
    forall P : string * Z -> Prop,
      P (EmptyString, 0) -> Forall (fun word => forall v, P (word, v)) words ->
      Forall P (HashTable.table ht) -> Forall P (HashTable.table ht').
Proof.
  revert counted_before ht.
  induction words as [|w words IH]; intros before ht Hpr Hget Hcount Hroom Hlen.
  - exists ht. rewrite app_nil_r. done.
  - cbn [length] in Hroom, Hlen. cbn [fold_left]. unfold step at 2. cbn [bind].
    assert (HashTable.elements_count ht = HashTable.size ht ->
            HashTable.size ht <= INT_MAX - 2000) as Hroom1 by lia.
    pose proof (occurrences_bounds w before) as Hb.
    assert (forall c, HashTable.get hash_fn ht w = Ok c -> int_range (c + 1)) as Hint.
    { intros c Hc. rewrite Hget in Hc. unfold counted_answer in Hc.
      destruct (_ =? 0); [done|]. injection Hc as <-.
      unfold int_range, INT_MAX in *. lia. }
    destruct (count_word_spec hash_fn ht w Hpr Hroom1 Hint)
      as (ht1 & Hstep & Hpr1 & Hsize1 & Hget1 & Hcount1).
    rewrite Hstep.
    destruct (IH (before ++ [w]) ht1) as (ht' & Hfold & Hpr' & Hget' & Hcount' & HP').
    + done.
    + intros word. rewrite Hget1, occurrences_app, occurrences_one.
      destruct (String.eqb_spec word w) as [->|Hne].
      * rewrite Hget. unfold counted_answer.
        destruct (Z.eqb_spec (occurrences w before) 0) as [->|]; [done|].
        destruct (Z.eqb_spec (occurrences w before + 1) 0); [lia|done].
      * by rewrite Hget, Z.add_0_r.
    + rewrite Hcount1, Hget, nodup_snoc, Hcount. unfold counted_answer.
      destruct (Z.eqb_spec (occurrences w before) 0) as [E|E].
      * apply occurrences_zero in E. destruct (in_dec string_dec w before); [done|lia].
      * destruct (in_dec string_dec w before) as [|Hn]; [lia|].
        by apply occurrences_zero in Hn.
    + destruct (_ =? _); lia.
    + rewrite length_app. cbn [length]. lia.
    + exists ht'. rewrite <- app_assoc in Hget', Hcount'.
      split; [done|]. split; [done|]. split; [done|]. split; [done|].
      intros P HP0 HPw HF. apply Forall_cons in HPw as [HPw HPws].
      apply HP'; [done..|].
      by apply (count_word_forall ht w ht1 P (pr_counted _ _ Hpr)).
Qed.

(** X18. [extract_words] counts the words: run on a text of at most
    [INT_MAX] tokens and a new table that has room for the words, it
    returns a table in which [get] gives for every word the number of
    times it occurs among the lower-cased runs of letters and digits of the
    text, and throws [invalid_argument] for a word that does not occur; the
    number of occupied slots is the number of different words. *)
Theorem extract_words_counts_occurrences n ht0 text :
  0 < n ->
  Z.of_nat (length (TextProcessor.extract text)) <= INT_MAX ->
  n + 2000 * Z.of_nat (length (counted_words text)) <= INT_MAX ->
  HashTable.new n = Ok ht0 ->
  exists ht,
    TextProcessor.extract_words hash_fn (Some text) ht0 = Ok ht /\
    (forall word,
       HashTable.get hash_fn ht word =
         if occurrences word (counted_words text) =? 0
         then Throw invalid_argument
         else Ok (occurrences word (counted_words text))) /\
    fst (HashTable.get_stats ht) =
      Z.of_nat (length (nodup string_dec (counted_words text))).
Proof.
  intros Hn Htokens Hroom Hnew.
  assert (0 < n <= INT_MAX) as Hn' by lia.
  destruct (new_probed hash_fn n ht0 Hn' Hnew) as (Hpr & Hsize & Hcount & Hget).
  destruct (count_words_spec (counted_words text) [] ht0 Hpr)
    as (ht & Hfold & Hpr' & Hget' & Hcount' & _); [done|done|lia|cbn [length]; lia|].
  exists ht. split; [by rewrite extract_words_runs|]. split; [done|].
  rewrite get_stats_count. cbn [fst].
  by rewrite <- (ct_count ht (pr_counted _ _ Hpr')).
Qed.

End WordCount.

Lemma clean_text_from_filter in_run text :
  List.filter TextProcessor.is_alnum
    (list_ascii_of_string (TextProcessor.clean_text_from in_run text)) =
  List.filter TextProcessor.is_alnum (list_ascii_of_string text).
Proof.
  revert in_run. induction text as [|c rest IH]; intros in_run; [done|].
  cbn [TextProcessor.clean_text_from list_ascii_of_string List.filter].
  destruct (TextProcessor.is_alnum c) eqn:Hc.
  - cbn [list_ascii_of_string List.filter]. rewrite Hc. by rewrite IH.
  - destruct in_run; [apply IH|]. cbn [list_ascii_of_string List.filter].
    change (TextProcessor.is_alnum " ") with false. cbn match. apply IH.
Qed.

Lemma clean_text_from_chars in_run text :
  Forall (fun c => TextProcessor.is_alnum c = true \/ c = " "%char)
    (list_ascii_of_string (TextProcessor.clean_text_from in_run text)).
Proof.
  revert in_run. induction text as [|c rest IH]; intros in_run; [done|].
  cbn [TextProcessor.clean_text_from].
  destruct (TextProcessor.is_alnum c) eqn:Hc.
  - apply Forall_cons. split; [by left|apply IH].
  - destruct in_run; [apply IH|]. apply Forall_cons. split; [by right|apply IH].
Qed.

Lemma clean_text_from_twice in_run text :
  TextProcessor.clean_text_from in_run (TextProcessor.clean_text_from in_run text) =
  TextProcessor.clean_text_from in_run text.
Proof.
  revert in_run. induction text as [|c rest IH]; intros in_run; [done|].
  cbn [TextProcessor.clean_text_from].
  destruct (TextProcessor.is_alnum c) eqn:Hc.
  - cbn [TextProcessor.clean_text_from]. rewrite Hc. by rewrite IH.
  - destruct in_run; [apply IH|]. cbn [TextProcessor.clean_text_from].
    change (TextProcessor.is_alnum " ") with false. cbn match. by rewrite IH.
Qed.

Lemma clean_text_from_length in_run text :
  (String.length (TextProcessor.clean_text_from in_run text) <= String.length text)%nat.
Proof.
  revert in_run. induction text as [|c rest IH]; intros in_run; [done|].
  cbn [TextProcessor.clean_text_from].
  pose proof (IH true). pose proof (IH false).
  destruct (TextProcessor.is_alnum c); [|destruct in_run]; cbn [String.length]; lia.
Qed.

(** X19. [clean_text] keeps the letters and digits of the text, in order,
    and puts one space for all that stands between them: the result has
    the same letters and digits, nothing else but spaces, is not longer
    than the text, is left as it is by a second [clean_text], and splits
    at its spaces into the runs of letters and digits of the text. *)
Theorem clean_text_keeps_letters_and_digits text :
  List.filter TextProcessor.is_alnum
    (list_ascii_of_string (TextProcessor.clean_text text)) =
  List.filter TextProcessor.is_alnum (list_ascii_of_string text) /\
  Forall (fun c => TextProcessor.is_alnum c = true \/ c = " "%char)
    (list_ascii_of_string (TextProcessor.clean_text text)) /\
  (String.length (TextProcessor.clean_text text) <= String.length text)%nat /\
  TextProcessor.clean_text (TextProcessor.clean_text text) =
    TextProcessor.clean_text text /\
  TextProcessor.extract (TextProcessor.clean_text text) = alnum_runs text.
Proof.
  split; [apply clean_text_from_filter|]. split; [apply clean_text_from_chars|].
  split; [apply clean_text_from_length|]. split; [apply clean_text_from_twice|].
  apply extract_clean_text.
Qed.

(** * Further properties: loading and saving *)

Ltac read_short_header_field :=
  match goal with
  | |- context [read_int_into ?old ?s] =>
      let Hlen := fresh "Hlen" in
      destruct (le_lt_dec 4 (length s)) as [Hlen|Hlen];
      [ rewrite (read_int_into_full old s Hlen); cbv beta iota zeta; cbn [negb]
      | let H := fresh in
        let g := fresh "good" in
        pose proof (read_int_into_short old s Hlen) as H;
        destruct (read_int_into old s) as [[? ?] g]; cbn [snd] in H; subst g;
        cbv beta iota zeta; cbn [negb]; eexists; split; [reflexivity|done] ]
  end.

Lemma load_from_file_cut_header ht file :
  (4 <= length file < 16)%nat ->
  exists ht',
    HashTable.load_from_file ht (Some file) = Ok (false, ht') /\
    HashTable.size ht' = header_field 0 file /\
    HashTable.table ht' = HashTable.table ht /\
    HashTable.occupied ht' = HashTable.occupied ht.
Proof.
  intros Hshort. unfold HashTable.load_from_file, header_field. rewrite drop_0.
  rewrite read_int_into_full by lia. cbv beta iota zeta.
  cbn [negb HashTable.size HashTable.table HashTable.occupied
       HashTable.first_index HashTable.last_index HashTable.elements_count].
  do 3 (read_short_header_field;
        cbn [HashTable.size HashTable.table HashTable.occupied
             HashTable.first_index HashTable.last_index HashTable.elements_count]).
  rewrite !length_drop in *. lia.
Qed.

Lemma parse_slots_length n file : (length (parse_slots n file) <= n)%nat.
Proof.
  revert file. induction n as [|n IH]; intros file; cbn; [lia|].
  destruct (parse_slot file) as [[[e o] rest]|]; cbn; [|lia].
  specialize (IH rest). lia.
Qed.

Lemma overwrite_lookup_new {A} (new old : list A) i x :
  new !! i = Some x -> overwrite 0 new old !! i = Some x.
Proof.
  intros H. unfold overwrite. rewrite take_0. cbn [Nat.add app].
  rewrite lookup_app_l; [done|]. by eapply lookup_lt_Some.
Qed.

Lemma overwrite_lookup_old {A} (new old : list A) i :
  (length new <= i)%nat -> overwrite 0 new old !! i = old !! i.
Proof.
  intros H. unfold overwrite. rewrite take_0. cbn [Nat.add app].
  rewrite lookup_app_r by done. rewrite lookup_drop. f_equal. lia.
Qed.

Lemma resize_lookup {A} n (x : A) l i :
  (i < n)%nat -> resize n x l !! i = Some (default x (l !! i)).
Proof.
  intros Hi. destruct (le_lt_dec (length l) i) as [Hl|Hl].
  - rewrite lookup_resize_new by done. by rewrite lookup_ge_None_2.
  - rewrite lookup_resize by done.
    destruct (lookup_lt_is_Some_2 l i Hl) as [y Hy]. by rewrite Hy.
Qed.

(** X20. [load_from_file] on a file with a whole header and a capacity that
    is not negative returns [true] and leaves a table of that capacity:
    the counters are the header's, whatever the slots say; the slots that
    could be read are the file's; the slots from the first one that could
    not be read keep what the table held before (and are empty beyond its
    old capacity). *)
Theorem load_from_file_reads_what_it_can ht file :
  (16 <= length file)%nat -> 0 <= header_field 0 file ->
  exists ht',
    HashTable.load_from_file ht (Some file) = Ok (true, ht') /\
    HashTable.size ht' = header_field 0 file /\
    HashTable.elements_count ht' = header_field 4 file /\
    HashTable.first_index ht' = header_field 8 file /\
    HashTable.last_index ht' = header_field 12 file /\
    Z.of_nat (length (HashTable.table ht')) = header_field 0 file /\
    Z.of_nat (length (HashTable.occupied ht')) = header_field 0 file /\
    (forall i e o,
       parse_slots (Z.to_nat (header_field 0 file)) (drop 16 file) !! i = Some (e, o) ->
       HashTable.table ht' !! i = Some e /\ HashTable.occupied ht' !! i = Some o) /\
    (forall i,
       (length (parse_slots (Z.to_nat (header_field 0 file)) (drop 16 file)) <= i
          < Z.to_nat (header_field 0 file))%nat ->
       HashTable.table ht' !! i = Some (default (EmptyString, 0) (HashTable.table ht !! i)) /\
       HashTable.occupied ht' !! i = Some (default false (HashTable.occupied ht !! i))).
Proof.
  intros Hlen Hcap. rewrite load_from_file_header by done.
  destruct (Z.ltb_spec (header_field 0 file) 0); [lia|].
  eexists. split; [done|]. unfold loaded.
  set (capacity := header_field 0 file) in *.
  set (slots := parse_slots (Z.to_nat capacity) (drop 16 file)).
  pose proof (parse_slots_length (Z.to_nat capacity) (drop 16 file)) as Hslots.
  fold slots in Hslots.
  cbn [HashTable.size HashTable.elements_count HashTable.first_index
       HashTable.last_index HashTable.table HashTable.occupied].
  split; [done|]. split; [done|]. split; [done|]. split; [done|].
  assert (forall {A} (new old : list A),
            (length new <= length old)%nat ->
            length (overwrite 0 new old) = length old) as Hov.
  { intros A new old Hle. unfold overwrite. rewrite take_0. cbn [Nat.add app].
    rewrite length_app, length_drop. lia. }
  split; [|split; [|split]].
  - rewrite Hov by (rewrite length_map, length_resize; done).
    rewrite length_resize. lia.
  - rewrite Hov by (rewrite length_map, length_resize; done).
    rewrite length_resize. lia.
  - intros i e o Hi. split; apply overwrite_lookup_new; rewrite list_lookup_fmap.
    + by rewrite Hi.
    + by rewrite Hi.
  - intros i Hi.
    rewrite !overwrite_lookup_old by (rewrite length_map; lia).
    rewrite !resize_lookup by lia. done.
Qed.

(** X21. A file that ends inside the header makes [load_from_file] return
    [false], but not before the capacity it read has been stored: the
    table is left with the new [size] and the old vectors. *)
Theorem load_from_file_of_cut_header_changes_size ht file :
  (4 <= length file < 16)%nat ->
  exists ht',
    HashTable.load_from_file ht (Some file) = Ok (false, ht') /\
    HashTable.size ht' = header_field 0 file /\
    HashTable.table ht' = HashTable.table ht /\
    HashTable.occupied ht' = HashTable.occupied ht.
Proof. apply load_from_file_cut_header. Qed.

Lemma encode_slots_length tbl : forall occ,
  length occ = length tbl ->
  length (encode_slots tbl occ) =
    list_sum (map (fun e : string * Z => (9 + String.length (fst e))%nat) tbl).
Proof.
  induction tbl as [|e tbl IH]; intros [|o occ] Hlen; try done.
  cbn [encode_slots map]. rewrite length_app, IH by (cbn in Hlen; lia).
  unfold encode_slot. rewrite !length_app, !length_encode_int.
  rewrite length_list_ascii_of_string. cbn [length].
  unfold list_sum at 2. cbn [fold_right]. fold (list_sum (map
    (fun e0 : string * Z => (9 + String.length (fst e0))%nat) tbl)). lia.
Qed.

(** X22. [save_to_file] throws [runtime_error] when the file cannot be
    opened; otherwise it writes the four members and then, for each slot in
    turn, the length of the key, the key, the value and the occupancy byte,
    empty slots included: 16 bytes and 9 more than its key for each slot. *)
Theorem save_to_file_layout ht :
  wf ht -> short_keys ht ->
  HashTable.save_to_file ht false = Throw runtime_error /\
  exists file,
    HashTable.save_to_file ht true = Ok file /\
    file =
      encode_int (HashTable.size ht) ++ encode_int (HashTable.elements_count ht)
        ++ encode_int (HashTable.first_index ht)
        ++ encode_int (HashTable.last_index ht)
        ++ encode_slots (HashTable.table ht) (HashTable.occupied ht) /\
    length file =
      (16 + list_sum (map (fun e : string * Z => (9 + String.length (fst e))%nat)
                        (HashTable.table ht)))%nat.
Proof.
  intros Hwf Hkeys. split; [done|].
  pose proof (wf_table ht Hwf) as Ht. pose proof (wf_occupied ht Hwf) as Ho.
  unfold HashTable.save_to_file.
  rewrite save_loop_spec by (done || lia). cbn [bind].
  change (Z.to_nat 0) with 0%nat. rewrite !drop_0, !firstn_all2 by lia.
  eexists. split; [done|]. split; [done|].
  rewrite !length_app, !length_encode_int, encode_slots_length by lia. lia.
Qed.

(** X23. [save_to_file] and then [load_from_file] give back every table that
    can be stored, not only those that insertions alone have built: the
    vectors have [size] elements, the members and the values are [int]s and
    the keys have at most 1000 characters; slots may be empty, keys may sit
    behind empty slots or be stored twice. The table that is loaded into
    does not matter. *)
Theorem save_then_load_gives_any_table_back ht fresh :
  storable ht ->
  exists file,
    HashTable.save_to_file ht true = Ok file /\
    HashTable.load_from_file fresh (Some file) = Ok (true, ht).
Proof.
  intros Hst. destruct (save_load_storable ht Hst) as (file & Hsave & Hload).
  exists file. split; [done|apply Hload].
Qed.

(** * Further properties: the checksum and the cache *)

Lemma hex_shape byte :
  (1 <= String.length (TextProcessor.hex byte) <= 2)%nat /\
  Forall (fun c => is_hex_digit c = true)
    (list_ascii_of_string (TextProcessor.hex byte)) /\
  (String.length (TextProcessor.hex byte) = 2%nat <-> (16 <= N_of_ascii byte)%N).
Proof.
  assert (forallb is_hex_digit (list_ascii_of_string (TextProcessor.hex byte)) = true)
    as Hhex by (destruct byte as [[] [] [] [] [] [] [] []]; vm_compute; reflexivity).
  assert (String.length (TextProcessor.hex byte) =
            if (N_of_ascii byte <? 16)%N then 1%nat else 2%nat) as Hlen
    by (destruct byte as [[] [] [] [] [] [] [] []]; vm_compute; reflexivity).
  rewrite Hlen. destruct (N.ltb_spec (N_of_ascii byte) 16).
  - split; [lia|]. split; [|split; [done|lia]].
    apply Forall_forall. intros c Hc. apply list_elem_of_In in Hc.
    by eapply forallb_forall in Hhex.
  - split; [lia|]. split; [|done].
    apply Forall_forall. intros c Hc. apply list_elem_of_In in Hc.
    by eapply forallb_forall in Hhex.
Qed.

Lemma hex_digit_not_space c : is_hex_digit c = true -> TextProcessor.is_space c = false.
Proof. destruct c as [[] [] [] [] [] [] [] []]; vm_compute; congruence. Qed.

Lemma string_length_append s1 s2 :
  String.length (s1 ++ s2) = (String.length s1 + String.length s2)%nat.
Proof. induction s1 as [|c s IH]; cbn; congruence. Qed.

Section ChecksumShape.

Variable MD5_CTX : Type.
Variable MD5_Init : MD5_CTX.
Variable MD5_Update : MD5_CTX -> list ascii -> MD5_CTX.
Variable MD5_Final : MD5_CTX -> list ascii.

Let compute_md5 := TextProcessor.compute_md5 MD5_CTX MD5_Init MD5_Update MD5_Final.
Let read_loop := TextProcessor.read_loop MD5_CTX MD5_Update.

Lemma read_loop_whole_buffers k : forall body tail ctx fuel fuel',
  length body = (4096 * k)%nat -> (length tail < 4096)%nat ->
  (k < fuel)%nat -> (k < fuel')%nat ->
  read_loop fuel (body ++ tail) ctx = read_loop fuel' body ctx.
Proof.
  induction k as [|k IH]; intros body tail ctx fuel fuel' Hbody Htail Hfuel Hfuel'.
  - destruct body; [|done]. cbn [app]. unfold read_loop.
    rewrite !read_loop_partial_buffer by (cbn; lia). done.
  - destruct fuel as [|fuel]; [lia|]. destruct fuel' as [|fuel']; [lia|].
    rewrite <- (take_drop 4096 body), <- app_assoc. unfold read_loop.
    rewrite !read_loop_whole_buffer by (rewrite length_take; lia).
    apply IH; [rewrite length_drop|..]; lia.
Qed.

Lemma compute_md5_ok file : exists checksum, compute_md5 (Some file) = Ok checksum.
Proof. eexists. reflexivity. Qed.


Lemma hex_string_shape (digest : nat -> ascii) indices init :
  Forall (fun c => is_hex_digit c = true) (list_ascii_of_string init) ->
  let s := fold_left (fun md5_string i => md5_string ++ TextProcessor.hex (digest i))%string
             indices init in
  (String.length init + length indices <= String.length s
     <= String.length init + 2 * length indices)%nat /\
  Forall (fun c => is_hex_digit c = true) (list_ascii_of_string s).
Proof.
  revert init. induction indices as [|i indices IH]; intros init Hinit; cbn zeta.
  - cbn. split; [lia|done].
  - cbn [fold_left length].
    destruct (hex_shape (digest i)) as (Hlen & Hhex & _).
    destruct (IH (init ++ TextProcessor.hex (digest i))%string) as [Hlen' Hhex'].
    { rewrite list_ascii_of_string_append. by apply Forall_app. }
    rewrite string_length_append in Hlen'. split; [lia|done].
Qed.

Lemma compute_md5_shape file checksum :
  compute_md5 (Some file) = Ok checksum ->
  (16 <= String.length checksum <= 32)%nat /\
  Forall (fun c => is_hex_digit c = true) (list_ascii_of_string checksum).
Proof.
  unfold compute_md5, TextProcessor.compute_md5.
  set (result := MD5_Final _). intros H. injection H as <-.
  destruct (hex_string_shape (fun i => nth i result Ascii.zero)
              (seq 0 TextProcessor.MD5_DIGEST_LENGTH) "") as [Hlen Hhex]; [done|].
  rewrite length_seq in Hlen. split; [|exact Hhex].
  set (s := fold_left _ _ _) in Hlen.
  assert (16 <= String.length s <= 32)%nat as Hlen'; [|exact Hlen'].
  change (String.length "") with 0%nat in Hlen.
  change TextProcessor.MD5_DIGEST_LENGTH with 16%nat in Hlen. lia.
Qed.

Lemma compute_md5_whole_buffers k body tail :
  length body = (4096 * k)%nat -> (length tail < 4096)%nat ->
  compute_md5 (Some (body ++ tail)) = compute_md5 (Some body).
Proof.
  intros Hbody Htail. unfold compute_md5, TextProcessor.compute_md5.
  fold read_loop.
  rewrite (read_loop_whole_buffers k body tail MD5_Init
             (S (length (body ++ tail))) (S (length body))); [done|done|done| |].
  - rewrite length_app. lia.
  - lia.
Qed.

(** X24. The bytes after the last whole buffer of 4096 do not reach the
    digest: a file has the checksum of its whole buffers, whatever MD5
    computes, and two files that differ only after their last whole buffer
    have the same checksum. *)
Theorem compute_md5_skips_last_partial_buffer k body tail changed :
  length body = (4096 * k)%nat ->
  (length tail < 4096)%nat -> (length changed < 4096)%nat ->
  compute_md5 (Some (body ++ tail)) = compute_md5 (Some body) /\
  compute_md5 (Some (body ++ tail)) = compute_md5 (Some (body ++ changed)).
Proof.
  intros Hbody Htail Hchanged.
  rewrite !(compute_md5_whole_buffers k body) by done. done.
Qed.

(** X25. The checksum of a file that can be opened is a string of 16 to 32
    characters, each of them one of 0..9, a..f; a file that cannot be
    opened gives [runtime_error]. *)
Theorem compute_md5_gives_hex_digits file :
  compute_md5 None = Throw runtime_error /\
  exists checksum,
    compute_md5 (Some file) = Ok checksum /\
    (16 <= String.length checksum <= 32)%nat /\
    Forall (fun c => is_hex_digit c = true) (list_ascii_of_string checksum).
Proof.
  split; [done|]. destruct (compute_md5_ok file) as [checksum Hsum].
  exists checksum. split; [done|]. by apply (compute_md5_shape file).
Qed.

End ChecksumShape.

Lemma extract_from_no_space word s :
  Forall (fun c => TextProcessor.is_space c = false) (list_ascii_of_string s) ->
  TextProcessor.extract_from word s =
    if String.eqb (word ++ s) "" then [] else [(word ++ s)%string].
Proof.
  revert word. induction s as [|c s IH]; intros word Hs.
  - cbn. by rewrite append_empty.
  - cbn in Hs. apply Forall_cons in Hs as [Hc Hs].
    cbn [TextProcessor.extract_from]. rewrite Hc, IH, append_assoc by done. done.
Qed.

Lemma decode_int_range bs : - 2 ^ 31 <= decode_int bs < 2 ^ 31.
Proof.
  unfold decode_int, to_int.
  pose proof (Z.mod_pos_bound
    (fold_right (fun b acc => Z.of_N (N_of_ascii b) + 256 * acc) 0 bs + 2 ^ 31)
    (2 ^ 32) ltac:(lia)).
  lia.
Qed.

(** A search in a table whose [size] is larger than its vectors, when no
    slot is occupied, runs off the end of [occupied]. *)
Lemma get_loop_past_the_vectors ht key fuel index :
  (forall i, occ_at ht i = false) ->
  Z.of_nat (length (HashTable.occupied ht)) < HashTable.size ht ->
  0 <= index -> (0 < fuel)%nat ->
  Z.of_nat (length (HashTable.occupied ht)) - index < Z.of_nat fuel ->
  HashTable.get_loop fuel ht index key = Undefined.
Proof.
  intros Hfree Hsize. revert index.
  induction fuel as [|fuel IH]; intros index Hindex Hpos Hfuel.
  - lia.
  - cbn [HashTable.get_loop]. unfold vec_get at 1.
    destruct (Z.ltb_spec index 0); [lia|].
    destruct (HashTable.occupied ht !! Z.to_nat index) as [o|] eqn:E; [|done].
    pose proof (lookup_lt_Some _ _ _ E) as Hlt.
    pose proof (Hfree index) as Ho. unfold occ_at, occ_in in Ho.
    rewrite E in Ho. subst o. cbn [bind andb].
    rewrite rem_succ by lia. rewrite Z.mod_small by lia.
    apply IH; lia.
Qed.

Section ProcessFile.

Variable hash_fn : string -> N.
Variable MD5_CTX : Type.
Variable MD5_Init : MD5_CTX.
Variable MD5_Update : MD5_CTX -> list ascii -> MD5_CTX.
Variable MD5_Final : MD5_CTX -> list ascii.

Let compute_md5 := TextProcessor.compute_md5 MD5_CTX MD5_Init MD5_Update MD5_Final.
Let process_file :=
  TextProcessor.process_file hash_fn MD5_CTX MD5_Init MD5_Update MD5_Final.

(** [>>] reads a checksum back as it was written. *)
Lemma read_checksum_back file checksum :
  compute_md5 (Some file) = Ok checksum ->
  List.hd EmptyString
    (TextProcessor.extract (string_of_list_ascii (list_ascii_of_string checksum)))
  = checksum /\ checksum <> EmptyString.
Proof.
  intros Hsum.
  destruct (compute_md5_shape _ _ _ _ file checksum Hsum) as [Hlen Hhex].
  assert (checksum <> EmptyString) as Hne by (intros ->; cbn in Hlen; lia).
  split; [|done]. rewrite string_of_list_ascii_of_string.
  unfold TextProcessor.extract. rewrite extract_from_no_space.
  - cbn [append]. by destruct (String.eqb_spec checksum "").
  - eapply Forall_impl; [exact Hhex|]. intros c. apply hex_digit_not_space.
Qed.

(** The run that finds the checksum and the table of an earlier run. *)
Lemma process_file_loads fs hash_table file_path hash_file data checksum saved ht :
  file_at fs file_path = Some data ->
  compute_md5 (Some data) = Ok checksum ->
  file_at fs hash_file = Some (list_ascii_of_string checksum) ->
  file_at fs "hash_table.dat" = Some saved ->
  HashTable.load_from_file hash_table (Some saved) = Ok (true, ht) ->
  process_file fs hash_table file_path hash_file = (fs, Ok ht).
Proof.
  intros Hdata Hsum Hsaved Htable Hload.
  unfold process_file, TextProcessor.process_file.
  rewrite Hdata. fold compute_md5. rewrite Hsum.
  unfold TextProcessor.read_saved_checksum. rewrite Hsaved.
  rewrite (proj1 (read_checksum_back data checksum Hsum)), String.eqb_refl.
  by rewrite Htable, Hload.
Qed.

(** The run that finds no checksum. *)
Lemma process_file_builds fs hash_table file_path hash_file data checksum ht saved :
  file_at fs file_path = Some data ->
  compute_md5 (Some data) = Ok checksum ->
  file_at fs hash_file = None ->
  TextProcessor.extract_words hash_fn (Some (string_of_list_ascii data)) hash_table
    = Ok ht ->
  writable fs hash_file = true -> writable fs "hash_table.dat" = true ->
  HashTable.save_to_file ht true = Ok saved ->
  process_file fs hash_table file_path hash_file =
    (write_file (write_file fs hash_file (list_ascii_of_string checksum))
       "hash_table.dat" saved,
     Ok ht).
Proof.
  intros Hdata Hsum Hnone Hwords Hw1 Hw2 Hsave.
  unfold process_file, TextProcessor.process_file.
  rewrite Hdata. fold compute_md5. rewrite Hsum.
  unfold TextProcessor.read_saved_checksum. rewrite Hnone.
  destruct (String.eqb_spec "" checksum) as [E|_].
  { symmetry in E. by apply (read_checksum_back data checksum Hsum) in E. }
  cbn [option_map]. rewrite Hwords, Hw1. cbn [writable write_file].
  by rewrite Hw2, Hsave.
Qed.


Lemma file_at_write_other fs path data p :
  p <> path -> file_at (write_file fs path data) p = file_at fs p.
Proof. intros Hne. cbn. by apply String.eqb_neq in Hne as ->. Qed.

Lemma file_at_write_same fs path data :
  file_at (write_file fs path data) path = Some data.
Proof. cbn. by rewrite String.eqb_refl. Qed.

(** The first run on a text: it counts the words, and leaves a checksum
    and a table file that every later load gives the table back from. *)
Lemma process_file_first_run fs n ht0 file_path hash_file data :
  file_at fs file_path = Some data -> file_at fs hash_file = None ->
  writable fs hash_file = true -> writable fs "hash_table.dat" = true ->
  0 < n ->
  Z.of_nat (length (TextProcessor.extract (string_of_list_ascii data))) <= INT_MAX ->
  n + 2000 * Z.of_nat (length (counted_words (string_of_list_ascii data))) <= INT_MAX ->
  HashTable.new n = Ok ht0 ->
  Forall (fun word => (String.length word <= 1000)%nat)
    (counted_words (string_of_list_ascii data)) ->
  exists checksum saved ht1,
    compute_md5 (Some data) = Ok checksum /\
    process_file fs ht0 file_path hash_file =
      (write_file (write_file fs hash_file (list_ascii_of_string checksum))
         "hash_table.dat" saved,
       Ok ht1) /\
    (forall word,
       HashTable.get hash_fn ht1 word =
         if occurrences word (counted_words (string_of_list_ascii data)) =? 0
         then Throw invalid_argument
         else Ok (occurrences word (counted_words (string_of_list_ascii data)))) /\
    forall other, HashTable.load_from_file other (Some saved) = Ok (true, ht1).
Proof.
  intros Hdata Hnone Hw1 Hw2 Hn Htokens Hroom Hnew Hshort.
  set (words := counted_words (string_of_list_ascii data)) in *.
  destruct (compute_md5_ok _ MD5_Init MD5_Update MD5_Final data) as [checksum Hsum].
  assert (0 < n <= INT_MAX) as Hn' by lia.
  destruct (new_probed hash_fn n ht0 Hn' Hnew) as (Hpr & Hsize & Hcount & Hget).
  destruct (count_words_spec hash_fn words [] ht0 Hpr)
    as (ht1 & Hfold & Hpr1 & Hget1 & _ & HP); [done|done|lia|cbn [length]; lia|].
  assert (short_keys ht1) as Hkeys.
  { apply (HP (fun e => (String.length (fst e) <= 1000)%nat)).
    - cbn. lia.
    - eapply Forall_impl; [exact Hshort|]. done.
    - by eapply new_short_keys. }
  destruct (save_load_storable ht1 (counted_storable ht1 (pr_counted _ _ Hpr1) Hkeys))
    as (saved & Hsave & Hload).
  exists checksum, saved, ht1. split; [done|]. split; [|split; [done|done]].
  apply (process_file_builds fs ht0 file_path hash_file data checksum ht1 saved);
    try done.
  by rewrite extract_words_runs.
Qed.

(** X26. A second run on an unchanged text does not count again: it finds
    the checksum and the table file of the first run and loads the table
    that the first run built, into whatever table it is given. (The text
    has at most [INT_MAX] tokens, its words have at most 1000 characters
    and the table has room for them.) *)
Theorem process_file_second_run_loads_the_table
    fs n ht0 other file_path hash_file data :
  file_path <> hash_file -> file_path <> "hash_table.dat"%string ->
  hash_file <> "hash_table.dat"%string ->
  file_at fs file_path = Some data -> file_at fs hash_file = None ->
  writable fs hash_file = true -> writable fs "hash_table.dat" = true ->
  0 < n ->
  Z.of_nat (length (TextProcessor.extract (string_of_list_ascii data))) <= INT_MAX ->
  n + 2000 * Z.of_nat (length (counted_words (string_of_list_ascii data))) <= INT_MAX ->
  HashTable.new n = Ok ht0 ->
  Forall (fun word => (String.length word <= 1000)%nat)
    (counted_words (string_of_list_ascii data)) ->
  exists fs1 ht1,
    process_file fs ht0 file_path hash_file = (fs1, Ok ht1) /\
    (forall word,
       HashTable.get hash_fn ht1 word =
         if occurrences word (counted_words (string_of_list_ascii data)) =? 0
         then Throw invalid_argument
         else Ok (occurrences word (counted_words (string_of_list_ascii data)))) /\
    process_file fs1 other file_path hash_file = (fs1, Ok ht1).
Proof.
  intros Hph Hpt Hht Hdata Hnone Hw1 Hw2 Hn Htokens Hroom Hnew Hshort.
  destruct (process_file_first_run fs n ht0 file_path hash_file data)
    as (checksum & saved & ht1 & Hsum & Hrun & Hget & Hload); try done.
  eexists _, ht1. split; [exact Hrun|]. split; [done|].
  apply (process_file_loads _ _ _ _ data checksum saved); [| |  | |done].
  - by rewrite !file_at_write_other.
  - done.
  - rewrite file_at_write_other by done. apply file_at_write_same.
  - apply file_at_write_same.
Qed.

(** X27. A change of the text after its last whole buffer of 4096 bytes goes
    unnoticed: the checksum is the same, so the next run loads the table
    that was built from the old text. (The old text has at most [INT_MAX]
    tokens, its words have at most 1000 characters and the table has room
    for them.) *)
Theorem process_file_misses_a_change_in_the_last_buffer
    fs n ht0 other file_path hash_file k body tail changed :
  file_path <> hash_file -> file_path <> "hash_table.dat"%string ->
  hash_file <> "hash_table.dat"%string ->
  length body = (4096 * k)%nat ->
  (length tail < 4096)%nat -> (length changed < 4096)%nat ->
  file_at fs file_path = Some (body ++ tail) -> file_at fs hash_file = None ->
  writable fs hash_file = true -> writable fs "hash_table.dat" = true ->
  0 < n ->
  Z.of_nat (length (TextProcessor.extract (string_of_list_ascii (body ++ tail))))
    <= INT_MAX ->
  n + 2000 * Z.of_nat (length (counted_words (string_of_list_ascii (body ++ tail))))
    <= INT_MAX ->
  HashTable.new n = Ok ht0 ->
  Forall (fun word => (String.length word <= 1000)%nat)
    (counted_words (string_of_list_ascii (body ++ tail))) ->
  exists fs1 ht1,
    process_file fs ht0 file_path hash_file = (fs1, Ok ht1) /\
    (forall word,
       HashTable.get hash_fn ht1 word =
         if occurrences word (counted_words (string_of_list_ascii (body ++ tail))) =? 0
         then Throw invalid_argument
         else Ok (occurrences word
                    (counted_words (string_of_list_ascii (body ++ tail))))) /\
    process_file (write_file fs1 file_path (body ++ changed)) other file_path hash_file
      = (write_file fs1 file_path (body ++ changed), Ok ht1).
Proof.
  intros Hph Hpt Hht Hbody Htail Hchanged Hdata Hnone Hw1 Hw2 Hn Htokens Hroom Hnew
    Hshort.
  destruct (process_file_first_run fs n ht0 file_path hash_file (body ++ tail))
    as (checksum & saved & ht1 & Hsum & Hrun & Hget & Hload); try done.
  eexists _, ht1. split; [exact Hrun|]. split; [done|].
  apply (process_file_loads _ _ _ _ (body ++ changed) checksum saved); [| |  | |done].
  - apply file_at_write_same.
  - rewrite <- Hsum. unfold compute_md5.
    rewrite (compute_md5_whole_buffers _ _ _ _ k body changed),
            (compute_md5_whole_buffers _ _ _ _ k body tail); done.
  - rewrite !file_at_write_other by done. apply file_at_write_same.
  - rewrite file_at_write_other by done. apply file_at_write_same.
Qed.

(** X28. A file that cannot be opened: [compute_md5] throws
    [runtime_error], [extract_words] returns with the table as it was,
    [load_from_file] returns [false] with the table as it was; and so
    [process_file] on a text that cannot be opened throws [runtime_error]
    before it reads or writes anything else. *)
Theorem files_that_cannot_be_opened fs hash_table file_path hash_file :
  file_at fs file_path = None ->
  compute_md5 (file_at fs file_path) = Throw runtime_error /\
  TextProcessor.extract_words hash_fn
    (option_map string_of_list_ascii (file_at fs file_path)) hash_table
    = Ok hash_table /\
  HashTable.load_from_file hash_table (file_at fs file_path) = Ok (false, hash_table) /\
  process_file fs hash_table file_path hash_file = (fs, Throw runtime_error).
Proof.
  intros Hnone. unfold process_file, TextProcessor.process_file.
  by rewrite Hnone.
Qed.


(** X29. A table file that ends inside its header, after a capacity larger
    than that of the table, is not a harmless miss: [load_from_file] has
    stored the capacity when it returns [false], so that the count of the
    first word searches a table whose [size] is larger than its vectors
    and reads outside them. *)
Theorem process_file_with_cut_table_file_reads_outside_the_table
    fs n ht0 file_path hash_file data checksum cache :
  file_at fs file_path = Some data ->
  compute_md5 (Some data) = Ok checksum ->
  file_at fs hash_file = Some (list_ascii_of_string checksum) ->
  file_at fs "hash_table.dat" = Some cache ->
  (4 <= length cache < 16)%nat ->
  0 < n -> HashTable.new n = Ok ht0 -> n < header_field 0 cache ->
  counted_words (string_of_list_ascii data) <> [] ->
  process_file fs ht0 file_path hash_file = (fs, Undefined).
Proof.
  intros Hdata Hsum Hsaved Hcache Hlen Hn Hnew Hcap Hwords.
  unfold process_file, TextProcessor.process_file.
  rewrite Hdata. fold compute_md5. rewrite Hsum.
  unfold TextProcessor.read_saved_checksum. rewrite Hsaved.
  rewrite (proj1 (read_checksum_back data checksum Hsum)), String.eqb_refl.
  rewrite Hcache.
  destruct (load_from_file_cut_header ht0 cache Hlen)
    as (ht' & -> & Hsize & Htable & Hocc).
  cbn [option_map].
  destruct (extract_words_runs_or_overflow hash_fn (string_of_list_ascii data) ht')
    as [-> | ->]; [|done].
  destruct (counted_words (string_of_list_ascii data)) as [|w words]; [done|].
  cbn [fold_left bind].
  assert (TextProcessor.count_word hash_fn ht' w = Undefined) as ->.
  { unfold TextProcessor.count_word, HashTable.get.
    pose proof (decode_int_range (take 4 (drop 0 cache))) as Hrange.
    fold (header_field 0 cache) in Hrange.
    rewrite hash_home by (unfold INT_MAX; lia). cbn [bind].
    rewrite new_table in Hnew by lia. injection Hnew as <-.
    cbn [HashTable.occupied HashTable.table] in Htable, Hocc.
    rewrite get_loop_past_the_vectors; [done| | | | |].
    - intros i. unfold occ_at, occ_in. rewrite Hocc.
      destruct (replicate _ _ !! _) eqn:E; [|done].
      by apply lookup_replicate_1 in E as [-> _].
    - rewrite Hocc, length_replicate. lia.
    - apply home_range. lia.
    - lia.
    - rewrite Hocc, length_replicate.
      pose proof (home_range hash_fn w (HashTable.size ht') ltac:(lia)). lia. }
  by rewrite <- fold_step_bind.
Qed.

End ProcessFile.

(** * Examples for the further properties *)

Lemma ab_table_probed : probed length_hash ab_table.
Proof.
  apply (insert_all_probed length_hash 4 empty4 [("a"%string, 1); ("b"%string, 2)]).
  - unfold INT_MAX. lia.
  - reflexivity.
  - repeat constructor; by apply int_range_small.
  - reflexivity.
Qed.

Lemma ab_table_counted : counted ab_table.
Proof. apply ab_table_probed. Qed.

Lemma ab_table_tracked : tracked ab_table.
Proof. split; right; (split; [simpl; lia|reflexivity]). Qed.

Lemma ab_table_built : reachable length_hash (fun _ => False) ab_table.
Proof.
  apply (reach_insert _ _ a_table "b" 2); [|by apply int_range_small|reflexivity].
  apply (reach_insert _ _ empty4 "a" 1); [|by apply int_range_small|reflexivity].
  apply (reach_new _ _ 4); [unfold INT_MAX; lia|reflexivity].
Qed.

Lemma ab_table_short_keys : short_keys ab_table.
Proof. repeat constructor; simpl; lia. Qed.

Lemma gap_table_holds_b : holds gap_table 2 "b" 2.
Proof. concrete. Qed.

Lemma gap_table_holds_b_once i w : holds gap_table i "b" w -> i = 2.
Proof.
  intros (Hr & Ho & He). slot_cases i H; first [reflexivity|discriminate Ho].
Qed.

Lemma new_table_is_empty_witness :
  exists ht,
    HashTable.new 4 = Ok ht /\
    HashTable.get_stats ht = (0, 4) /\
    HashTable.get_first ht = Throw runtime_error /\
    HashTable.get_last ht = Throw runtime_error /\
    forall key,
      HashTable.get length_hash ht key = Throw invalid_argument /\
      HashTable.remove length_hash ht key = Throw invalid_argument.
Proof. apply (new_table_is_empty length_hash 4). unfold INT_MAX. lia. Defined.

Lemma hash_gives_slot_index_witness :
  exists index,
    HashTable.hash length_hash "a" 4 = Ok index /\ 0 <= index < 4 /\
    index = (Z.of_N (length_hash "a") mod 2 ^ 64) mod 4.
Proof. apply (hash_gives_slot_index length_hash "a" 4). unfold INT_MAX. lia. Defined.

Lemma linear_probe_finds_first_free_witness :
  (forall r, HashTable.linear_probe 1 4 [false; true; true; false] = Ok r <->
     exists d, 0 <= d < 4 /\ r = (1 + d) mod 4 /\
       occ_in [false; true; true; false] r = false /\
       forall d', 0 <= d' < d ->
         occ_in [false; true; true; false] ((1 + d') mod 4) = true) /\
  (HashTable.linear_probe 1 4 [false; true; true; false] = Throw overflow_error <->
     forall i, 0 <= i < 4 -> occ_in [false; true; true; false] i = true).
Proof.
  apply (linear_probe_finds_first_free 1 4 [false; true; true; false]).
  - lia.
  - reflexivity.
Defined.

Lemma insert_then_get_witness :
  exists ht',
    HashTable.insert length_hash ab_table "b" 7 = Ok ht' /\
    HashTable.get length_hash ht' "b" = Ok 7 /\
    (forall k, k <> "b"%string ->
       HashTable.get length_hash ht' k = HashTable.get length_hash ab_table k) /\
    HashTable.get_stats ht' =
      (match HashTable.get length_hash ab_table "b" with
       | Ok _ => fst (HashTable.get_stats ab_table)
       | _ => fst (HashTable.get_stats ab_table) + 1
       end,
       if fst (HashTable.get_stats ab_table) =? snd (HashTable.get_stats ab_table)
       then snd (HashTable.get_stats ab_table) + 2000
       else snd (HashTable.get_stats ab_table)).
Proof.
  apply (insert_then_get length_hash ab_table "b" 7).
  - exact ab_table_probed.
  - simpl. lia.
  - by apply int_range_small.
Defined.

Lemma remove_then_get_witness :
  exists ht',
    HashTable.remove length_hash ab_table "a" = Ok ht' /\
    HashTable.get length_hash ht' "a" = Throw invalid_argument /\
    (forall k, k <> "a"%string ->
       HashTable.get length_hash ht' k = HashTable.get length_hash ab_table k) /\
    HashTable.get_stats ht' =
      (fst (HashTable.get_stats ab_table) - 1, snd (HashTable.get_stats ab_table)).
Proof.
  apply (remove_then_get length_hash ab_table "a" 1).
  - exact ab_table_counted.
  - apply ab_table_probed.
  - reflexivity.
Defined.

Lemma remove_fails_exactly_on_missing_key_witness :
  HashTable.remove length_hash gap_table "a" = Throw invalid_argument <->
  forall j v, ~ holds gap_table j "a" v.
Proof.
  apply (remove_fails_exactly_on_missing_key length_hash gap_table "a").
  exact gap_table_wf.
Defined.

Lemma insert_then_remove_witness :
  exists ht1 ht2,
    HashTable.insert length_hash ab_table "c" 3 = Ok ht1 /\
    HashTable.remove length_hash ht1 "c" = Ok ht2 /\
    (forall k, HashTable.get length_hash ht2 k = HashTable.get length_hash ab_table k) /\
    fst (HashTable.get_stats ht2) = fst (HashTable.get_stats ab_table).
Proof.
  apply (insert_then_remove length_hash ab_table "c" 3).
  - exact ab_table_probed.
  - simpl. lia.
  - by apply int_range_small.
  - reflexivity.
Defined.

Lemma insert_behind_empty_home_slot_duplicates_witness :
  exists ht' ht'',
    HashTable.insert length_hash gap_table "b" 7 = Ok ht' /\
    holds ht' (home length_hash "b" (HashTable.size gap_table)) "b" 7 /\
    holds ht' 2 "b" 2 /\
    HashTable.elements_count ht' = HashTable.elements_count gap_table + 1 /\
    HashTable.get length_hash ht' "b" = Ok 7 /\
    HashTable.remove length_hash ht' "b" = Ok ht'' /\
    HashTable.get length_hash ht'' "b" = Ok 2.
Proof.
  apply (insert_behind_empty_home_slot_duplicates length_hash gap_table "b" 2 2 7).
  - exact gap_table_wf.
  - simpl. lia.
  - unfold INT_MIN, INT_MAX. simpl. lia.
  - exact gap_table_holds_b.
  - exact gap_table_holds_b_once.
  - reflexivity.
Defined.

Lemma operations_stay_in_bounds_witness :
  (exists ht', HashTable.insert length_hash ab_table "c" 3 = Ok ht') /\
  ((exists v, HashTable.get length_hash ab_table "c" = Ok v) \/
   HashTable.get length_hash ab_table "c" = Throw invalid_argument) /\
  ((exists ht', HashTable.remove length_hash ab_table "c" = Ok ht') \/
   HashTable.remove length_hash ab_table "c" = Throw invalid_argument) /\
  ((exists e, HashTable.get_first ab_table = Ok e) \/
   HashTable.get_first ab_table = Throw runtime_error) /\
  ((exists e, HashTable.get_last ab_table = Ok e) \/
   HashTable.get_last ab_table = Throw runtime_error).
Proof.
  apply (operations_stay_in_bounds length_hash ab_table "c" 3).
  - exact ab_table_counted.
  - simpl. lia.
Defined.

Lemma first_and_last_are_stored_entries_witness :
  (forall k v, HashTable.get_first ab_table = Ok (k, v) -> exists j, holds ab_table j k v) /\
  (forall k v, HashTable.get_last ab_table = Ok (k, v) -> exists j, holds ab_table j k v).
Proof.
  apply (first_and_last_are_stored_entries length_hash ab_table).
  exact ab_table_built.
Defined.

Lemma resize_keeps_first_and_moves_last_witness :
  exists grown,
    HashTable.resize length_hash full_table = Ok grown /\
    (0 <= HashTable.first_index full_table < HashTable.size full_table ->
     occ_at full_table (HashTable.first_index full_table) = true ->
     HashTable.get_first grown = HashTable.get_first full_table) /\
    (HashTable.get_first full_table = Throw runtime_error ->
     HashTable.get_first grown = Throw runtime_error) /\
    (forall j, 0 <= j < HashTable.size full_table -> occ_at full_table j = true ->
       (forall j', j < j' < HashTable.size full_table -> occ_at full_table j' = false) ->
       HashTable.get_last grown = Ok (entry_at full_table j)) /\
    ((forall j, 0 <= j < HashTable.size full_table -> occ_at full_table j = false) ->
     HashTable.get_last grown = Throw runtime_error).
Proof.
  apply (resize_keeps_first_and_moves_last length_hash full_table).
  - apply full_table_counted.
  - unfold INT_MAX. simpl. lia.
Defined.

Lemma insert_of_missing_key_is_last_witness :
  exists ht',
    HashTable.insert length_hash ab_table "c" 3 = Ok ht' /\
    HashTable.get_last ht' = Ok ("c"%string, 3) /\
    (HashTable.get_first ab_table = Throw runtime_error ->
     HashTable.get_first ht' = Ok ("c"%string, 3)).
Proof.
  apply (insert_of_missing_key_is_last length_hash ab_table "c" 3).
  - exact ab_table_counted.
  - simpl. lia.
  - reflexivity.
Defined.

Lemma remove_of_first_key_forgets_first_witness :
  exists ht',
    HashTable.remove length_hash ab_table "a" = Ok ht' /\
    ((exists v, HashTable.get_first ab_table = Ok ("a"%string, v)) ->
     HashTable.get_first ht' = Throw runtime_error) /\
    ((exists v, HashTable.get_last ab_table = Ok ("a"%string, v)) ->
     HashTable.get_last ht' = Throw runtime_error) /\
    (forall k, k <> "a"%string ->
       HashTable.get length_hash ht' k = HashTable.get length_hash ab_table k).
Proof.
  apply (remove_of_first_key_forgets_first length_hash ab_table "a").
  - exact ab_table_counted.
  - apply ab_table_probed.
  - exact ab_table_tracked.
  - left. exists 1. reflexivity.
Defined.

Lemma insert_all_then_get_witness :
  exists store,
    insert_all length_hash empty4
      [("a"%string, 1); ("b"%string, 2); ("a"%string, 5)] = Ok store /\
    forall key,
      HashTable.get length_hash store key =
        match last_value [("a"%string, 1); ("b"%string, 2); ("a"%string, 5)] key None with
        | Some v => Ok v
        | None => Throw invalid_argument
        end.
Proof.
  apply (insert_all_then_get length_hash 4 empty4).
  - lia.
  - unfold INT_MAX. simpl. lia.
  - reflexivity.
  - repeat constructor; by apply int_range_small.
Defined.

Lemma get_first_is_first_inserted_witness :
  exists v,
    HashTable.get_first ab5_table = Ok ("a"%string, v) /\
    HashTable.get length_hash ab5_table "a" = Ok v.
Proof.
  apply (get_first_is_first_inserted length_hash 4 empty4 ("a"%string, 1)
           [("b"%string, 2); ("a"%string, 5)] ab5_table).
  - unfold INT_MAX. lia.
  - reflexivity.
  - repeat constructor; by apply int_range_small.
  - reflexivity.
Defined.

Lemma hello_words :
  counted_words (string_of_list_ascii hello_text) =
    ["hello"%string; "world"%string; "hello"%string].
Proof. reflexivity. Qed.

Lemma hello_words_short :
  Forall (fun word => (String.length word <= 1000)%nat)
    (counted_words (string_of_list_ascii hello_text)).
Proof. rewrite hello_words. repeat constructor; simpl; lia. Qed.

Lemma hello_words_room :
  4 + 2000 * Z.of_nat (length (counted_words (string_of_list_ascii hello_text)))
    <= INT_MAX.
Proof. rewrite hello_words. unfold INT_MAX. simpl. lia. Qed.

Lemma hello_tokens :
  Z.of_nat (length (TextProcessor.extract (string_of_list_ascii hello_text)))
    <= INT_MAX.
Proof. by vm_compute. Qed.

Lemma extract_words_counts_runs_of_letters_and_digits_witness :
  TextProcessor.extract_words length_hash (Some "Hello, World! hello"%string) empty4 =
    fold_left
      (fun acc word => ht <- acc ;; TextProcessor.count_word length_hash ht word)
      (map (TextProcessor.transform TextProcessor.tolower)
         (alnum_runs "Hello, World! hello"))
      (Ok empty4) /\
  Forall (fun word =>
            word <> ""%string /\
            Forall (fun c => is_lower_alnum c = true) (list_ascii_of_string word))
    (map (TextProcessor.transform TextProcessor.tolower)
       (alnum_runs "Hello, World! hello")).
Proof.
  apply (extract_words_counts_runs_of_letters_and_digits length_hash
           "Hello, World! hello" empty4).
  exact hello_tokens.
Defined.

Lemma extract_words_counts_occurrences_witness :
  exists ht,
    TextProcessor.extract_words length_hash (Some "Hello, World! hello"%string) empty4
      = Ok ht /\
    (forall word,
       HashTable.get length_hash ht word =
         if occurrences word (counted_words "Hello, World! hello") =? 0
         then Throw invalid_argument
         else Ok (occurrences word (counted_words "Hello, World! hello"))) /\
    fst (HashTable.get_stats ht) =
      Z.of_nat (length (nodup string_dec (counted_words "Hello, World! hello"))).
Proof.
  apply (extract_words_counts_occurrences length_hash 4 empty4).
  - lia.
  - exact hello_tokens.
  - exact hello_words_room.
  - reflexivity.
Defined.

Lemma load_from_file_reads_what_it_can_witness :
  exists ht',
    HashTable.load_from_file ab_table (Some one_slot_file) = Ok (true, ht') /\
    HashTable.size ht' = header_field 0 one_slot_file /\
    HashTable.elements_count ht' = header_field 4 one_slot_file /\
    HashTable.first_index ht' = header_field 8 one_slot_file /\
    HashTable.last_index ht' = header_field 12 one_slot_file /\
    Z.of_nat (length (HashTable.table ht')) = header_field 0 one_slot_file /\
    Z.of_nat (length (HashTable.occupied ht')) = header_field 0 one_slot_file /\
    (forall i e o,
       parse_slots (Z.to_nat (header_field 0 one_slot_file)) (drop 16 one_slot_file) !! i
         = Some (e, o) ->
       HashTable.table ht' !! i = Some e /\ HashTable.occupied ht' !! i = Some o) /\
    (forall i,
       (length (parse_slots (Z.to_nat (header_field 0 one_slot_file))
                  (drop 16 one_slot_file)) <= i
          < Z.to_nat (header_field 0 one_slot_file))%nat ->
       HashTable.table ht' !! i =
         Some (default (EmptyString, 0) (HashTable.table ab_table !! i)) /\
       HashTable.occupied ht' !! i =
         Some (default false (HashTable.occupied ab_table !! i))).
Proof.
  apply (load_from_file_reads_what_it_can ab_table one_slot_file).
  - vm_compute. lia.
  - vm_compute. discriminate.
Defined.

Lemma load_from_file_of_cut_header_changes_size_witness :
  exists ht',
    HashTable.load_from_file ab_table (Some (encode_int 5000)) = Ok (false, ht') /\
    HashTable.size ht' = header_field 0 (encode_int 5000) /\
    HashTable.table ht' = HashTable.table ab_table /\
    HashTable.occupied ht' = HashTable.occupied ab_table.
Proof.
  apply (load_from_file_of_cut_header_changes_size ab_table (encode_int 5000)).
  simpl. lia.
Defined.

Lemma save_to_file_layout_witness :
  HashTable.save_to_file ab_table false = Throw runtime_error /\
  exists file,
    HashTable.save_to_file ab_table true = Ok file /\
    file =
      encode_int (HashTable.size ab_table)
        ++ encode_int (HashTable.elements_count ab_table)
        ++ encode_int (HashTable.first_index ab_table)
        ++ encode_int (HashTable.last_index ab_table)
        ++ encode_slots (HashTable.table ab_table) (HashTable.occupied ab_table) /\
    length file =
      (16 + list_sum (map (fun e : string * Z => (9 + String.length (fst e))%nat)
                        (HashTable.table ab_table)))%nat.
Proof.
  apply (save_to_file_layout ab_table).
  - exact ab_table_wf.
  - exact ab_table_short_keys.
Defined.

Lemma compute_md5_skips_last_partial_buffer_witness :
  checksum (Some ([] ++ ["a"%char])) = checksum (Some []) /\
  checksum (Some ([] ++ ["a"%char])) = checksum (Some ([] ++ ["b"%char])).
Proof.
  apply (compute_md5_skips_last_partial_buffer (list ascii) []
           (fun ctx data => ctx ++ data) MD5.digest 0 [] ["a"%char] ["b"%char]).
  - reflexivity.
  - simpl. lia.
  - simpl. lia.
Defined.

Lemma process_file_second_run_loads_the_table_witness :
  exists fs1 ht1,
    TextProcessor.process_file length_hash (list ascii) []
      (fun ctx data => ctx ++ data) MD5.digest hello_files empty4
      "book.txt" "book.md5" = (fs1, Ok ht1) /\
    (forall word,
       HashTable.get length_hash ht1 word =
         if occurrences word (counted_words (string_of_list_ascii hello_text)) =? 0
         then Throw invalid_argument
         else Ok (occurrences word (counted_words (string_of_list_ascii hello_text)))) /\
    TextProcessor.process_file length_hash (list ascii) []
      (fun ctx data => ctx ++ data) MD5.digest fs1 empty5000
      "book.txt" "book.md5" = (fs1, Ok ht1).
Proof.
  apply (process_file_second_run_loads_the_table length_hash (list ascii) []
           (fun ctx data => ctx ++ data) MD5.digest hello_files 4 empty4 empty5000
           "book.txt" "book.md5" hello_text).
  - discriminate.
  - discriminate.
  - discriminate.
  - reflexivity.
  - reflexivity.
  - reflexivity.
  - reflexivity.
  - lia.
  - exact hello_tokens.
  - exact hello_words_room.
  - reflexivity.
  - exact hello_words_short.
Defined.

Lemma process_file_misses_a_change_in_the_last_buffer_witness :
  exists fs1 ht1,
    TextProcessor.process_file length_hash (list ascii) []
      (fun ctx data => ctx ++ data) MD5.digest hello_files empty4
      "book.txt" "book.md5" = (fs1, Ok ht1) /\
    (forall word,
       HashTable.get length_hash ht1 word =
         if occurrences word
              (counted_words (string_of_list_ascii ([] ++ hello_text))) =? 0
         then Throw invalid_argument
         else Ok (occurrences word
                    (counted_words (string_of_list_ascii ([] ++ hello_text))))) /\
    TextProcessor.process_file length_hash (list ascii) []
      (fun ctx data => ctx ++ data) MD5.digest
      (write_file fs1 "book.txt" ([] ++ list_ascii_of_string "Goodbye"))
      empty5000 "book.txt" "book.md5"
    = (write_file fs1 "book.txt" ([] ++ list_ascii_of_string "Goodbye"), Ok ht1).
Proof.
  apply (process_file_misses_a_change_in_the_last_buffer length_hash (list ascii) []
           (fun ctx data => ctx ++ data) MD5.digest hello_files 4 empty4 empty5000
           "book.txt" "book.md5" 0 [] hello_text (list_ascii_of_string "Goodbye")).
  - discriminate.
  - discriminate.
  - discriminate.
  - reflexivity.
  - simpl. lia.
  - simpl. lia.
  - reflexivity.
  - reflexivity.
  - reflexivity.
  - reflexivity.
  - lia.
  - exact hello_tokens.
  - exact hello_words_room.
  - reflexivity.
  - exact hello_words_short.
Defined.

Lemma files_that_cannot_be_opened_witness :
  checksum (file_at hello_files "none.txt") = Throw runtime_error /\
  TextProcessor.extract_words length_hash
    (option_map string_of_list_ascii (file_at hello_files "none.txt")) empty4
    = Ok empty4 /\
  HashTable.load_from_file empty4 (file_at hello_files "none.txt") = Ok (false, empty4) /\
  TextProcessor.process_file length_hash (list ascii) []
    (fun ctx data => ctx ++ data) MD5.digest hello_files empty4
    "none.txt" "book.md5" = (hello_files, Throw runtime_error).
Proof.
  apply (files_that_cannot_be_opened length_hash (list ascii) []
           (fun ctx data => ctx ++ data) MD5.digest hello_files empty4
           "none.txt" "book.md5").
  reflexivity.
Defined.

Lemma process_file_with_cut_table_file_reads_outside_the_table_witness :
  TextProcessor.process_file length_hash (list ascii) []
    (fun ctx data => ctx ++ data) MD5.digest cut_files empty4
    "book.txt" "book.md5" = (cut_files, Undefined).
Proof.
  apply (process_file_with_cut_table_file_reads_outside_the_table length_hash
           (list ascii) [] (fun ctx data => ctx ++ data) MD5.digest cut_files 4 empty4
           "book.txt" "book.md5" hello_text "d41d8cd98f0b24e980998ecf8427e"
           (encode_int 5000)).
  - reflexivity.
  - vm_compute. reflexivity.
  - reflexivity.
  - reflexivity.
  - simpl. lia.
  - lia.
  - reflexivity.
  - vm_compute. reflexivity.
  - rewrite hello_words. discriminate.
Defined.

Lemma gap_table_storable : storable gap_table.
Proof.
  split; [exact gap_table_wf|by apply int_range_small..| |];
    repeat constructor; simpl; first [lia|by apply int_range_small].
Qed.

Lemma save_then_load_gives_any_table_back_witness :
  exists file,
    HashTable.save_to_file gap_table true = Ok file /\
    HashTable.load_from_file ab_table (Some file) = Ok (true, gap_table).
Proof.
  apply (save_then_load_gives_any_table_back gap_table ab_table).
  exact gap_table_storable.
Defined.

Lemma table_of_capacity_zero_witness :
  HashTable.new 0 = Ok zero_table /\
  HashTable.get_stats zero_table = (0, 0) /\
  HashTable.get length_hash zero_table "a" = Undefined /\
  HashTable.remove length_hash zero_table "a" = Undefined /\
  exists ht,
    HashTable.insert length_hash zero_table "a" 1 = Ok ht /\
    HashTable.get_stats ht = (1, 2000) /\
    HashTable.get length_hash ht "a" = Ok 1.
Proof.
  apply (table_of_capacity_zero length_hash "a" 1). by apply int_range_small.
Defined.
